(** * Two-dimensional sorting networks of hpc-benchmarks

    A shallow embedding of the sorting core of [oetsort.c] (two-dimensional
    odd-even transposition sort) and [shearsort.c] (shear sort), and the
    properties of it that the specification states.

    Conventions of the embedding:
    - a C [int] is a [Z]; the sorting code only compares and moves values,
      so no arithmetic on values (and no wrap-around) ever happens.  An
      index is a [Z] too: the routines only step an index by one or two
      inside a band that fits in memory;
    - a C array object is a [list Z]; a pointer into it is an offset of
      type [Z], so that [row[k]] is the cell [row + k] of the object;
    - every access is checked against the bounds of the object: the
      result of a piece of code is an [outcome], which records the first
      access outside the object instead of a value;
    - a loop is the combinator [while], which carries the loop condition
      and the loop body as they are written in the source. *)

From Stdlib Require Import ZArith Lia Bool.
From stdpp Require Import base tactics list functions.

Local Open Scope Z_scope.

(** ** Outcomes of a computation *)

Inductive outcome (A : Type) : Type :=
| Done (a : A)
| OutOfBounds (index : Z)
| OutOfFuel.

Arguments Done {A} a.
Arguments OutOfBounds {A} index.
Arguments OutOfFuel {A}.

Definition bind {A B : Type} (m : outcome A) (k : A -> outcome B) : outcome B :=
  match m with
  | Done a => k a
  | OutOfBounds i => OutOfBounds i
  | OutOfFuel => OutOfFuel
  end.

Notation "x <- m ;; k" := (bind m (fun x => k))
  (at level 100, m at next level, right associativity).

(** ** Memory: an array object and checked accesses *)

Definition load (mem : list Z) (i : Z) : outcome Z :=
  if i <? 0 then OutOfBounds i
  else match mem !! Z.to_nat i with
       | Some v => Done v
       | None => OutOfBounds i
       end.

Definition store (mem : list Z) (i : Z) (v : Z) : outcome (list Z) :=
  if (0 <=? i) && (i <? Z.of_nat (length mem))
  then Done (<[Z.to_nat i := v]> mem)
  else OutOfBounds i.

(** What [MPI_Send] reads from a buffer and what [MPI_Recv] writes into
    one.  A transfer of [count] elements of type [MPI_INT] touches [count]
    consecutive cells; a transfer of one element of the derived type
    [column_type = MPI_Type_vector(DIMENSION, 1, DIMENSION, MPI_INT)]
    touches [DIMENSION] cells that lie [DIMENSION] apart.  Both are
    [gather] and [scatter], with stride 1 and stride [DIMENSION]. *)

Fixpoint gather (mem : list Z) (ptr stride : Z) (count : nat) : outcome (list Z) :=
  match count with
  | O => Done []
  | S count' =>
      v <- load mem ptr ;;
      rest <- gather mem (ptr + stride) stride count' ;;
      Done (v :: rest)
  end.

Fixpoint scatter (mem : list Z) (ptr stride : Z) (data : list Z) : outcome (list Z) :=
  match data with
  | [] => Done mem
  | v :: rest =>
      mem' <- store mem ptr v ;;
      scatter mem' (ptr + stride) stride rest
  end.

(** ** Loops

    [while fuel cond body s] runs [while (cond) body] from the state [s].
    The fuel bounds the number of evaluations of the condition; every loop
    of a sorting routine below is given more fuel than it can use. *)

Fixpoint while {St : Type} (fuel : nat) (cond : St -> bool)
    (body : St -> outcome St) (s : St) : outcome St :=
  match fuel with
  | O => OutOfFuel
  | S fuel' =>
      if cond s then s' <- body s ;; while fuel' cond body s'
      else Done s
  end.

(** ** The convergence check

    [oetsort.c] (lines 345-359) and [shearsort.c] (lines 284-297) contain
    the same check, up to the name of the counter of the second loop; it is
    embedded once.  [matrix] is the object [int matrix[DIMENSION][DIMENSION]],
    so that [matrix[r][c]] is the cell [r * DIMENSION + c]. *)

Definition cell (matrix : list Z) (DIMENSION r c : Z) : outcome Z :=
  load matrix (r * DIMENSION + c).

(** [if (matrix[current_row][current_column] >
         matrix[current_row + 1][current_column + 1]) is_sorted = FALSE;] *)
Definition compare_diagonal (matrix : list Z) (DIMENSION : Z)
    (current_row current_column : Z) (is_sorted : bool) : outcome bool :=
  a <- cell matrix DIMENSION current_row current_column ;;
  b <- cell matrix DIMENSION (current_row + 1) (current_column + 1) ;;
  Done (if a >? b then false else is_sorted).

(** The diagonals that start in column 0, one for each row [i]. *)
Definition check_below (matrix : list Z) (DIMENSION : Z) (is_sorted : bool)
  : outcome bool :=
  s <- while (S (Z.to_nat DIMENSION))
         (fun '(i, is_sorted) => (i <? DIMENSION - 1) && is_sorted)
         (fun '(i, is_sorted) =>
            t <- while (S (Z.to_nat DIMENSION))
                   (fun '(current_row, _, is_sorted) =>
                      (current_row <? DIMENSION - 1) && is_sorted)
                   (fun '(current_row, current_column, is_sorted) =>
                      is_sorted' <- compare_diagonal matrix DIMENSION
                                      current_row current_column is_sorted ;;
                      Done (current_row + 1, current_column + 1, is_sorted'))
                   (i, 0, is_sorted) ;;
            Done (i + 1, snd t))
         (0, is_sorted) ;;
  Done (snd s).

(** The diagonals that start in row 0, one for each column [j]. *)
Definition check_above (matrix : list Z) (DIMENSION : Z) (is_sorted : bool)
  : outcome bool :=
  s <- while (S (Z.to_nat DIMENSION))
         (fun '(j, is_sorted) => (j <? DIMENSION - 1) && is_sorted)
         (fun '(j, is_sorted) =>
            t <- while (S (Z.to_nat DIMENSION))
                   (fun '(_, current_column, is_sorted) =>
                      (current_column <? DIMENSION - 1) && is_sorted)
                   (fun '(current_row, current_column, is_sorted) =>
                      is_sorted' <- compare_diagonal matrix DIMENSION
                                      current_row current_column is_sorted ;;
                      Done (current_row + 1, current_column + 1, is_sorted'))
                   (0, j, is_sorted) ;;
            Done (j + 1, snd t))
         (0, is_sorted) ;;
  Done (snd s).

(** [is_sorted = TRUE;] followed by the two loop nests. *)
Definition check_sorted (matrix : list Z) (DIMENSION : Z) : outcome bool :=
  is_sorted <- check_below matrix DIMENSION true ;;
  check_above matrix DIMENSION is_sorted.

(** The snake order of the specification: every cell is at most its
    lower right neighbour. *)
Definition snake_order (matrix : list Z) (DIMENSION : Z) : Prop :=
  forall r c a b,
    0 <= r -> r + 1 < DIMENSION -> 0 <= c -> c + 1 < DIMENSION ->
    cell matrix DIMENSION r c = Done a ->
    cell matrix DIMENSION (r + 1) (c + 1) = Done b ->
    a <= b.

(** One pair of neighbours on a diagonal is in order. *)
Definition pair_ok (matrix : list Z) (DIMENSION r c : Z) : Prop :=
  forall a b, cell matrix DIMENSION r c = Done a ->
    cell matrix DIMENSION (r + 1) (c + 1) = Done b -> a <= b.

(** ** Bands

    A row travels as [DIMENSION] consecutive [MPI_INT]s that start at
    [&matrix[r][0]]; a column travels as one [column_type] that starts at
    [&matrix[0][c]]. *)

Definition extract_row (matrix : list Z) (DIMENSION r : Z) : outcome (list Z) :=
  gather matrix (r * DIMENSION) 1 (Z.to_nat DIMENSION).

Definition deposit_row (matrix : list Z) (DIMENSION r : Z) (band : list Z)
  : outcome (list Z) :=
  scatter matrix (r * DIMENSION) 1 band.

Definition extract_column (matrix : list Z) (DIMENSION c : Z) : outcome (list Z) :=
  gather matrix c DIMENSION (Z.to_nat DIMENSION).

Definition deposit_column (matrix : list Z) (DIMENSION c : Z) (band : list Z)
  : outcome (list Z) :=
  scatter matrix c DIMENSION band.

(** The master copies the column it sorts itself with two loops
    ([oetsort.c] lines 321-323 and 326-328, [shearsort.c] lines 259-261
    and 263-265):
    [for (current_row = 0; current_row < DIMENSION; current_row++)
       numbers[current_row] = matrix[current_row][current_column];] *)
Definition column_to_numbers (matrix numbers : list Z)
    (DIMENSION current_column : Z) : outcome (list Z) :=
  s <- while (S (Z.to_nat DIMENSION))
         (fun '(current_row, _) => current_row <? DIMENSION)
         (fun '(current_row, numbers) =>
            v <- cell matrix DIMENSION current_row current_column ;;
            numbers' <- store numbers current_row v ;;
            Done (current_row + 1, numbers'))
         (0, numbers) ;;
  Done (snd s).

(** [for (current_row = 0; current_row < DIMENSION; current_row++)
       matrix[current_row][current_column] = numbers[current_row];] *)
Definition numbers_to_column (matrix numbers : list Z)
    (DIMENSION current_column : Z) : outcome (list Z) :=
  s <- while (S (Z.to_nat DIMENSION))
         (fun '(current_row, _) => current_row <? DIMENSION)
         (fun '(current_row, matrix) =>
            v <- load numbers current_row ;;
            matrix' <- store matrix (current_row * DIMENSION + current_column) v ;;
            Done (current_row + 1, matrix'))
         (0, matrix) ;;
  Done (snd s).

(** What a program does once its command line and its process group are
    known: it leaves with an exit code, or it enters the sorting loop. *)
Inductive startup : Type :=
| Exit (code : Z)
| Enter (DIMENSION NUMBER_OF_PROCESSES : Z).

(** ** The pair passes of [oetsort.c]

    [esort], [ersort], [osort] and [orsort] are the same loop
    [for (i = start; i < length - 1; i += 2)] around the same exchange; they
    differ in [start] (0 for the even passes, 1 for the odd ones) and in
    the comparison that triggers the exchange ([row[i+1] < row[i]] for the
    ascending passes, [row[i+1] > row[i]] for the descending ones). *)

Module Oetsort.

(** The body [if (row[i+1] ? row[i]) { temp = row[i+1]; row[i+1] = row[i];
    row[i] = temp; }], where [swap_if hi lo] is the comparison applied to
    [row[i+1]] and [row[i]]. *)
Definition exchange (swap_if : Z -> Z -> bool) (mem : list Z) (row i : Z)
  : outcome (list Z) :=
  hi <- load mem (row + (i + 1)) ;;
  lo <- load mem (row + i) ;;
  if swap_if hi lo then
    temp <- load mem (row + (i + 1)) ;;
    v <- load mem (row + i) ;;
    mem1 <- store mem (row + (i + 1)) v ;;
    store mem1 (row + i) temp
  else Done mem.

(** [length - 1] is computed in [Z]: it is the value of the [int]
    expression for every [length] above [INT_MIN], where the subtraction
    does not overflow. *)
Definition pair_pass (swap_if : Z -> Z -> bool) (start : Z)
    (mem : list Z) (row length : Z) : outcome (list Z) :=
  s <- while (S (Z.to_nat length))
         (fun '(i, _) => i <? length - 1)
         (fun '(i, m) => m' <- exchange swap_if m row i ;; Done (i + 2, m'))
         (start, mem) ;;
  Done (snd s).

Definition esort : list Z -> Z -> Z -> outcome (list Z) := pair_pass Z.ltb 0.
Definition ersort : list Z -> Z -> Z -> outcome (list Z) := pair_pass Z.gtb 0.
Definition osort : list Z -> Z -> Z -> outcome (list Z) := pair_pass Z.ltb 1.
Definition orsort : list Z -> Z -> Z -> outcome (list Z) := pair_pass Z.gtb 1.

(** *** Workers (lines 384-416)

    A worker's buffer [numbers] holds the band it has just received;
    what it sends back is the buffer after the two passes. *)

(** [if (PROCESS_ID % 2 == 0) { osort; esort } else { orsort; ersort }] *)
Definition worker_row (PROCESS_ID DIMENSION : Z) (numbers : list Z)
  : outcome (list Z) :=
  if Z.rem PROCESS_ID 2 =? 0 then
    numbers1 <- osort numbers 0 DIMENSION ;;
    esort numbers1 0 DIMENSION
  else
    numbers1 <- orsort numbers 0 DIMENSION ;;
    ersort numbers1 0 DIMENSION.

Definition worker_column (DIMENSION : Z) (numbers : list Z) : outcome (list Z) :=
  numbers1 <- osort numbers 0 DIMENSION ;;
  esort numbers1 0 DIMENSION.

(** *** Master (lines 271-376)

    [mail destination] is the band last sent to the worker [destination];
    what the master receives from the worker [source] is that worker's
    answer to it. *)

Definition no_mail : Z -> list Z := fun _ => [].

(** Lines 284-300: one block of [NUMBER_OF_PROCESSES] rows. *)
Definition row_block (DIMENSION NUMBER_OF_PROCESSES : Z)
    (current_row : Z) (matrix : list Z) : outcome (Z * list Z) :=
  let previous_row := current_row in
  s <- while (S (Z.to_nat NUMBER_OF_PROCESSES))
         (fun '(destination, _, _) => destination <? NUMBER_OF_PROCESSES)
         (fun '(destination, current_row, mail) =>
            band <- extract_row matrix DIMENSION current_row ;;
            Done (destination + 1, current_row + 1, <[destination := band]> mail))
         (1, current_row, no_mail) ;;
  let '(_, current_row, mail) := s in
  matrix1 <- osort matrix (current_row * DIMENSION) DIMENSION ;;
  matrix2 <- esort matrix1 (current_row * DIMENSION) DIMENSION ;;
  let current_row := current_row + 1 in
  t <- while (S (Z.to_nat NUMBER_OF_PROCESSES))
         (fun '(source, _, _) => source <? NUMBER_OF_PROCESSES)
         (fun '(source, previous_row, matrix) =>
            band <- worker_row source DIMENSION (mail source) ;;
            matrix' <- deposit_row matrix DIMENSION previous_row band ;;
            Done (source + 1, previous_row + 1, matrix'))
         (1, previous_row, matrix2) ;;
  Done (current_row, snd t).

Definition row_phase (DIMENSION NUMBER_OF_PROCESSES : Z) (matrix : list Z)
  : outcome (list Z) :=
  let NUMBER_OF_ROWS_PER_PROCESS := Z.quot DIMENSION NUMBER_OF_PROCESSES in
  s <- while (S (Z.to_nat NUMBER_OF_ROWS_PER_PROCESS))
         (fun '(i, _, _) => i <? NUMBER_OF_ROWS_PER_PROCESS)
         (fun '(i, current_row, matrix) =>
            b <- row_block DIMENSION NUMBER_OF_PROCESSES current_row matrix ;;
            Done (i + 1, fst b, snd b))
         (0, 0, matrix) ;;
  Done (snd s).

(** Lines 311-334: one block of [NUMBER_OF_PROCESSES] columns. *)
Definition column_block (DIMENSION NUMBER_OF_PROCESSES : Z)
    (current_column : Z) (matrix numbers : list Z)
  : outcome (Z * list Z * list Z) :=
  let previous_column := current_column in
  s <- while (S (Z.to_nat NUMBER_OF_PROCESSES))
         (fun '(destination, _, _) => destination <? NUMBER_OF_PROCESSES)
         (fun '(destination, current_column, mail) =>
            band <- extract_column matrix DIMENSION current_column ;;
            Done (destination + 1, current_column + 1, <[destination := band]> mail))
         (1, current_column, no_mail) ;;
  let '(_, current_column, mail) := s in
  numbers1 <- column_to_numbers matrix numbers DIMENSION current_column ;;
  numbers2 <- osort numbers1 0 DIMENSION ;;
  numbers3 <- esort numbers2 0 DIMENSION ;;
  matrix1 <- numbers_to_column matrix numbers3 DIMENSION current_column ;;
  let current_column := current_column + 1 in
  t <- while (S (Z.to_nat NUMBER_OF_PROCESSES))
         (fun '(source, _, _) => source <? NUMBER_OF_PROCESSES)
         (fun '(source, previous_column, matrix) =>
            band <- worker_column DIMENSION (mail source) ;;
            matrix' <- deposit_column matrix DIMENSION previous_column band ;;
            Done (source + 1, previous_column + 1, matrix'))
         (1, previous_column, matrix1) ;;
  Done (current_column, snd t, numbers3).

Definition column_phase (DIMENSION NUMBER_OF_PROCESSES : Z)
    (matrix numbers : list Z) : outcome (list Z * list Z) :=
  let NUMBER_OF_ROWS_PER_PROCESS := Z.quot DIMENSION NUMBER_OF_PROCESSES in
  s <- while (S (Z.to_nat NUMBER_OF_ROWS_PER_PROCESS))
         (fun '(j, _, _, _) => j <? NUMBER_OF_ROWS_PER_PROCESS)
         (fun '(j, current_column, matrix, numbers) =>
            b <- column_block DIMENSION NUMBER_OF_PROCESSES
                   current_column matrix numbers ;;
            let '(current_column, matrix, numbers) := b in
            Done (j + 1, current_column, matrix, numbers))
         (0, 0, matrix, numbers) ;;
  let '(_, _, matrix, numbers) := s in
  Done (matrix, numbers).

(** One super-step: the body of the [do ... while] without the check. *)
Definition super_step (DIMENSION NUMBER_OF_PROCESSES : Z)
    (matrix numbers : list Z) : outcome (list Z * list Z) :=
  matrix1 <- row_phase DIMENSION NUMBER_OF_PROCESSES matrix ;;
  column_phase DIMENSION NUMBER_OF_PROCESSES matrix1 numbers.

(** [do { super-step; check } while (is_sorted == FALSE);]  The loop has
    no bound of its own: [passes] bounds the number of super-steps.

    After the check the master sends the flag [is_sorted] to every worker
    (lines 364-366) and the workers receive it (line 414).  The flag is an
    [unsigned char] and travels as one [MPI_UNSIGNED_SHORT]; that transfer
    and what it does to the memory of a worker are not part of [sort_loop],
    which runs the workers of every super-step by their ranks.  With one
    process there is no worker and no transfer, and up to the first check
    no flag has been received. *)
Fixpoint sort_loop (passes : nat) (DIMENSION NUMBER_OF_PROCESSES : Z)
    (matrix numbers : list Z) : outcome (list Z * list Z) :=
  match passes with
  | O => OutOfFuel
  | S passes' =>
      s <- super_step DIMENSION NUMBER_OF_PROCESSES matrix numbers ;;
      is_sorted <- check_sorted (fst s) DIMENSION ;;
      if is_sorted then Done s
      else sort_loop passes' DIMENSION NUMBER_OF_PROCESSES (fst s) (snd s)
  end.

(** The master from the loop to [return 0]: the exit code and the matrix
    the program ends with. *)
Definition master (passes : nat) (DIMENSION NUMBER_OF_PROCESSES : Z)
    (matrix numbers : list Z) : outcome (Z * list Z) :=
  s <- sort_loop passes DIMENSION NUMBER_OF_PROCESSES matrix numbers ;;
  Done (0, fst s).

(** Line 224, [numbers = calloc(DIMENSION, sizeof(int))], and the test
    [numbers == NULL] of line 226.  [calloc] takes its count as a [size_t]:
    a negative [DIMENSION] is converted to a count whose product with
    [sizeof(int)] is the size of no object, and [calloc] returns [NULL].
    For a count of zero or more, [memory_available] says whether the
    allocator returns a buffer. *)
Definition numbers_allocated (DIMENSION : Z) (memory_available : bool) : bool :=
  (0 <=? DIMENSION) && memory_available.

(** Lines 186-241.  [DIMENSION] is the value of [atoi(argv[1])],
    [error_code] what the calls that initialise MPI leave in [error_code],
    [memory_available] whether the allocator has a buffer for [numbers],
    and [type_error_code] what the calls that build [column_type] leave.
    The declaration [int matrix[DIMENSION][DIMENSION]] of line 222 takes no
    part in the tests. *)
Definition start (argc DIMENSION error_code NUMBER_OF_PROCESSES : Z)
    (memory_available : bool) (type_error_code : Z) : startup :=
  if negb (argc =? 2) then Exit 1
  else if DIMENSION =? 0 then Exit 1
  else if negb (error_code =? 0) then Exit 1
  else if negb (Z.rem DIMENSION NUMBER_OF_PROCESSES =? 0) then Exit 1
  else if negb (numbers_allocated DIMENSION memory_available) then Exit 1
  else if negb (type_error_code =? 0) then Exit 1
  else Enter DIMENSION NUMBER_OF_PROCESSES.

End Oetsort.

(** ** The sorting routines and the phases of [shearsort.c] *)

Module Shearsort.

(** The body [if (row[j-1] ? row[j]) { temp = row[j-1]; row[j-1] = row[j];
    row[j] = temp; }], where [swap_if lo hi] is the comparison applied to
    [row[j-1]] and [row[j]]. *)
Definition exchange (swap_if : Z -> Z -> bool) (mem : list Z) (row j : Z)
  : outcome (list Z) :=
  lo <- load mem (row + (j - 1)) ;;
  hi <- load mem (row + j) ;;
  if swap_if lo hi then
    temp <- load mem (row + (j - 1)) ;;
    v <- load mem (row + j) ;;
    mem1 <- store mem (row + (j - 1)) v ;;
    store mem1 (row + j) temp
  else Done mem.

(** [for (i = 0; i < length; i++)
       for (j = length - 1; j >= 0; j--) exchange] *)
Definition exchange_sort (swap_if : Z -> Z -> bool)
    (mem : list Z) (row length : Z) : outcome (list Z) :=
  s <- while (S (Z.to_nat length))
         (fun '(i, _) => i <? length)
         (fun '(i, m) =>
            t <- while (S (Z.to_nat length))
                   (fun '(j, _) => j >=? 0)
                   (fun '(j, m) => m' <- exchange swap_if m row j ;; Done (j - 1, m'))
                   (length - 1, m) ;;
            Done (i + 1, snd t))
         (0, mem) ;;
  Done (snd s).

(** [sort] exchanges when [row[j-1] > row[j]], [rsort] when
    [row[j-1] < row[j]]. *)
Definition sort : list Z -> Z -> Z -> outcome (list Z) := exchange_sort Z.gtb.
Definition rsort : list Z -> Z -> Z -> outcome (list Z) := exchange_sort Z.ltb.

(** What a rank does to the band it holds.  [mem] is the memory the band
    lies in and [numbers] (for the master, [matrix]) the place of the band
    in it. *)

(** Workers, row phase of a super-step (lines 320-328). *)
Definition worker_row (PROCESS_ID : Z) (mem : list Z) (numbers DIMENSION : Z)
  : outcome (list Z) :=
  if Z.rem PROCESS_ID 2 =? 0 then sort mem numbers DIMENSION
  else rsort mem numbers DIMENSION.

(** Workers, column phase of a super-step (lines 333-335). *)
Definition worker_column (mem : list Z) (numbers DIMENSION : Z)
  : outcome (list Z) :=
  sort mem numbers DIMENSION.

(** Workers, the row phase after the super-steps (lines 341-343). *)
Definition worker_last_row (PROCESS_ID : Z) (mem : list Z) (numbers DIMENSION : Z)
  : outcome (list Z) :=
  sort mem numbers DIMENSION.

(** Master, its own row in the row phase of a super-step (line 239):
    [sort(&matrix[0][0], DIMENSION)]. *)
Definition master_row (mem : list Z) (matrix DIMENSION : Z) : outcome (list Z) :=
  sort mem (matrix + 0 * DIMENSION + 0) DIMENSION.

(** Lines 284-307 and 390-392: the check, then [exit(1)] or the way to
    [return 0]. *)
Definition finish (matrix : list Z) (DIMENSION : Z) : outcome Z :=
  is_sorted <- check_sorted matrix DIMENSION ;;
  if is_sorted then Done 0 else Done 1.

(** Lines 143-187, with the arguments of [Oetsort.start]. *)
Definition start (argc DIMENSION error_code NUMBER_OF_PROCESSES : Z)
    (type_error_code : Z) : startup :=
  if negb (argc =? 2) then Exit 1
  else if DIMENSION <=? 0 then Exit 1
  else if negb (error_code =? 0) then Exit 1
  else if negb (DIMENSION =? NUMBER_OF_PROCESSES) then Exit 1
  else if negb (type_error_code =? 0) then Exit 1
  else Enter DIMENSION NUMBER_OF_PROCESSES.

End Shearsort.

(** ** Specifications on lists

    What the routines compute, by recursion on the band. *)

(** One pass over the pairs (0,1), (2,3), ... of a band. *)
Fixpoint pairs (swap_if : Z -> Z -> bool) (band : list Z) : list Z :=
  match band with
  | lo :: hi :: rest =>
      if swap_if hi lo then hi :: lo :: pairs swap_if rest
      else lo :: hi :: pairs swap_if rest
  | _ => band
  end.

(** One pass over the pairs (1,2), (3,4), ... of a band. *)
Definition odd_pairs (swap_if : Z -> Z -> bool) (band : list Z) : list Z :=
  match band with
  | [] => []
  | first :: rest => first :: pairs swap_if rest
  end.

(** One inner loop of [sort] or [rsort], from the right end of a band to
    its left end: every cell is exchanged with its right neighbour when
    [swap_if] says so. *)
Definition insert_front (swap_if : Z -> Z -> bool) (x : Z) (band : list Z)
  : list Z :=
  match band with
  | [] => [x]
  | y :: rest => if swap_if x y then y :: x :: rest else x :: y :: rest
  end.

Definition bubble (swap_if : Z -> Z -> bool) (band : list Z) : list Z :=
  foldr (insert_front swap_if) [] band.

(** [swap_if x y = false] says that [x] may stand before [y]; a band is
    ordered when every cell may stand before its right neighbour. *)
Definition before (swap_if : Z -> Z -> bool) (x y : Z) : Prop :=
  swap_if x y = false.

Definition ordered (swap_if : Z -> Z -> bool) (band : list Z) : Prop :=
  forall (i : nat) a b,
    band !! i = Some a -> band !! S i = Some b -> before swap_if a b.

(** The positions a pass that starts at [start] compares. *)
Definition compared (start length k : nat) : Prop :=
  exists n : nat,
    (start + 2 * n + 1 < length)%nat /\
    (k = start + 2 * n \/ k = start + 2 * n + 1)%nat.

(** A routine, run on a whole band, returns a permutation of the band
    that agrees with the band outside the compared positions. *)
Definition keeps (pass : list Z -> Z -> Z -> outcome (list Z)) (start : nat)
    (row : list Z) : Prop :=
  exists out,
    pass row 0 (Z.of_nat (length row)) = Done out /\
    out ≡ₚ row /\
    forall k : nat, ~ compared start (length row) k -> out !! k = row !! k.

(** A band in ascending order, and one in descending order. *)
Definition ascending (band : list Z) : Prop :=
  forall (i : nat) a b, band !! i = Some a -> band !! S i = Some b -> a <= b.

Definition descending (band : list Z) : Prop :=
  forall (i : nat) a b, band !! i = Some a -> band !! S i = Some b -> b <= a.

(** The cells [row], ..., [row + length - 1] of a memory. *)
Definition band_at (mem : list Z) (row length : Z) : list Z :=
  take (Z.to_nat length) (drop (Z.to_nat row) mem).

(** The sorting network argument works on bands of zeros and ones.
    [ones band] counts the ones; [ahead t p band] says of a band whose first
    cell is at position [p], after [t] passes over pairs, that every one in
    it either has only ones to its right or is far enough to the right. *)
Definition bits (band : list Z) : Prop := Forall (fun x => x = 0 \/ x = 1) band.

Fixpoint ones (band : list Z) : Z :=
  match band with
  | [] => 0
  | x :: rest => (if x =? 1 then 1 else 0) + ones rest
  end.

Fixpoint ahead (t p : Z) (band : list Z) : Prop :=
  match band with
  | [] => True
  | x :: rest =>
      (x = 1 -> Forall (eq 1) rest \/ t + 1 <= p + 2 * (1 + ones rest)) /\
      ahead t (p + 1) rest
  end.

(** The threshold maps of the zero-one principle. *)
Definition threshold (v x : Z) : Z := if v <=? x then 1 else 0.

(** A memory with the cells [row], [row + 1], ... replaced by a band. *)
Definition set_band (mem : list Z) (row : Z) (band : list Z) : list Z :=
  take (Z.to_nat row) mem ++ band
  ++ drop (Z.to_nat row + length band) mem.

(** Every row of [matrix'] is a permutation of the same row of [matrix]. *)
Definition same_rows (DIMENSION : Z) (matrix matrix' : list Z) : Prop :=
  length matrix' = length matrix /\
  forall r, 0 <= r < DIMENSION ->
    band_at matrix' (r * DIMENSION) DIMENSION
    ≡ₚ band_at matrix (r * DIMENSION) DIMENSION.

(** The rows lie in order as blocks: every cell of a row is at most every
    cell of every later row.  A matrix sorted in row-major order or as a
    snake of rows is of this kind. *)
Definition block_ordered (matrix : list Z) (DIMENSION : Z) : Prop :=
  forall r1 c1 r2 c2 a b,
    0 <= r1 -> r1 < r2 -> r2 < DIMENSION ->
    0 <= c1 < DIMENSION -> 0 <= c2 < DIMENSION ->
    cell matrix DIMENSION r1 c1 = Done a ->
    cell matrix DIMENSION r2 c2 = Done b ->
    a <= b.

(** The full odd-even pass of the specification: [osort], then [esort]. *)
Definition odd_even_pass (mem : list Z) (row length : Z) : outcome (list Z) :=
  mem1 <- Oetsort.osort mem row length ;;
  Oetsort.esort mem1 row length.

Fixpoint odd_even_passes (n : nat) (mem : list Z) (row length : Z)
  : outcome (list Z) :=
  match n with
  | O => Done mem
  | S n' =>
      mem1 <- odd_even_pass mem row length ;;
      odd_even_passes n' mem1 row length
  end.

(** ** Filling the matrix

    [initialize] is the same routine in [oetsort.c] (lines 476-487) and in
    [shearsort.c] (lines 396-407):
    [for (i = 0; i < height; i++) for (j = 0; j < width; j++)
       *matrix++ = rand();], and [rand() % 10 + 1] in a build with [DEBUG].
    [rand k] is the value of call number [k] of [rand()]; the state of the
    loops carries the moving pointer [matrix] and the number of calls made
    so far. *)
Definition initialize (DEBUG : bool) (rand : nat -> Z) (mem : list Z)
    (matrix height width : Z) : outcome (list Z) :=
  s <- while (S (Z.to_nat height))
         (fun '(i, _, _, _) => i <? height)
         (fun '(i, matrix, drawn, mem) =>
            t <- while (S (Z.to_nat width))
                   (fun '(j, _, _, _) => j <? width)
                   (fun '(j, matrix, drawn, mem) =>
                      let value := if DEBUG then Z.rem (rand drawn) 10 + 1
                                   else rand drawn in
                      mem' <- store mem matrix value ;;
                      Done (j + 1, matrix + 1, S drawn, mem'))
                   (0, matrix, drawn, mem) ;;
            let '(_, matrix, drawn, mem) := t in
            Done (i + 1, matrix, drawn, mem))
         (0, matrix, 0%nat, mem) ;;
  let '(_, _, _, mem) := s in
  Done mem.

(** The value [initialize] stores at its call number [k] of [rand()]. *)
Definition drawn_value (DEBUG : bool) (rand : nat -> Z) (k : nat) : Z :=
  if DEBUG then Z.rem (rand k) 10 + 1 else rand k.

(** ** Allocating a matrix of rows

    [create_matrix] is the same routine in [oetsort.c] (lines 543-563) and
    in [shearsort.c] (lines 445-465):
    the array of row pointers is allocated with [calloc(width, ...)], and
    [NULL] is returned if that fails; then
    [for (i = 0; i < height; i++) {
       matrix[i] = calloc(width, sizeof(double));
       if (matrix[i] == NULL) return NULL; }
     return matrix;]
    A pointer is an integer, 0 for [NULL]; [calloc k] is what call number
    [k] of [calloc] returns.  The array of row pointers is an object of
    [width] cells, all [NULL] at first.  The result is [None] for
    [return NULL] and the array of row pointers for [return matrix]; the
    last component of the state of the loop says that the routine has
    returned from inside the loop. *)
Definition create_matrix (calloc : nat -> Z) (height width : Z)
  : outcome (option (list Z)) :=
  if calloc 0%nat =? 0 then Done None
  else
    s <- while (S (Z.to_nat height))
           (fun '(i, _, _, returned) => negb returned && (i <? height))
           (fun '(i, calls, matrix, _) =>
              matrix' <- store matrix i (calloc calls) ;;
              row <- load matrix' i ;;
              if row =? 0 then Done (i, S calls, matrix', true)
              else Done (i + 1, S calls, matrix', false))
           (0, 1%nat, replicate (Z.to_nat width) 0, false) ;;
    let '(_, _, matrix, returned) := s in
    if returned then Done None else Done (Some matrix).

(** The least value of an [int], of 32 bits. *)
Definition INT_MIN : Z := -2147483648.

(** ** More specifications

    What a rank does to a band in one super-step of the transposition sort,
    and which rank a row of the matrix goes to. *)

Definition ascending_pass (band : list Z) : list Z :=
  pairs Z.ltb (odd_pairs Z.ltb band).

Definition descending_pass (band : list Z) : list Z :=
  pairs Z.gtb (odd_pairs Z.gtb band).

Definition rank_pass (PROCESS_ID : Z) (band : list Z) : list Z :=
  if Z.rem PROCESS_ID 2 =? 0 then ascending_pass band else descending_pass band.

(** In every block of [NUMBER_OF_PROCESSES] rows the last row stays with
    the master (rank 0) and the row before it at place [k] goes to the
    worker [k + 1]. *)
Definition row_rank (NUMBER_OF_PROCESSES r : Z) : Z :=
  if r mod NUMBER_OF_PROCESSES =? NUMBER_OF_PROCESSES - 1 then 0
  else r mod NUMBER_OF_PROCESSES + 1.

(** A routine, run on the band of [len] cells at [row] of a memory,
    returns a memory of the same size that holds a permutation of the band
    in the place of the band and is unchanged outside it. *)
Definition in_place (pass : list Z -> Z -> Z -> outcome (list Z))
    (mem : list Z) (row len : Z) : Prop :=
  exists mem',
    pass mem row len = Done mem' /\
    length mem' = length mem /\
    band_at mem' row len ≡ₚ band_at mem row len /\
    forall j : nat,
      (j < Z.to_nat row \/ Z.to_nat (row + len) <= j)%nat ->
      mem' !! j = mem !! j.

(** * Properties *)

(** ** Accesses *)

Lemma load_app (pre : list Z) (a : Z) (post : list Z) (i : Z) :
  i = Z.of_nat (length pre) -> load (pre ++ a :: post) i = Done a.
Proof.
  intros ->. unfold load.
  destruct (Z.ltb_spec (Z.of_nat (length pre)) 0) as [H|_]; [lia|].
  rewrite Nat2Z.id, list_lookup_middle by reflexivity. reflexivity.
Qed.

Lemma store_app (pre : list Z) (a : Z) (post : list Z) (i v : Z) :
  i = Z.of_nat (length pre) ->
  store (pre ++ a :: post) i v = Done (pre ++ v :: post).
Proof.
  intros ->. unfold store.
  rewrite length_app. simpl length.
  destruct (Z.leb_spec 0 (Z.of_nat (length pre))) as [_|H]; [|lia].
  destruct (Z.ltb_spec (Z.of_nat (length pre))
              (Z.of_nat (length pre + S (length post)))) as [_|H]; [|lia].
  simpl. rewrite Nat2Z.id, insert_app_r_alt, Nat.sub_diag by lia. reflexivity.
Qed.

Lemma load_inv (mem : list Z) (i v : Z) :
  load mem i = Done v <-> 0 <= i /\ mem !! Z.to_nat i = Some v.
Proof.
  unfold load. destruct (Z.ltb_spec i 0).
  - split; [discriminate | lia].
  - destruct (mem !! Z.to_nat i) as [w|]; split; intros H'; try discriminate.
    + injection H' as ->. auto.
    + destruct H' as [_ [= ->]]. reflexivity.
    + destruct H' as [_ [=]].
Qed.

Lemma load_in_bounds (mem : list Z) (i : Z) :
  0 <= i < Z.of_nat (length mem) -> exists v, load mem i = Done v.
Proof.
  intros H. destruct (lookup_lt_is_Some_2 mem (Z.to_nat i)) as [v Hv]; [lia|].
  exists v. apply load_inv. split; [lia | exact Hv].
Qed.

Lemma load_out_of_bounds (mem : list Z) (i : Z) :
  i < 0 \/ Z.of_nat (length mem) <= i -> load mem i = OutOfBounds i.
Proof.
  intros H. unfold load. destruct (Z.ltb_spec i 0); [reflexivity|].
  rewrite lookup_ge_None_2 by lia. reflexivity.
Qed.

(** ** Outcomes and loops

    The rules used for the loops below: a loop that keeps an invariant and
    lowers a measure runs to its end ([while_invariant]); what every step
    preserves holds of the result, if there is one ([while_preserves]); a
    loop that lowers a measure does not run out of fuel ([while_fuel]). *)

Lemma bind_done {A B : Type} (m : outcome A) (k : A -> outcome B) (b : B) :
  (x <- m ;; k x) = Done b -> exists a, m = Done a /\ k a = Done b.
Proof. destruct m as [a| |]; simpl; intros H; try discriminate. eauto. Qed.

Ltac bind_inv H :=
  let a := fresh "a" in
  let Ha := fresh "Ha" in
  apply bind_done in H as (a & Ha & H).

Lemma bind_fuel {A B : Type} (m : outcome A) (k : A -> outcome B) :
  m <> OutOfFuel -> (forall a, m = Done a -> k a <> OutOfFuel) ->
  (x <- m ;; k x) <> OutOfFuel.
Proof.
  destruct m; simpl; intros Hm Hk;
    [apply Hk; reflexivity | discriminate | congruence].
Qed.

Lemma while_step {St : Type} (fuel : nat) (cond : St -> bool)
    (body : St -> outcome St) (s : St) :
  while (S fuel) cond body s =
  if cond s then s' <- body s ;; while fuel cond body s' else Done s.
Proof. reflexivity. Qed.

Lemma while_invariant {St : Type} (Inv : St -> Prop) (measure : St -> nat)
    (cond : St -> bool) (body : St -> outcome St) :
  (forall s, Inv s -> cond s = true ->
     exists s', body s = Done s' /\ Inv s' /\ (measure s' < measure s)%nat) ->
  forall (fuel : nat) (s : St),
    Inv s -> (measure s < fuel)%nat ->
    exists s', while fuel cond body s = Done s' /\ Inv s' /\ cond s' = false.
Proof.
  intros Hbody. induction fuel as [|fuel IH]; intros s Hs Hfuel; [lia|].
  rewrite while_step. destruct (cond s) eqn:Hcond; [|eauto].
  destruct (Hbody s Hs Hcond) as (s' & -> & Hs' & Hm).
  simpl. apply IH; [exact Hs' | lia].
Qed.

Lemma while_preserves {St : Type} (P : St -> Prop) (cond : St -> bool)
    (body : St -> outcome St) :
  (forall s s', P s -> cond s = true -> body s = Done s' -> P s') ->
  forall (fuel : nat) (s s' : St),
    P s -> while fuel cond body s = Done s' -> P s'.
Proof.
  intros Hbody. induction fuel as [|fuel IH]; intros s s' Hs H; [discriminate|].
  rewrite while_step in H. destruct (cond s) eqn:Hc.
  - bind_inv H. eapply IH; [|exact H]. eapply Hbody; eauto.
  - injection H as <-. exact Hs.
Qed.

Lemma while_fuel_invariant {St : Type} (Inv : St -> Prop) (measure : St -> nat)
    (cond : St -> bool) (body : St -> outcome St) :
  (forall s, Inv s -> cond s = true -> body s <> OutOfFuel) ->
  (forall s s', Inv s -> cond s = true -> body s = Done s' ->
     Inv s' /\ (measure s' < measure s)%nat) ->
  forall (fuel : nat) (s : St),
    Inv s -> (measure s < fuel)%nat -> while fuel cond body s <> OutOfFuel.
Proof.
  intros Hbody Hdown. induction fuel as [|fuel IH]; intros s Hs Hfuel; [lia|].
  rewrite while_step. destruct (cond s) eqn:Hc; [|discriminate].
  apply bind_fuel; [apply Hbody; assumption|].
  intros s' Hs'. destruct (Hdown s s' Hs Hc Hs') as [Hinv Hlt].
  apply IH; [exact Hinv | lia].
Qed.

Lemma while_fuel {St : Type} (measure : St -> nat) (cond : St -> bool)
    (body : St -> outcome St) :
  (forall s, cond s = true -> body s <> OutOfFuel) ->
  (forall s s', cond s = true -> body s = Done s' ->
     (measure s' < measure s)%nat) ->
  forall (fuel : nat) (s : St),
    (measure s < fuel)%nat -> while fuel cond body s <> OutOfFuel.
Proof.
  intros Hbody Hdown fuel s.
  apply (while_fuel_invariant (fun _ => True) measure); auto.
Qed.

(** ** The pair passes compute [pairs] and [odd_pairs] *)

Lemma pair_ind (P : list Z -> Prop) :
  P [] -> (forall a, P [a]) -> (forall a b l, P l -> P (a :: b :: l)) ->
  forall l, P l.
Proof.
  intros H0 H1 H2.
  assert (H : forall l, P l /\ forall a, P (a :: l)).
  { induction l as [|b l [IH1 IH2]]; split; auto. }
  intros l. apply H.
Qed.

Lemma pairs_length swap_if (band : list Z) :
  length (pairs swap_if band) = length band.
Proof.
  induction band as [| a | a b l IH] using pair_ind; try reflexivity.
  simpl. destruct (swap_if b a); simpl; rewrite IH; reflexivity.
Qed.

Lemma pairs_perm swap_if (band : list Z) : pairs swap_if band ≡ₚ band.
Proof.
  induction band as [| a | a b l IH] using pair_ind; try reflexivity.
  simpl. destruct (swap_if b a).
  - rewrite IH. apply perm_swap.
  - rewrite IH. reflexivity.
Qed.

Lemma odd_pairs_length swap_if (band : list Z) :
  length (odd_pairs swap_if band) = length band.
Proof. destruct band; simpl; [|rewrite pairs_length]; reflexivity. Qed.

Lemma odd_pairs_perm swap_if (band : list Z) : odd_pairs swap_if band ≡ₚ band.
Proof. destruct band; simpl; [|rewrite pairs_perm]; reflexivity. Qed.

Lemma exchange_app swap_if (pre : list Z) (lo hi : Z) (post : list Z) (row i : Z) :
  row + i = Z.of_nat (length pre) ->
  Oetsort.exchange swap_if (pre ++ lo :: hi :: post) row i =
  Done (pre ++ (if swap_if hi lo then [hi; lo] else [lo; hi]) ++ post).
Proof.
  intros Hi. unfold Oetsort.exchange.
  assert (Hhi : forall x y, load (pre ++ x :: y :: post) (row + (i + 1)) = Done y).
  { intros x y. change (pre ++ x :: y :: post) with (pre ++ [x] ++ y :: post).
    rewrite app_assoc. apply load_app. rewrite length_app. simpl. lia. }
  rewrite Hhi, (load_app pre) by lia. simpl.
  destruct (swap_if hi lo); [|reflexivity].
  change (pre ++ lo :: hi :: post) with (pre ++ [lo] ++ hi :: post).
  rewrite app_assoc, (store_app (pre ++ [lo])) by (rewrite length_app; simpl; lia).
  simpl. rewrite <- app_assoc. simpl.
  apply store_app. lia.
Qed.

Lemma pair_loop_spec swap_if (row len : Z) (seg : list Z) :
  forall (pre post : list Z) (i : Z) (fuel : nat),
    row + i = Z.of_nat (length pre) ->
    i + Z.of_nat (length seg) = len ->
    (length seg < fuel)%nat ->
    exists i',
      while fuel (fun '(i, _) => i <? len - 1)
        (fun '(i, m) => m' <- Oetsort.exchange swap_if m row i ;; Done (i + 2, m'))
        (i, pre ++ seg ++ post) =
      Done (i', pre ++ pairs swap_if seg ++ post).
Proof.
  induction seg as [| a | a b l IH] using pair_ind;
    intros pre post i fuel Hrow Hlen Hfuel;
    (destruct fuel as [|fuel]; [simpl in Hfuel; lia|]); simpl in *.
  - destruct (Z.ltb_spec i (len - 1)); [lia|]. eauto.
  - destruct (Z.ltb_spec i (len - 1)); [lia|]. eauto.
  - destruct (Z.ltb_spec i (len - 1)); [|lia].
    rewrite exchange_app by lia. simpl.
    destruct (IH (pre ++ if swap_if b a then [b; a] else [a; b]) post (i + 2) fuel)
      as [i' Hi'].
    + rewrite length_app. destruct (swap_if b a); simpl; lia.
    + lia.
    + lia.
    + exists i'. rewrite <- !app_assoc in Hi'. rewrite Hi'.
      destruct (swap_if b a); reflexivity.
Qed.

Lemma pair_pass_even swap_if (pre seg post : list Z) (row len : Z) :
  row = Z.of_nat (length pre) -> len = Z.of_nat (length seg) ->
  Oetsort.pair_pass swap_if 0 (pre ++ seg ++ post) row len =
  Done (pre ++ pairs swap_if seg ++ post).
Proof.
  intros Hrow Hlen. unfold Oetsort.pair_pass.
  destruct (pair_loop_spec swap_if row len seg pre post 0 (S (Z.to_nat len)))
    as [i' ->]; [lia | lia | lia |]. reflexivity.
Qed.

Lemma pair_pass_odd swap_if (pre seg post : list Z) (row len : Z) :
  row = Z.of_nat (length pre) -> len = Z.of_nat (length seg) ->
  Oetsort.pair_pass swap_if 1 (pre ++ seg ++ post) row len =
  Done (pre ++ odd_pairs swap_if seg ++ post).
Proof.
  intros Hrow Hlen. unfold Oetsort.pair_pass.
  destruct seg as [|a seg].
  - subst len. reflexivity.
  - simpl length in Hlen.
    destruct (pair_loop_spec swap_if row len seg (pre ++ [a]) post 1
                (S (Z.to_nat len))) as [i' Hi'].
    + rewrite length_app. simpl. lia.
    + lia.
    + lia.
    + rewrite <- !app_assoc in Hi'. cbn [app] in Hi'.
      change ((a :: seg) ++ post) with (a :: seg ++ post).
      rewrite Hi'. reflexivity.
Qed.

(** Any band of a memory can be framed. *)
Lemma band_frame (mem : list Z) (row len : Z) :
  0 <= row -> 0 <= len -> row + len <= Z.of_nat (length mem) ->
  mem = take (Z.to_nat row) mem ++ band_at mem row len
        ++ drop (Z.to_nat (row + len)) mem /\
  row = Z.of_nat (length (take (Z.to_nat row) mem)) /\
  len = Z.of_nat (length (band_at mem row len)).
Proof.
  intros Hrow Hlen Hmem. unfold band_at. split; [|split].
  - rewrite Z2Nat.inj_add, <- drop_drop, take_drop, take_drop by lia. reflexivity.
  - rewrite length_take. lia.
  - rewrite length_take, length_drop. lia.
Qed.

Lemma pairs_lookup swap_if (band : list Z) :
  forall k : nat, ~ compared 0 (length band) k ->
    pairs swap_if band !! k = band !! k.
Proof.
  induction band as [| a | a b l IH] using pair_ind; intros k Hk;
    try reflexivity.
  destruct k as [|[|k]].
  - exfalso. apply Hk. exists 0%nat. simpl. lia.
  - exfalso. apply Hk. exists 0%nat. simpl. lia.
  - assert (pairs swap_if l !! k = l !! k) as Hl.
    { apply IH. intros [n [Hn Hn']]. apply Hk. exists (S n). simpl in *. lia. }
    simpl. destruct (swap_if b a); exact Hl.
Qed.

Lemma odd_pairs_lookup swap_if (band : list Z) :
  forall k : nat, ~ compared 1 (length band) k ->
    odd_pairs swap_if band !! k = band !! k.
Proof.
  destruct band as [|a l]; intros k Hk; [reflexivity|].
  destruct k as [|k]; [reflexivity|]. simpl.
  apply pairs_lookup. intros [n [Hn Hn']]. apply Hk. exists n. simpl in *. lia.
Qed.

Lemma pair_pass_even_whole swap_if (row : list Z) :
  Oetsort.pair_pass swap_if 0 row 0 (Z.of_nat (length row)) =
  Done (pairs swap_if row).
Proof.
  pose proof (pair_pass_even swap_if [] row [] 0 (Z.of_nat (length row))
                eq_refl eq_refl) as H.
  simpl in H. rewrite !app_nil_r in H. exact H.
Qed.

Lemma pair_pass_odd_whole swap_if (row : list Z) :
  Oetsort.pair_pass swap_if 1 row 0 (Z.of_nat (length row)) =
  Done (odd_pairs swap_if row).
Proof.
  pose proof (pair_pass_odd swap_if [] row [] 0 (Z.of_nat (length row))
                eq_refl eq_refl) as H.
  simpl in H. rewrite !app_nil_r in H. exact H.
Qed.

(** The positions that are never compared: the last one of a band of odd
    length in an even pass; the first one, and the last one of a band of
    even length, in an odd pass. *)
Lemma last_not_compared_even (len : nat) :
  Nat.Odd len -> ~ compared 0 len (len - 1).
Proof. intros [k ->] (n & Hn & Hk). lia. Qed.

Lemma first_not_compared_odd (len : nat) : ~ compared 1 len 0.
Proof. intros (n & Hn & Hk). lia. Qed.

Lemma last_not_compared_odd (len : nat) :
  Nat.Even len -> ~ compared 1 len (len - 1).
Proof. intros [k ->] (n & Hn & Hk). lia. Qed.

(** C10.  Each of [esort], [ersort], [osort] and [orsort], run on a whole
    band, returns a permutation of the band, and leaves every position
    that belongs to no compared pair as it was: for the even passes the
    last position of a band of odd length, for the odd passes position 0
    and the last position of a band of even length. *)
Theorem pair_passes_permute (row : list Z) :
  keeps Oetsort.esort 0 row /\ keeps Oetsort.ersort 0 row /\
  keeps Oetsort.osort 1 row /\ keeps Oetsort.orsort 1 row.
Proof.
  unfold keeps, Oetsort.esort, Oetsort.ersort, Oetsort.osort, Oetsort.orsort.
  rewrite !pair_pass_even_whole, !pair_pass_odd_whole.
  repeat split;
    eauto using pairs_perm, odd_pairs_perm, pairs_lookup, odd_pairs_lookup.
Qed.

(** ** The odd-even transposition network sorts *)

Lemma ascending_nil : ascending [].
Proof. intros i a b H. rewrite lookup_nil in H. discriminate. Qed.

Lemma ascending_cons (x : Z) (band : list Z) :
  (forall y, band !! 0%nat = Some y -> x <= y) -> ascending band ->
  ascending (x :: band).
Proof.
  intros Hx Hband [|i] a b Ha Hb; simpl in *.
  - injection Ha as ->. auto.
  - eapply Hband; eauto.
Qed.

Lemma ascending_ones (band : list Z) : Forall (eq 1) band -> ascending band.
Proof.
  intros H i a b Ha Hb.
  rewrite Forall_lookup in H.
  rewrite <- (H _ _ Ha), <- (H _ _ Hb). lia.
Qed.

Lemma ones_pairs (band : list Z) : ones (pairs Z.ltb band) = ones band.
Proof.
  induction band as [| a | a b l IH] using pair_ind; try reflexivity.
  simpl. destruct (b <? a); simpl; rewrite IH; lia.
Qed.

Lemma ones_bound (band : list Z) : 0 <= ones band <= Z.of_nat (length band).
Proof.
  induction band as [|x l IH]; simpl; [lia|].
  destruct (x =? 1); lia.
Qed.

Lemma ones_full (band : list Z) :
  bits band -> Forall (eq 1) band \/ ones band + 1 <= Z.of_nat (length band).
Proof.
  induction 1 as [|x l Hx _ IH]; [left; constructor|].
  simpl. pose proof (ones_bound l).
  destruct Hx as [-> | ->]; simpl; [right; lia|].
  destruct IH as [IH|IH]; [left; constructor; auto | right; lia].
Qed.

Lemma bits_pairs (band : list Z) : bits band -> bits (pairs Z.ltb band).
Proof. unfold bits. rewrite pairs_perm. auto. Qed.

Lemma all_ones_pairs (band : list Z) :
  Forall (eq 1) band -> Forall (eq 1) (pairs Z.ltb band).
Proof. rewrite pairs_perm. auto. Qed.

(** A pass over the pairs that start at [p] moves every one that is
    exactly at its bound one step to the right. *)
Lemma ahead_pairs (band : list Z) :
  forall t p k, bits band -> p + t = 2 * k + 1 ->
    ahead t p band -> ahead (t + 1) p (pairs Z.ltb band).
Proof.
  induction band as [| a | a b l IH] using pair_ind; intros t p k Hbits Hpar H.
  - exact I.
  - simpl in *. split; [|exact I]. intros _. left. constructor.
  - inversion Hbits as [|? ? Ha Hbits']; subst.
    inversion Hbits' as [|? ? Hb Hl]; subst.
    destruct H as [Ha1 [Hb1 Hrest]].
    assert (Hrest' : ahead (t + 1) (p + 1 + 1) (pairs Z.ltb l)).
    { apply (IH t (p + 1 + 1) (k + 1)); [exact Hl | lia | exact Hrest]. }
    pose proof (ones_pairs l) as Hones.
    pose proof (ones_bound l) as Hbound.
    assert (Hall : Forall (eq 1) l -> Forall (eq 1) (pairs Z.ltb l))
      by apply all_ones_pairs.
    cbn [ones] in Ha1.
    destruct Ha as [-> | ->], Hb as [-> | ->]; simpl in *;
      rewrite ?Hones; (split; [|split; [|exact Hrest']]); intros Hone;
      try discriminate; try lia.
    + destruct (Hb1 eq_refl) as [H1|H1]; [left; auto | right; lia].
    + destruct (Ha1 eq_refl) as [H1|H1]; [|right; lia].
      inversion H1; subst; lia.
    + destruct (Hb1 eq_refl) as [H1|H1]; [left; auto | right; lia].
    + destruct (Hb1 eq_refl) as [H1|H1]; [left; auto | right; lia].
Qed.

Lemma ahead_odd_pairs (band : list Z) :
  forall t p k, bits band -> p + t = 2 * k ->
    ahead t p band -> ahead (t + 1) p (odd_pairs Z.ltb band).
Proof.
  destruct band as [|a l]; intros t p k Hbits Hpar H; [exact I|].
  inversion Hbits as [|? ? Ha Hl]; subst.
  destruct H as [Ha1 Hrest]. simpl. split.
  - intros Hone. rewrite ones_pairs.
    destruct (Ha1 Hone) as [H1|H1]; [left; apply all_ones_pairs, H1 | right; lia].
  - apply (ahead_pairs l t (p + 1) k); [exact Hl | lia | exact Hrest].
Qed.

Lemma ahead_start (band : list Z) : forall p, 0 <= p -> ahead 0 p band.
Proof.
  induction band as [|x l IH]; intros p Hp; simpl; [exact I|].
  split; [|apply IH; lia].
  intros _. right. pose proof (ones_bound l). lia.
Qed.

(** After enough passes every one has only ones to its right. *)
Lemma ahead_ascending (band : list Z) :
  forall t p, bits band -> 0 <= p -> 2 * (p + Z.of_nat (length band)) <= t ->
    ahead t p band -> ascending band.
Proof.
  induction band as [|x l IH]; intros t p Hbits Hp Ht H; [apply ascending_nil|].
  inversion Hbits as [|? ? Hx Hl]; subst.
  destruct H as [Hx1 Hrest]. simpl length in Ht.
  destruct Hx as [-> | ->].
  - apply ascending_cons.
    + intros y Hy. rewrite Forall_lookup in Hl.
      destruct (Hl _ _ Hy); lia.
    + apply (IH t (p + 1)); auto; lia.
  - destruct (Hx1 eq_refl) as [H1|H1].
    + apply ascending_ones. constructor; auto.
    + destruct (ones_full l Hl) as [H2|H2]; [|lia].
      apply ascending_ones. constructor; auto.
Qed.

(** The pass on lists, and its iteration. *)
Lemma bits_odd_pairs (band : list Z) : bits band -> bits (odd_pairs Z.ltb band).
Proof. unfold bits. rewrite odd_pairs_perm. auto. Qed.

Lemma ahead_passes (n : nat) (band : list Z) :
  bits band ->
  bits (Nat.iter n (fun l => pairs Z.ltb (odd_pairs Z.ltb l)) band) /\
  ahead (2 * Z.of_nat n) 0
    (Nat.iter n (fun l => pairs Z.ltb (odd_pairs Z.ltb l)) band).
Proof.
  intros Hbits. induction n as [|n [IH1 IH2]].
  - split; [exact Hbits | apply ahead_start; lia].
  - rewrite Nat.iter_succ. split.
    + apply bits_pairs, bits_odd_pairs, IH1.
    + replace (2 * Z.of_nat (S n)) with (2 * Z.of_nat n + 1 + 1) by lia.
      apply (ahead_pairs _ _ _ (Z.of_nat n)); [apply bits_odd_pairs, IH1 | lia |].
      apply (ahead_odd_pairs _ _ _ (Z.of_nat n)); [exact IH1 | lia | exact IH2].
Qed.

Lemma iter_length (n : nat) (band : list Z) :
  length (Nat.iter n (fun l => pairs Z.ltb (odd_pairs Z.ltb l)) band)
  = length band.
Proof.
  induction n as [|n IH]; [reflexivity|].
  rewrite Nat.iter_succ, pairs_length, odd_pairs_length. exact IH.
Qed.

Lemma iter_perm (n : nat) (band : list Z) :
  Nat.iter n (fun l => pairs Z.ltb (odd_pairs Z.ltb l)) band ≡ₚ band.
Proof.
  induction n as [|n IH]; [reflexivity|].
  rewrite Nat.iter_succ, pairs_perm, odd_pairs_perm. exact IH.
Qed.

Lemma bits_sorted (n : nat) (band : list Z) :
  bits band -> (length band <= n)%nat ->
  ascending (Nat.iter n (fun l => pairs Z.ltb (odd_pairs Z.ltb l)) band).
Proof.
  intros Hbits Hn. destruct (ahead_passes n band Hbits) as [H1 H2].
  apply (ahead_ascending _ (2 * Z.of_nat n) 0); auto; [lia|].
  rewrite iter_length. lia.
Qed.

(** The zero-one principle: a pass commutes with every monotone map. *)
Lemma pairs_monotone (f : Z -> Z) (band : list Z) :
  (forall x y, x <= y -> f x <= f y) ->
  f <$> pairs Z.ltb band = pairs Z.ltb (f <$> band).
Proof.
  intros Hf. induction band as [| a | a b l IH] using pair_ind; try reflexivity.
  cbn [pairs fmap list_fmap].
  change (list_fmap Z Z f l) with (f <$> l).
  change (list_fmap Z Z f (pairs Z.ltb l)) with (f <$> pairs Z.ltb l).
  destruct (Z.ltb_spec b a) as [Hba|Hba], (Z.ltb_spec (f b) (f a)) as [Hf'|Hf'];
    cbn [fmap list_fmap];
    change (list_fmap Z Z f (pairs Z.ltb l)) with (f <$> pairs Z.ltb l);
    rewrite IH; try reflexivity.
  - assert (f b = f a) as -> by (pose proof (Hf b a); lia). reflexivity.
  - pose proof (Hf a b). lia.
Qed.

Lemma odd_pairs_monotone (f : Z -> Z) (band : list Z) :
  (forall x y, x <= y -> f x <= f y) ->
  f <$> odd_pairs Z.ltb band = odd_pairs Z.ltb (f <$> band).
Proof.
  intros Hf. destruct band as [|a l]; [reflexivity|].
  cbn [odd_pairs fmap list_fmap]. f_equal. apply pairs_monotone, Hf.
Qed.

Lemma iter_monotone (f : Z -> Z) (n : nat) (band : list Z) :
  (forall x y, x <= y -> f x <= f y) ->
  f <$> Nat.iter n (fun l => pairs Z.ltb (odd_pairs Z.ltb l)) band
  = Nat.iter n (fun l => pairs Z.ltb (odd_pairs Z.ltb l)) (f <$> band).
Proof.
  intros Hf. induction n as [|n IH]; [reflexivity|].
  rewrite !Nat.iter_succ, pairs_monotone, odd_pairs_monotone, IH by exact Hf.
  reflexivity.
Qed.

Lemma threshold_monotone (v x y : Z) : x <= y -> threshold v x <= threshold v y.
Proof.
  unfold threshold. intros H.
  destruct (Z.leb_spec v x), (Z.leb_spec v y); lia.
Qed.

Lemma bits_threshold (v : Z) (band : list Z) : bits (threshold v <$> band).
Proof.
  apply Forall_fmap, Forall_forall. intros x _. unfold threshold. simpl.
  destruct (v <=? x); auto.
Qed.

Lemma ascending_threshold (band : list Z) :
  (forall v, ascending (threshold v <$> band)) -> ascending band.
Proof.
  intros H i a b Ha Hb.
  specialize (H a i (threshold a a) (threshold a b)).
  rewrite !list_lookup_fmap, Ha, Hb in H. specialize (H eq_refl eq_refl).
  unfold threshold in H.
  destruct (Z.leb_spec a a), (Z.leb_spec a b); lia.
Qed.

Lemma network_sorts (n : nat) (band : list Z) :
  (length band <= n)%nat ->
  ascending (Nat.iter n (fun l => pairs Z.ltb (odd_pairs Z.ltb l)) band).
Proof.
  intros Hn. apply ascending_threshold. intros v.
  rewrite iter_monotone by apply threshold_monotone.
  apply bits_sorted; [apply bits_threshold | rewrite length_fmap; exact Hn].
Qed.

(** The passes of the program are the passes on lists. *)
Lemma odd_even_pass_whole (row : list Z) :
  odd_even_pass row 0 (Z.of_nat (length row))
  = Done (pairs Z.ltb (odd_pairs Z.ltb row)).
Proof.
  unfold odd_even_pass, Oetsort.osort, Oetsort.esort.
  rewrite pair_pass_odd_whole. simpl.
  rewrite <- (odd_pairs_length Z.ltb row). apply pair_pass_even_whole.
Qed.

Lemma odd_even_passes_whole (n : nat) (row : list Z) :
  odd_even_passes n row 0 (Z.of_nat (length row))
  = Done (Nat.iter n (fun l => pairs Z.ltb (odd_pairs Z.ltb l)) row).
Proof.
  revert row. induction n as [|n IH]; intros row; [reflexivity|].
  cbn [odd_even_passes]. rewrite odd_even_pass_whole. cbn [bind].
  rewrite <- (odd_pairs_length Z.ltb row), <- (pairs_length Z.ltb), IH.
  rewrite Nat.iter_succ_r. reflexivity.
Qed.

(** C2.  On every band of [L] integers, [n] full odd-even passes ([osort],
    then [esort]) with [n >= L] run to their end and leave the band in
    ascending order; what they leave is a permutation of the band. *)
Theorem odd_even_passes_sort (row : list Z) (n : nat) :
  (length row <= n)%nat ->
  exists out,
    odd_even_passes n row 0 (Z.of_nat (length row)) = Done out /\
    ascending out /\ out ≡ₚ row.
Proof.
  intros Hn. eexists. split; [apply odd_even_passes_whole|].
  split; [apply network_sorts, Hn | apply iter_perm].
Qed.

Lemma odd_even_passes_sort_witness :
  exists out,
    odd_even_passes 5 [5; 3; 1; 4; 2] 0 5 = Done out /\
    ascending out /\ out ≡ₚ [5; 3; 1; 4; 2].
Proof. apply (odd_even_passes_sort [5; 3; 1; 4; 2] 5). simpl. lia. Defined.

(** ** The exchange sort of [shearsort.c] *)

Lemma shear_exchange_app swap_if (pre : list Z) (lo hi : Z) (post : list Z)
    (row j : Z) :
  row + (j - 1) = Z.of_nat (length pre) ->
  Shearsort.exchange swap_if (pre ++ lo :: hi :: post) row j =
  Done (pre ++ insert_front swap_if lo (hi :: post)).
Proof.
  intros Hj. unfold Shearsort.exchange.
  assert (Hhi : forall x y, load (pre ++ x :: y :: post) (row + j) = Done y).
  { intros x y. change (pre ++ x :: y :: post) with (pre ++ [x] ++ y :: post).
    rewrite app_assoc. apply load_app. rewrite length_app. simpl. lia. }
  rewrite Hhi, (load_app pre) by lia. simpl.
  destruct (swap_if lo hi); [|reflexivity].
  rewrite (store_app pre) by lia. simpl.
  change (pre ++ hi :: hi :: post) with (pre ++ [hi] ++ hi :: post).
  rewrite app_assoc, (store_app (pre ++ [hi])) by (rewrite length_app; simpl; lia).
  rewrite <- app_assoc. reflexivity.
Qed.

(** The inner loop, when the cell below the band belongs to the memory:
    [front] is that cell and the cells of the band not yet visited. *)
Lemma inner_loop_spec swap_if (row : Z) (pre post : list Z) (front : list Z) :
  forall (done : list Z) (j : Z) (fuel : nat),
    done <> [] ->
    row - 1 = Z.of_nat (length pre) ->
    Z.of_nat (length front) = j + 1 ->
    (length front < fuel)%nat ->
    while fuel (fun '(j, _) => j >=? 0)
      (fun '(j, m) => m' <- Shearsort.exchange swap_if m row j ;; Done (j - 1, m'))
      (j, pre ++ front ++ done ++ post) =
    Done (-1, pre ++ foldr (insert_front swap_if) done front ++ post).
Proof.
  induction front as [|x front IH] using rev_ind;
    intros done j fuel Hdone Hrow Hj Hfuel;
    (destruct fuel as [|fuel]; [simpl in Hfuel; lia|]).
  - simpl in *. assert (j = -1) as -> by lia. reflexivity.
  - rewrite length_app in Hj, Hfuel. simpl in Hj, Hfuel.
    cbn [while]. destruct (Z.geb_spec j 0) as [_|?]; [|lia].
    destruct done as [|y done]; [congruence|].
    replace (pre ++ (front ++ [x]) ++ (y :: done) ++ post)
      with ((pre ++ front) ++ x :: y :: done ++ post)
      by (rewrite <- !app_assoc; reflexivity).
    rewrite shear_exchange_app by (rewrite length_app; lia).
    cbn [bind]. rewrite foldr_app. cbn [foldr].
    specialize (IH (insert_front swap_if x (y :: done)) (j - 1) fuel).
    rewrite <- IH; [| | lia | lia | lia].
    + f_equal. f_equal. rewrite <- !app_assoc. f_equal. f_equal.
      simpl. destruct (swap_if x y); reflexivity.
    + simpl. destruct (swap_if x y); discriminate.
Qed.

(** The inner loop, when the band starts the object: the loop reaches
    [j = 0] and reads [row[-1]]. *)
Lemma inner_loop_fault swap_if (post : list Z) (front : list Z) :
  forall (done : list Z) (fuel : nat),
    done <> [] ->
    (length front < fuel)%nat ->
    while fuel (fun '(j, _) => j >=? 0)
      (fun '(j, m) => m' <- Shearsort.exchange swap_if m 0 j ;; Done (j - 1, m'))
      (Z.of_nat (length front), front ++ done ++ post) =
    OutOfBounds (-1).
Proof.
  induction front as [|x front IH] using rev_ind; intros done fuel Hdone Hfuel;
    (destruct fuel as [|fuel]; [simpl in Hfuel; lia|]).
  - reflexivity.
  - rewrite length_app in *. simpl in Hfuel.
    cbn [while].
    destruct (Z.geb_spec (Z.of_nat (length front + length [x])) 0) as [_|?]; [|lia].
    destruct done as [|y done]; [congruence|].
    replace ((front ++ [x]) ++ (y :: done) ++ post)
      with (front ++ x :: y :: done ++ post)
      by (rewrite <- !app_assoc; reflexivity).
    rewrite shear_exchange_app by (simpl; lia).
    cbn [bind].
    replace (Z.of_nat (length front + length [x]) - 1)
      with (Z.of_nat (length front)) by (simpl; lia).
    specialize (IH (insert_front swap_if x (y :: done)) fuel).
    rewrite <- IH; [| | lia].
    + f_equal. f_equal. simpl. destruct (swap_if x y); reflexivity.
    + simpl. destruct (swap_if x y); discriminate.
Qed.

Lemma exchange_sort_fault swap_if (row : list Z) :
  (1 <= length row)%nat ->
  Shearsort.exchange_sort swap_if row 0 (Z.of_nat (length row)) = OutOfBounds (-1).
Proof.
  intros Hlen. unfold Shearsort.exchange_sort.
  destruct row as [|x row _] using rev_ind; [simpl in Hlen; lia|].
  rewrite while_step.
  destruct (Z.ltb_spec 0 (Z.of_nat (length (row ++ [x])))) as [_|H];
    [|rewrite length_app in H; simpl in H; lia].
  replace (Z.of_nat (length (row ++ [x])) - 1) with (Z.of_nat (length row))
    by (rewrite length_app; simpl; lia).
  pose proof (inner_loop_fault swap_if [] row [x]
                (S (Z.to_nat (Z.of_nat (length (row ++ [x])))))) as H.
  rewrite app_nil_r in H. rewrite H; [reflexivity | discriminate |].
  rewrite length_app. simpl. lia.
Qed.

(** The band starts the object and the object may be longer than the
    band: the first inner loop reaches [j = 0] and reads [row[-1]]. *)
Lemma exchange_sort_fault_in_front swap_if (mem : list Z) (len : Z) :
  1 <= len <= Z.of_nat (length mem) ->
  Shearsort.exchange_sort swap_if mem 0 len = OutOfBounds (-1).
Proof.
  intros Hlen. unfold Shearsort.exchange_sort.
  rewrite while_step. destruct (Z.ltb_spec 0 len) as [_|]; [|lia].
  rewrite <- (take_drop (Z.to_nat len) mem).
  assert (length (take (Z.to_nat len) mem) = Z.to_nat len) as Htake
      by (rewrite length_take; lia).
  destruct (take (Z.to_nat len) mem) as [|x front _] using rev_ind;
    [simpl in Htake; lia|].
  rewrite length_app in Htake. simpl in Htake.
  replace (len - 1) with (Z.of_nat (length front)) by lia.
  rewrite <- app_assoc.
  rewrite (inner_loop_fault swap_if (drop (Z.to_nat len) mem) front [x]);
    [reflexivity | discriminate | lia].
Qed.

(** C5.  On every band of length at least 1 that is an object of its own,
    the inner loops of [sort] and of [rsort] reach [j = 0] and read
    [row[j-1]], the cell of index -1: both routines end with the access out
    of bounds. *)
Theorem sort_reads_below_the_band (row : list Z) :
  (1 <= length row)%nat ->
  Shearsort.sort row 0 (Z.of_nat (length row)) = OutOfBounds (-1) /\
  Shearsort.rsort row 0 (Z.of_nat (length row)) = OutOfBounds (-1).
Proof.
  intros Hlen. split; apply exchange_sort_fault, Hlen.
Qed.

Lemma sort_reads_below_the_band_witness :
  Shearsort.sort [7] 0 1 = OutOfBounds (-1) /\
  Shearsort.rsort [7] 0 1 = OutOfBounds (-1).
Proof. apply (sort_reads_below_the_band [7]). simpl. lia. Defined.

(** Every rank of the shear sort holds its band in an object of its own
    ([numbers], or [matrix] for the row of the master): with checked
    accesses each of its sorting steps ends at the read of [row[-1]]. *)
Lemma shear_steps_read_below (PROCESS_ID : Z) (row : list Z) :
  (1 <= length row)%nat ->
  Shearsort.worker_row PROCESS_ID row 0 (Z.of_nat (length row))
  = OutOfBounds (-1) /\
  Shearsort.worker_column row 0 (Z.of_nat (length row)) = OutOfBounds (-1) /\
  Shearsort.worker_last_row PROCESS_ID row 0 (Z.of_nat (length row))
  = OutOfBounds (-1).
Proof.
  intros Hlen.
  unfold Shearsort.worker_row, Shearsort.worker_column,
    Shearsort.worker_last_row, Shearsort.sort, Shearsort.rsort.
  destruct (Z.rem PROCESS_ID 2 =? 0);
    repeat split; apply exchange_sort_fault, Hlen.
Qed.

Lemma insert_front_length swap_if (x : Z) (band : list Z) :
  length (insert_front swap_if x band) = S (length band).
Proof. destruct band as [|y l]; simpl; [|destruct (swap_if x y)]; reflexivity. Qed.

Lemma insert_front_perm swap_if (x : Z) (band : list Z) :
  insert_front swap_if x band ≡ₚ x :: band.
Proof.
  destruct band as [|y l]; simpl; [reflexivity|].
  destruct (swap_if x y); [apply perm_swap | reflexivity].
Qed.

Lemma bubble_length swap_if (band : list Z) :
  length (bubble swap_if band) = length band.
Proof.
  induction band as [|x l IH]; [reflexivity|].
  unfold bubble in *. simpl. rewrite insert_front_length, IH. reflexivity.
Qed.

Lemma bubble_perm swap_if (band : list Z) : bubble swap_if band ≡ₚ band.
Proof.
  induction band as [|x l IH]; [reflexivity|].
  unfold bubble in *. simpl. rewrite insert_front_perm, IH. reflexivity.
Qed.

Lemma iter_bubble_length swap_if (k : nat) (band : list Z) :
  length (Nat.iter k (bubble swap_if) band) = length band.
Proof.
  induction k as [|k IH]; [reflexivity|].
  rewrite Nat.iter_succ, bubble_length. exact IH.
Qed.

Lemma iter_bubble_perm swap_if (k : nat) (band : list Z) :
  Nat.iter k (bubble swap_if) band ≡ₚ band.
Proof.
  induction k as [|k IH]; [reflexivity|].
  rewrite Nat.iter_succ, bubble_perm. exact IH.
Qed.

(** The outer loop, when the cell below the band belongs to the memory:
    [ext] is that cell followed by the band. *)
Lemma outer_loop_spec swap_if (row len : Z) (pre post : list Z) (k : nat) :
  forall (ext : list Z) (i : Z) (fuel : nat),
    row - 1 = Z.of_nat (length pre) ->
    Z.of_nat (length ext) = len + 1 ->
    0 <= i -> i + Z.of_nat k = len -> (k < fuel)%nat ->
    while fuel (fun '(i, _) => i <? len)
      (fun '(i, m) =>
         t <- while (S (Z.to_nat len))
                (fun '(j, _) => j >=? 0)
                (fun '(j, m) =>
                   m' <- Shearsort.exchange swap_if m row j ;; Done (j - 1, m'))
                (len - 1, m) ;;
         Done (i + 1, snd t))
      (i, pre ++ ext ++ post) =
    Done (len, pre ++ Nat.iter k (bubble swap_if) ext ++ post).
Proof.
  induction k as [|k IH]; intros ext i fuel Hrow Hext Hi Hk Hfuel;
    (destruct fuel as [|fuel]; [lia|]); rewrite while_step.
  - destruct (Z.ltb_spec i len); [lia|]. simpl. repeat f_equal. lia.
  - destruct (Z.ltb_spec i len); [|lia].
    destruct ext as [|z front _] using rev_ind; [simpl in Hext; lia|].
    rewrite length_app in Hext. simpl in Hext.
    pose proof (inner_loop_spec swap_if row pre post front [z] (len - 1)
                  (S (Z.to_nat len))) as Hin.
    rewrite <- !app_assoc in *.
    rewrite Hin by (try discriminate; lia).
    cbn [bind snd].
    replace (foldr (insert_front swap_if) [z] front)
      with (bubble swap_if (front ++ [z]))
      by (unfold bubble; rewrite foldr_app; reflexivity).
    rewrite IH; [| exact Hrow | | lia | lia | lia].
    + rewrite Nat.iter_succ_r. reflexivity.
    + rewrite bubble_length, length_app. simpl. lia.
Qed.

Lemma exchange_sort_spec swap_if (pre ext post : list Z) (row len : Z) :
  row - 1 = Z.of_nat (length pre) ->
  Z.of_nat (length ext) = len + 1 -> 0 <= len ->
  Shearsort.exchange_sort swap_if (pre ++ ext ++ post) row len =
  Done (pre ++ Nat.iter (Z.to_nat len) (bubble swap_if) ext ++ post).
Proof.
  intros Hrow Hext Hlen. unfold Shearsort.exchange_sort.
  rewrite (outer_loop_spec swap_if row len pre post (Z.to_nat len)); auto; lia.
Qed.

(** *** Repeated inner loops sort

    [swap_if x y = false] is read as "[x] may stand before [y]".  For both
    routines this is a total preorder. *)
Section Bubble.

Variable swap_if : Z -> Z -> bool.
Hypothesis swap_total : forall x y, swap_if x y = true -> swap_if y x = false.
Hypothesis swap_trans :
  forall x y z, swap_if x y = false -> swap_if y z = false -> swap_if x z = false.

Lemma bubble_head (band : list Z) :
  band <> [] ->
  exists h t, bubble swap_if band = h :: t /\ Forall (before swap_if h) t.
Proof.
  induction band as [|x l IH]; [congruence|]. intros _.
  unfold bubble in *. simpl.
  destruct l as [|y l]; [exists x, []; split; [reflexivity | constructor]|].
  destruct IH as (h & t & -> & Ht); [discriminate|].
  simpl. destruct (swap_if x h) eqn:Hxh.
  - exists h, (x :: t). split; [reflexivity|].
    constructor; [apply swap_total, Hxh | exact Ht].
  - exists x, (h :: t). split; [reflexivity|].
    constructor; [exact Hxh|].
    eapply Forall_impl; [|exact Ht]. intros z Hz. eapply swap_trans; eauto.
Qed.

Lemma bubble_low (h : Z) (t : list Z) :
  Forall (before swap_if h) t -> bubble swap_if (h :: t) = h :: bubble swap_if t.
Proof.
  intros Ht. change (bubble swap_if (h :: t))
    with (insert_front swap_if h (bubble swap_if t)).
  destruct (bubble swap_if t) as [|y l] eqn:Hb; [reflexivity|].
  assert (Hy : before swap_if h y).
  { rewrite <- (bubble_perm swap_if t), Hb in Ht. inversion Ht; auto. }
  simpl. unfold before in Hy. rewrite Hy. reflexivity.
Qed.

Lemma iter_bubble_low (k : nat) (h : Z) (t : list Z) :
  Forall (before swap_if h) t ->
  Nat.iter k (bubble swap_if) (h :: t) = h :: Nat.iter k (bubble swap_if) t.
Proof.
  intros Ht. induction k as [|k IH]; [reflexivity|].
  rewrite !Nat.iter_succ, IH. apply bubble_low.
  rewrite iter_bubble_perm. exact Ht.
Qed.

Lemma ordered_cons (h : Z) (t : list Z) :
  Forall (before swap_if h) t -> ordered swap_if t -> ordered swap_if (h :: t).
Proof.
  intros Hh Ht [|i] a b Ha Hb; simpl in *.
  - injection Ha as ->. rewrite Forall_lookup in Hh. eauto.
  - eapply Ht; eauto.
Qed.

Lemma iter_bubble_ordered (k : nat) :
  forall band, (length band <= S k)%nat ->
    ordered swap_if (Nat.iter k (bubble swap_if) band).
Proof.
  induction k as [|k IH]; intros band Hlen.
  - simpl. intros [|i] a b Ha Hb.
    + destruct band as [|? [|? ?]]; simpl in *; try discriminate; lia.
    + destruct band as [|? [|? ?]]; simpl in *; try discriminate; lia.
  - rewrite Nat.iter_succ_r.
    destruct band as [|x l]; [intros i a b Ha; clear -Ha; exfalso|].
    { assert (Nat.iter k (bubble swap_if) (bubble swap_if []) = []) as Hnil.
      { apply length_zero_iff_nil. rewrite iter_bubble_length. reflexivity. }
      rewrite Hnil in Ha. discriminate. }
    destruct (bubble_head (x :: l)) as (h & t & Hb & Ht); [discriminate|].
    rewrite Hb, iter_bubble_low by exact Ht.
    apply ordered_cons.
    + rewrite iter_bubble_perm. exact Ht.
    + apply IH.
      assert (length (h :: t) = length (x :: l)) as Hl
          by (rewrite <- Hb; apply bubble_length).
      simpl in *. lia.
Qed.

End Bubble.

Lemma ordered_tail swap_if (x : Z) (band : list Z) :
  ordered swap_if (x :: band) -> ordered swap_if band.
Proof. intros H i a b Ha Hb. apply (H (S i) a b); assumption. Qed.

Lemma band_at_frame (pre ext post : list Z) (row len : Z) :
  row - 1 = Z.of_nat (length pre) ->
  Z.of_nat (length ext) = len + 1 -> 0 <= len ->
  band_at (pre ++ ext ++ post) row len = drop 1 ext.
Proof.
  intros Hrow Hext Hlen. unfold band_at.
  replace (Z.to_nat row) with (length pre + 1)%nat by lia.
  rewrite <- drop_drop, drop_app_length.
  rewrite drop_app_le by lia.
  rewrite take_app_le by (rewrite length_drop; lia).
  apply take_ge. rewrite length_drop. lia.
Qed.

(** Where the cell below the band belongs to the memory, the routine runs
    to its end, and leaves the band ordered; it has sorted that cell
    together with the band. *)
Lemma exchange_sort_in_memory swap_if (mem : list Z) (row len : Z) :
  (forall x y, swap_if x y = true -> swap_if y x = false) ->
  (forall x y z, swap_if x y = false -> swap_if y z = false -> swap_if x z = false) ->
  1 <= row -> 0 <= len -> row + len <= Z.of_nat (length mem) ->
  exists mem',
    Shearsort.exchange_sort swap_if mem row len = Done mem' /\
    ordered swap_if (band_at mem' row len) /\
    mem' ≡ₚ mem.
Proof.
  intros Htotal Htrans Hrow Hlen Hmem.
  destruct (band_frame mem (row - 1) (len + 1)) as (Hsplit & Hpre & Hext);
    [lia | lia | lia |].
  set (pre := take (Z.to_nat (row - 1)) mem) in *.
  set (ext := band_at mem (row - 1) (len + 1)) in *.
  set (post := drop (Z.to_nat (row - 1 + (len + 1))) mem) in *.
  exists (pre ++ Nat.iter (Z.to_nat len) (bubble swap_if) ext ++ post).
  split; [|split].
  - rewrite Hsplit at 1. apply exchange_sort_spec; lia.
  - rewrite band_at_frame by (rewrite ?iter_bubble_length; lia).
    pose proof (iter_bubble_ordered swap_if Htotal Htrans (Z.to_nat len) ext) as H.
    destruct (Nat.iter (Z.to_nat len) (bubble swap_if) ext) as [|x l].
    + intros i a b Ha. rewrite drop_nil, lookup_nil in Ha. discriminate.
    + simpl. rewrite drop_0. apply (ordered_tail swap_if x), H. lia.
  - rewrite Hsplit at 1. rewrite iter_bubble_perm. reflexivity.
Qed.

Lemma sort_in_memory (mem : list Z) (row len : Z) :
  1 <= row -> 0 <= len -> row + len <= Z.of_nat (length mem) ->
  exists mem',
    Shearsort.sort mem row len = Done mem' /\
    ascending (band_at mem' row len) /\ mem' ≡ₚ mem.
Proof.
  intros Hrow Hlen Hmem.
  destruct (exchange_sort_in_memory Z.gtb mem row len)
    as (mem' & Hrun & Hord & Hperm); try assumption.
  - intros x y. rewrite !Z.gtb_ltb, !Z.ltb_lt, Z.ltb_ge. lia.
  - intros x y z. rewrite !Z.gtb_ltb, !Z.ltb_ge. lia.
  - exists mem'. split; [exact Hrun | split; [|exact Hperm]].
    intros i a b Ha Hb. specialize (Hord i a b Ha Hb).
    unfold before in Hord. rewrite Z.gtb_ltb, Z.ltb_ge in Hord. exact Hord.
Qed.

Lemma rsort_in_memory (mem : list Z) (row len : Z) :
  1 <= row -> 0 <= len -> row + len <= Z.of_nat (length mem) ->
  exists mem',
    Shearsort.rsort mem row len = Done mem' /\
    descending (band_at mem' row len) /\ mem' ≡ₚ mem.
Proof.
  intros Hrow Hlen Hmem.
  destruct (exchange_sort_in_memory Z.ltb mem row len)
    as (mem' & Hrun & Hord & Hperm); try assumption.
  - intros x y. rewrite Z.ltb_lt, Z.ltb_ge. lia.
  - intros x y z. rewrite !Z.ltb_ge. lia.
  - exists mem'. split; [exact Hrun | split; [|exact Hperm]].
    intros i a b Ha Hb. specialize (Hord i a b Ha Hb).
    unfold before in Hord. rewrite Z.ltb_ge in Hord. exact Hord.
Qed.

(** C4, at the band of the specification.  [sort] on the band
    [5, 3, 1, 4, 2] reads [row[-1]] and returns no band.  Where the cell
    below the band is part of the memory, here with the value 10, that
    cell is sorted together with the band: the band comes back as
    [2, 3, 4, 5, 10], without its smallest element. *)
Theorem sort_leaves_the_band :
  Shearsort.sort [5; 3; 1; 4; 2] 0 5 = OutOfBounds (-1) /\
  Shearsort.sort [10; 5; 3; 1; 4; 2] 1 5 = Done [1; 2; 3; 4; 5; 10].
Proof. split; reflexivity. Qed.

(** C3, at the call sites.  In every row phase the rows are put in order by
    [sort] and [rsort], and the band a rank passes to them starts its
    object: the buffer [numbers] of a worker, [&matrix[0][0]] for the
    master.  So for every rank and every row of at least one cell, each
    sorting step of a row phase (the step of a worker in a super-step,
    the step of the master, the step of a worker in the row phase after
    the super-steps) ends with the read of the cell below the row, and no
    row comes back in order.  Where the cell below the row can be
    addressed the step orders that cell together with the row: with a 0
    below the row [5, 3, 1, 4, 2] the worker of rank 1 returns the row
    [4, 3, 2, 1, 0], which has lost the 5.  In the row phase after the
    super-steps a worker calls [sort] whatever its rank: with a 0 below
    the row [2, 1] the worker of rank 1 returns the row [1, 2]. *)
Theorem shear_row_steps_read_below_the_row (PROCESS_ID : Z)
    (row rows : list Z) :
  (1 <= length row)%nat ->
  Shearsort.worker_row PROCESS_ID row 0 (Z.of_nat (length row))
  = OutOfBounds (-1) /\
  Shearsort.master_row (row ++ rows) 0 (Z.of_nat (length row))
  = OutOfBounds (-1) /\
  Shearsort.worker_last_row PROCESS_ID row 0 (Z.of_nat (length row))
  = OutOfBounds (-1) /\
  Shearsort.worker_row 1 [0; 5; 3; 1; 4; 2] 1 5 = Done [5; 4; 3; 2; 1; 0] /\
  Shearsort.worker_last_row 1 [0; 2; 1] 1 2 = Done [0; 1; 2].
Proof.
  intros Hlen.
  destruct (shear_steps_read_below PROCESS_ID row Hlen) as (Hrow & _ & Hlast).
  split; [exact Hrow|]. split; [|split; [exact Hlast | split; reflexivity]].
  unfold Shearsort.master_row, Shearsort.sort.
  replace (0 + 0 * Z.of_nat (length row) + 0) with 0 by lia.
  apply exchange_sort_fault_in_front. rewrite length_app. lia.
Qed.

Lemma shear_row_steps_read_below_the_row_witness :
  Shearsort.worker_row 1 [2; 4] 0 (Z.of_nat (length [2; 4]))
  = OutOfBounds (-1) /\
  Shearsort.master_row ([2; 4] ++ [3; 1]) 0 (Z.of_nat (length [2; 4]))
  = OutOfBounds (-1) /\
  Shearsort.worker_last_row 1 [2; 4] 0 (Z.of_nat (length [2; 4]))
  = OutOfBounds (-1) /\
  Shearsort.worker_row 1 [0; 5; 3; 1; 4; 2] 1 5 = Done [5; 4; 3; 2; 1; 0] /\
  Shearsort.worker_last_row 1 [0; 2; 1] 1 2 = Done [0; 1; 2].
Proof.
  apply (shear_row_steps_read_below_the_row 1 [2; 4] [3; 1]). simpl. lia.
Defined.

(** ** The convergence check decides the snake order *)

Lemma cell_in_bounds (matrix : list Z) (D r c : Z) :
  Z.of_nat (length matrix) = D * D -> 0 <= r < D -> 0 <= c < D ->
  exists v, cell matrix D r c = Done v.
Proof. intros Hlen Hr Hc. apply load_in_bounds. nia. Qed.

Lemma compare_diagonal_spec (matrix : list Z) (D r c : Z) (is_sorted : bool) :
  Z.of_nat (length matrix) = D * D -> 0 <= r -> r + 1 < D -> 0 <= c -> c + 1 < D ->
  exists s, compare_diagonal matrix D r c is_sorted = Done s /\
    (s = true <-> is_sorted = true /\ pair_ok matrix D r c).
Proof.
  intros Hlen Hr Hr' Hc Hc'. unfold compare_diagonal, pair_ok.
  destruct (cell_in_bounds matrix D r c) as [a Ha]; [assumption | lia | lia |].
  destruct (cell_in_bounds matrix D (r + 1) (c + 1)) as [b Hb];
    [assumption | lia | lia |].
  rewrite Ha, Hb. simpl. eexists. split; [reflexivity|].
  destruct (Z.gtb_spec a b) as [Hab|Hab].
  - split; [discriminate|]. intros [_ H]. specialize (H a b eq_refl eq_refl). lia.
  - split; [intros ->; split; [reflexivity|] | tauto].
    intros a' b' [= <-] [= <-]. exact Hab.
Qed.

(** One diagonal, walked from [(r0, c0)] until the row ([by_row = true]) or
    the column ([by_row = false]) reaches the last one. *)
Lemma walk_spec (matrix : list Z) (D : Z) (by_row : bool)
    (cond : Z * Z * bool -> bool) (r0 c0 : Z) (is_sorted : bool) (fuel : nat) :
  Z.of_nat (length matrix) = D * D ->
  (forall cr cc s,
     cond (cr, cc, s) = ((if by_row then cr else cc) <? D - 1) && s) ->
  0 <= r0 -> 0 <= c0 -> (if by_row then c0 <= r0 else r0 <= c0) ->
  (Z.to_nat D < fuel)%nat ->
  exists t,
    while fuel cond
      (fun '(current_row, current_column, is_sorted) =>
         is_sorted' <- compare_diagonal matrix D current_row current_column
                         is_sorted ;;
         Done (current_row + 1, current_column + 1, is_sorted'))
      (r0, c0, is_sorted) = Done t /\
    (snd t = true <->
     is_sorted = true /\
     forall k, 0 <= k -> r0 + k + 1 < D -> c0 + k + 1 < D ->
       pair_ok matrix D (r0 + k) (c0 + k)).
Proof.
  intros Hlen Hcond Hr0 Hc0 Hord Hfuel.
  destruct (while_invariant
    (fun '(cr, cc, s) =>
       exists n, 0 <= n /\ cr = r0 + n /\ cc = c0 + n /\
         (n = 0 \/ (r0 + n < D /\ c0 + n < D)) /\
         (s = true <-> is_sorted = true /\
            forall k, 0 <= k < n -> pair_ok matrix D (r0 + k) (c0 + k)))
    (fun '(cr, cc, _) => Z.to_nat (D - 1 - (if by_row then cr else cc)))
    cond
    (fun '(current_row, current_column, is_sorted) =>
       is_sorted' <- compare_diagonal matrix D current_row current_column
                       is_sorted ;;
       Done (current_row + 1, current_column + 1, is_sorted'))) with
    (fuel := fuel) (s := (r0, c0, is_sorted)) as (t & Hrun & Hinv & Hexit).
  - intros [[cr cc] s] (n & Hn & -> & -> & Hbound & Hs) Hc.
    rewrite Hcond in Hc. apply andb_prop in Hc as [Hlt ->].
    apply Z.ltb_lt in Hlt.
    destruct (compare_diagonal_spec matrix D (r0 + n) (c0 + n) true)
      as (s' & -> & Hs'); [assumption | destruct by_row; lia ..|].
    eexists. split; [reflexivity|]. split.
    + exists (n + 1). split; [lia|]. split; [lia|]. split; [lia|].
      split; [right; destruct by_row; lia|].
      rewrite Hs'. split.
      * intros [_ Hok]. destruct Hs as [Hs _]. destruct (Hs eq_refl) as [H0 Hall].
        split; [exact H0|]. intros k Hk.
        destruct (Z.eq_dec k n) as [->|]; [exact Hok | apply Hall; lia].
      * intros [H0 Hall]. split; [reflexivity | apply Hall; lia].
    + destruct by_row; lia.
  - exists 0. split; [lia|]. split; [lia|]. split; [lia|].
    split; [left; reflexivity|].
    split; [intros H; split; [exact H|]; intros k Hk; lia | tauto].
  - destruct by_row; lia.
  - exists t. split; [exact Hrun|].
    destruct t as [[cr cc] s]. destruct Hinv as (n & Hn & -> & -> & Hbound & Hs).
    rewrite Hcond in Hexit. simpl. split.
    + intros ->. destruct Hs as [Hs _]. destruct (Hs eq_refl) as [H0 Hall].
      split; [exact H0|]. intros k Hk Hr Hc. apply Hall.
      rewrite andb_true_r in Hexit. apply Z.ltb_ge in Hexit.
      destruct by_row; lia.
    + intros [H0 Hall]. apply Hs. split; [exact H0|]. intros k Hk.
      apply Hall; lia.
Qed.

Lemma check_below_spec (matrix : list Z) (D : Z) (is_sorted : bool) :
  Z.of_nat (length matrix) = D * D ->
  exists s, check_below matrix D is_sorted = Done s /\
    (s = true <->
     is_sorted = true /\
     forall i k, 0 <= i -> 0 <= k -> i + k + 1 < D -> pair_ok matrix D (i + k) k).
Proof.
  intros Hlen. unfold check_below.
  destruct (while_invariant
    (fun '(i, s) =>
       0 <= i /\
       (s = true <-> is_sorted = true /\
          forall i' k, 0 <= i' < i -> 0 <= k -> i' + k + 1 < D ->
            pair_ok matrix D (i' + k) k))
    (fun '(i, _) => Z.to_nat (D - 1 - i))
    (fun '(i, is_sorted) => (i <? D - 1) && is_sorted)
    (fun '(i, is_sorted) =>
       t <- while (S (Z.to_nat D))
              (fun '(current_row, _, is_sorted) =>
                 (current_row <? D - 1) && is_sorted)
              (fun '(current_row, current_column, is_sorted) =>
                 is_sorted' <- compare_diagonal matrix D
                                 current_row current_column is_sorted ;;
                 Done (current_row + 1, current_column + 1, is_sorted'))
              (i, 0, is_sorted) ;;
       Done (i + 1, snd t))) with
    (fuel := S (Z.to_nat D)) (s := (0, is_sorted)) as (t & -> & Hinv & Hexit).
  - intros [i s] [Hi Hs] Hc. apply andb_prop in Hc as [Hlt ->].
    apply Z.ltb_lt in Hlt.
    destruct (walk_spec matrix D true
                (fun '(current_row, _, is_sorted) =>
                   (current_row <? D - 1) && is_sorted)
                i 0 true (S (Z.to_nat D))) as (t & -> & Ht);
      [assumption | reflexivity | lia | lia | lia | lia |].
    eexists. split; [reflexivity|]. split; [|lia]. split; [lia|].
    simpl. rewrite Ht. destruct Hs as [Hs _]. destruct (Hs eq_refl) as [H0 Hall].
    split.
    + intros [_ Hnew]. split; [exact H0|]. intros i' k Hi' Hk Hin.
      destruct (Z.eq_dec i' i) as [->|]; [apply (Hnew k); lia | apply Hall; lia].
    + intros [_ Hnew]. split; [reflexivity|]. intros k Hk Hr Hc.
      apply (Hnew i k); lia.
  - split; [lia|]. split; [intros H; split; [exact H|]; intros; lia | tauto].
  - lia.
  - destruct t as [i s]. destruct Hinv as [Hi Hs]. simpl.
    eexists. split; [reflexivity|]. split.
    + intros ->. destruct Hs as [Hs _]. destruct (Hs eq_refl) as [H0 Hall].
      split; [exact H0|]. intros i' k Hi' Hk Hin. apply Hall; try lia.
    + intros [H0 Hall]. apply Hs. split; [exact H0|]. intros i' k Hi'.
      apply Hall; lia.
Qed.

Lemma check_above_spec (matrix : list Z) (D : Z) (is_sorted : bool) :
  Z.of_nat (length matrix) = D * D ->
  exists s, check_above matrix D is_sorted = Done s /\
    (s = true <->
     is_sorted = true /\
     forall j k, 0 <= j -> 0 <= k -> j + k + 1 < D -> pair_ok matrix D k (j + k)).
Proof.
  intros Hlen. unfold check_above.
  destruct (while_invariant
    (fun '(j, s) =>
       0 <= j /\
       (s = true <-> is_sorted = true /\
          forall j' k, 0 <= j' < j -> 0 <= k -> j' + k + 1 < D ->
            pair_ok matrix D k (j' + k)))
    (fun '(j, _) => Z.to_nat (D - 1 - j))
    (fun '(j, is_sorted) => (j <? D - 1) && is_sorted)
    (fun '(j, is_sorted) =>
       t <- while (S (Z.to_nat D))
              (fun '(_, current_column, is_sorted) =>
                 (current_column <? D - 1) && is_sorted)
              (fun '(current_row, current_column, is_sorted) =>
                 is_sorted' <- compare_diagonal matrix D
                                 current_row current_column is_sorted ;;
                 Done (current_row + 1, current_column + 1, is_sorted'))
              (0, j, is_sorted) ;;
       Done (j + 1, snd t))) with
    (fuel := S (Z.to_nat D)) (s := (0, is_sorted)) as (t & -> & Hinv & Hexit).
  - intros [j s] [Hj Hs] Hc. apply andb_prop in Hc as [Hlt ->].
    apply Z.ltb_lt in Hlt.
    destruct (walk_spec matrix D false
                (fun '(_, current_column, is_sorted) =>
                   (current_column <? D - 1) && is_sorted)
                0 j true (S (Z.to_nat D))) as (t & -> & Ht);
      [assumption | reflexivity | lia | lia | lia | lia |].
    eexists. split; [reflexivity|]. split; [|lia]. split; [lia|].
    simpl. rewrite Ht. destruct Hs as [Hs _]. destruct (Hs eq_refl) as [H0 Hall].
    split.
    + intros [_ Hnew]. split; [exact H0|]. intros j' k Hj' Hk Hin.
      destruct (Z.eq_dec j' j) as [->|]; [apply (Hnew k); lia | apply Hall; lia].
    + intros [_ Hnew]. split; [reflexivity|]. intros k Hk Hr Hc.
      apply (Hnew j k); lia.
  - split; [lia|]. split; [intros H; split; [exact H|]; intros; lia | tauto].
  - lia.
  - destruct t as [j s]. destruct Hinv as [Hj Hs]. simpl.
    eexists. split; [reflexivity|]. split.
    + intros ->. destruct Hs as [Hs _]. destruct (Hs eq_refl) as [H0 Hall].
      split; [exact H0|]. intros j' k Hj' Hk Hin. apply Hall; try lia.
    + intros [H0 Hall]. apply Hs. split; [exact H0|]. intros j' k Hj'.
      apply Hall; lia.
Qed.

Lemma snake_order_pairs (matrix : list Z) (D : Z) :
  snake_order matrix D <->
  forall r c, 0 <= r -> r + 1 < D -> 0 <= c -> c + 1 < D -> pair_ok matrix D r c.
Proof.
  unfold snake_order, pair_ok. split.
  - intros H r c Hr Hr' Hc Hc' a b Ha Hb. exact (H r c a b Hr Hr' Hc Hc' Ha Hb).
  - intros H r c a b Hr Hr' Hc Hc' Ha Hb. exact (H r c Hr Hr' Hc Hc' a b Ha Hb).
Qed.

Lemma check_sorted_spec (matrix : list Z) (D : Z) :
  Z.of_nat (length matrix) = D * D ->
  exists is_sorted,
    check_sorted matrix D = Done is_sorted /\
    (is_sorted = true <-> snake_order matrix D).
Proof.
  intros Hlen. unfold check_sorted.
  destruct (check_below_spec matrix D true Hlen) as (s1 & -> & H1). cbn [bind].
  destruct (check_above_spec matrix D s1 Hlen) as (s2 & -> & H2).
  exists s2. split; [reflexivity|].
  rewrite H2, H1, snake_order_pairs. split.
  - intros [[_ Hbelow] Habove] r c Hr Hr' Hc Hc'.
    destruct (Z.le_gt_cases c r).
    + assert (pair_ok matrix D ((r - c) + c) c) as Hp by (apply Hbelow; lia).
      replace ((r - c) + c) with r in Hp by lia. exact Hp.
    + assert (pair_ok matrix D r ((c - r) + r)) as Hp by (apply Habove; lia).
      replace ((c - r) + r) with c in Hp by lia. exact Hp.
  - intros H. split; [split; [reflexivity|]|]; intros i k Hi Hk Hin;
      apply H; lia.
Qed.

(** Once [is_sorted] is false neither loop nest reads a cell again. *)
Lemma check_stops (matrix : list Z) (D : Z) :
  check_below matrix D false = Done false /\
  check_above matrix D false = Done false.
Proof.
  unfold check_below, check_above. rewrite !while_step, !andb_false_r.
  split; reflexivity.
Qed.

(** C1.  On every matrix of [DIMENSION * DIMENSION] cells the convergence
    check runs to its end, and it returns true exactly when the matrix is
    in snake order: when every cell [(r, c)] that has a lower right
    neighbour [(r + 1, c + 1)] is at most that neighbour.  The walk stops
    at the first violation: a loop nest entered with [is_sorted] false
    returns false without reading a cell, whatever the memory. *)
Theorem check_sorted_decides_snake_order (matrix : list Z) (DIMENSION : Z) :
  Z.of_nat (length matrix) = DIMENSION * DIMENSION ->
  (exists is_sorted,
     check_sorted matrix DIMENSION = Done is_sorted /\
     (is_sorted = true <-> snake_order matrix DIMENSION)) /\
  (forall any : list Z,
     check_below any DIMENSION false = Done false /\
     check_above any DIMENSION false = Done false).
Proof.
  intros Hlen. split; [apply check_sorted_spec, Hlen | intros any; apply check_stops].
Qed.

Lemma check_sorted_decides_snake_order_witness :
  (exists is_sorted,
     check_sorted [1; 2; 3; 4] 2 = Done is_sorted /\
     (is_sorted = true <-> snake_order [1; 2; 3; 4] 2)) /\
  (forall any : list Z,
     check_below any 2 false = Done false /\
     check_above any 2 false = Done false).
Proof. apply (check_sorted_decides_snake_order [1; 2; 3; 4] 2). reflexivity. Defined.

(** ** Bands: extraction and deposit *)

Lemma store_same (mem : list Z) (i v : Z) :
  load mem i = Done v -> store mem i v = Done mem.
Proof.
  intros H. apply load_inv in H as [Hi Hv]. unfold store.
  pose proof (lookup_lt_Some _ _ _ Hv).
  destruct (Z.leb_spec 0 i); [|lia].
  destruct (Z.ltb_spec i (Z.of_nat (length mem))); [|lia].
  simpl. rewrite list_insert_id by exact Hv. reflexivity.
Qed.

Lemma gather_scatter (mem : list Z) (stride : Z) (count : nat) :
  forall ptr band,
    gather mem ptr stride count = Done band ->
    length band = count /\ scatter mem ptr stride band = Done mem.
Proof.
  induction count as [|count IH]; intros ptr band H; simpl in H.
  - injection H as <-. split; reflexivity.
  - destruct (load mem ptr) as [v| |] eqn:Hv; try discriminate. simpl in H.
    destruct (gather mem (ptr + stride) stride count) as [rest| |] eqn:Hrest;
      try discriminate.
    injection H as <-. destruct (IH _ _ Hrest) as [Hlen Hback].
    simpl. rewrite (store_same _ _ _ Hv). simpl. auto.
Qed.

Lemma gather_in_bounds (mem : list Z) (stride : Z) (count : nat) :
  forall ptr,
    (forall k, 0 <= k < Z.of_nat count ->
       0 <= ptr + k * stride < Z.of_nat (length mem)) ->
    exists band, gather mem ptr stride count = Done band.
Proof.
  induction count as [|count IH]; intros ptr H; simpl; [eauto|].
  destruct (load_in_bounds mem ptr) as [v ->].
  { specialize (H 0). lia. }
  destruct (IH (ptr + stride)) as [rest ->].
  { intros k Hk. specialize (H (k + 1)). lia. }
  simpl. eauto.
Qed.

(** The master's two loops are the strided transfers. *)
Lemma column_to_numbers_loop (matrix : list Z) (D c : Z) (n : nat) :
  forall (pre old : list Z) (k : Z) (fuel : nat),
    k = Z.of_nat (length pre) -> length old = n -> k + Z.of_nat n = D ->
    (n < fuel)%nat ->
    while fuel (fun '(current_row, _) => current_row <? D)
      (fun '(current_row, numbers) =>
         v <- cell matrix D current_row c ;;
         numbers' <- store numbers current_row v ;;
         Done (current_row + 1, numbers'))
      (k, pre ++ old) =
    (band <- gather matrix (k * D + c) D n ;; Done (D, pre ++ band)).
Proof.
  induction n as [|n IH]; intros pre old k fuel Hk Hold HD Hfuel;
    (destruct fuel as [|fuel]; [lia|]); rewrite while_step.
  - destruct (Z.ltb_spec k D); [lia|].
    apply length_zero_iff_nil in Hold as ->. simpl. repeat f_equal. lia.
  - destruct (Z.ltb_spec k D); [|lia].
    destruct old as [|o old]; [discriminate|]. simpl in Hold.
    change (cell matrix D k c) with (load matrix (k * D + c)). cbn [gather].
    destruct (load matrix (k * D + c)) as [v| |]; try reflexivity.
    cbn [bind]. rewrite store_app by exact Hk. cbn [bind].
    replace (pre ++ v :: old) with ((pre ++ [v]) ++ old)
      by (rewrite <- app_assoc; reflexivity).
    rewrite (IH (pre ++ [v]) old (k + 1) fuel);
      [| rewrite length_app; simpl; lia | lia | lia | lia].
    replace ((k + 1) * D + c) with (k * D + c + D) by lia.
    destruct (gather matrix (k * D + c + D) D n) as [rest| |]; try reflexivity.
    simpl. rewrite <- app_assoc. reflexivity.
Qed.

Lemma column_to_numbers_spec (matrix numbers : list Z) (D c : Z) :
  Z.of_nat (length numbers) = D ->
  column_to_numbers matrix numbers D c = extract_column matrix D c.
Proof.
  intros Hlen. unfold column_to_numbers, extract_column.
  rewrite (column_to_numbers_loop matrix D c (Z.to_nat D) [] numbers 0);
    [| reflexivity | lia | lia | lia].
  replace (0 * D + c) with c by lia.
  destruct (gather matrix c D (Z.to_nat D)); reflexivity.
Qed.

Lemma numbers_to_column_loop (numbers : list Z) (D c : Z) (rest : list Z) :
  forall (pre : list Z) (matrix : list Z) (k : Z) (fuel : nat),
    numbers = pre ++ rest -> k = Z.of_nat (length pre) ->
    k + Z.of_nat (length rest) = D -> (length rest < fuel)%nat ->
    while fuel (fun '(current_row, _) => current_row <? D)
      (fun '(current_row, matrix) =>
         v <- load numbers current_row ;;
         matrix' <- store matrix (current_row * D + c) v ;;
         Done (current_row + 1, matrix'))
      (k, matrix) =
    (matrix' <- scatter matrix (k * D + c) D rest ;; Done (D, matrix')).
Proof.
  induction rest as [|v rest IH]; intros pre matrix k fuel Hn Hk HD Hfuel;
    (destruct fuel as [|fuel]; [simpl in Hfuel; lia|]); rewrite while_step.
  - simpl in HD. destruct (Z.ltb_spec k D); [lia|]. simpl. repeat f_equal. lia.
  - simpl in HD, Hfuel. destruct (Z.ltb_spec k D); [|lia].
    rewrite Hn at 1. rewrite load_app by exact Hk. cbn [bind scatter].
    destruct (store matrix (k * D + c) v) as [matrix'| |]; try reflexivity.
    cbn [bind].
    rewrite (IH (pre ++ [v]) matrix' (k + 1) fuel);
      [| rewrite <- app_assoc; exact Hn | rewrite length_app; simpl; lia
       | lia | lia].
    replace ((k + 1) * D + c) with (k * D + c + D) by lia. reflexivity.
Qed.

Lemma numbers_to_column_spec (matrix numbers : list Z) (D c : Z) :
  Z.of_nat (length numbers) = D ->
  numbers_to_column matrix numbers D c = deposit_column matrix D c numbers.
Proof.
  intros Hlen. unfold numbers_to_column, deposit_column.
  rewrite (numbers_to_column_loop numbers D c numbers [] matrix 0);
    [| reflexivity | reflexivity | lia | lia].
  replace (0 * D + c) with c by lia.
  destruct (scatter matrix c D numbers); reflexivity.
Qed.

Lemma extract_row_in_bounds (matrix : list Z) (D r : Z) :
  Z.of_nat (length matrix) = D * D -> 0 <= r < D ->
  exists band, extract_row matrix D r = Done band.
Proof. intros Hlen Hr. apply gather_in_bounds. intros k Hk. nia. Qed.

Lemma extract_column_in_bounds (matrix : list Z) (D c : Z) :
  Z.of_nat (length matrix) = D * D -> 0 <= c < D ->
  exists band, extract_column matrix D c = Done band.
Proof. intros Hlen Hc. apply gather_in_bounds. intros k Hk. nia. Qed.

(** C6.  In a matrix of [DIMENSION * DIMENSION] cells, for every index
    [k] of a row or of a column: the extracted band has [DIMENSION] cells,
    and depositing it where it was taken leaves the matrix as it was.
    This holds for rows, for columns moved as one [column_type], and for
    the column the master copies to [numbers] and back with its loops. *)
Theorem bands_round_trip (matrix : list Z) (DIMENSION k : Z) :
  Z.of_nat (length matrix) = DIMENSION * DIMENSION -> 0 <= k < DIMENSION ->
  (exists band,
     extract_row matrix DIMENSION k = Done band /\
     Z.of_nat (length band) = DIMENSION /\
     deposit_row matrix DIMENSION k band = Done matrix) /\
  (exists band,
     extract_column matrix DIMENSION k = Done band /\
     Z.of_nat (length band) = DIMENSION /\
     deposit_column matrix DIMENSION k band = Done matrix) /\
  (forall numbers, Z.of_nat (length numbers) = DIMENSION ->
     exists band,
       column_to_numbers matrix numbers DIMENSION k = Done band /\
       Z.of_nat (length band) = DIMENSION /\
       numbers_to_column matrix band DIMENSION k = Done matrix).
Proof.
  intros Hlen Hk.
  destruct (extract_row_in_bounds matrix DIMENSION k Hlen Hk) as [row Hrow].
  destruct (extract_column_in_bounds matrix DIMENSION k Hlen Hk) as [col Hcol].
  destruct (gather_scatter _ _ _ _ _ Hrow) as [Hrow1 Hrow2].
  destruct (gather_scatter _ _ _ _ _ Hcol) as [Hcol1 Hcol2].
  split; [|split].
  - exists row. split; [exact Hrow|]. split; [lia | exact Hrow2].
  - exists col. split; [exact Hcol|]. split; [lia | exact Hcol2].
  - intros numbers Hnumbers. exists col.
    rewrite column_to_numbers_spec by exact Hnumbers.
    split; [exact Hcol|]. split; [lia|].
    rewrite numbers_to_column_spec by lia. exact Hcol2.
Qed.

Lemma bands_round_trip_witness :
  (exists band,
     extract_row [1; 2; 3; 4] 2 1 = Done band /\
     Z.of_nat (length band) = 2 /\
     deposit_row [1; 2; 3; 4] 2 1 band = Done [1; 2; 3; 4]) /\
  (exists band,
     extract_column [1; 2; 3; 4] 2 1 = Done band /\
     Z.of_nat (length band) = 2 /\
     deposit_column [1; 2; 3; 4] 2 1 band = Done [1; 2; 3; 4]) /\
  (forall numbers, Z.of_nat (length numbers) = 2 ->
     exists band,
       column_to_numbers [1; 2; 3; 4] numbers 2 1 = Done band /\
       Z.of_nat (length band) = 2 /\
       numbers_to_column [1; 2; 3; 4] band 2 1 = Done [1; 2; 3; 4]).
Proof. apply (bands_round_trip [1; 2; 3; 4] 2 1); [reflexivity | lia]. Defined.

(** ** What a run that ends has preserved *)

Lemma store_length (mem : list Z) (i v : Z) (mem' : list Z) :
  store mem i v = Done mem' -> length mem' = length mem.
Proof.
  unfold store. destruct ((0 <=? i) && (i <? Z.of_nat (length mem)));
    intros H; [|discriminate].
  injection H as <-. apply length_insert.
Qed.

Lemma scatter_length (stride : Z) (data : list Z) :
  forall (mem : list Z) (ptr : Z) (mem' : list Z),
    scatter mem ptr stride data = Done mem' -> length mem' = length mem.
Proof.
  induction data as [|v data IH]; intros mem ptr mem' H; simpl in H.
  - injection H as <-. reflexivity.
  - bind_inv H. rewrite (IH _ _ _ H). eapply store_length; eauto.
Qed.

Lemma oet_exchange_length swap_if (mem : list Z) (row i : Z) (mem' : list Z) :
  Oetsort.exchange swap_if mem row i = Done mem' -> length mem' = length mem.
Proof.
  unfold Oetsort.exchange. intros H. bind_inv H. bind_inv H.
  destruct (swap_if a a0).
  - bind_inv H. bind_inv H. bind_inv H.
    rewrite (store_length _ _ _ _ H). eapply store_length; eauto.
  - injection H as <-. reflexivity.
Qed.

Lemma pair_pass_length swap_if (start : Z) (mem : list Z) (row len : Z)
    (mem' : list Z) :
  Oetsort.pair_pass swap_if start mem row len = Done mem' ->
  length mem' = length mem.
Proof.
  unfold Oetsort.pair_pass. intros H. bind_inv H. injection H as <-.
  apply (while_preserves (fun s => length (snd s) = length mem)) in Ha;
    [exact Ha | | reflexivity].
  intros [i m] [i' m'] Hm _ Hb. simpl in *. bind_inv Hb. injection Hb as <- <-.
  rewrite <- Hm. eapply oet_exchange_length; eauto.
Qed.

Lemma numbers_to_column_length (matrix numbers : list Z) (D c : Z)
    (matrix' : list Z) :
  numbers_to_column matrix numbers D c = Done matrix' ->
  length matrix' = length matrix.
Proof.
  unfold numbers_to_column. intros H. bind_inv H. injection H as <-.
  apply (while_preserves (fun s => length (snd s) = length matrix)) in Ha;
    [exact Ha | | reflexivity].
  intros [k m] [k' m'] Hm _ Hb. simpl in *. bind_inv Hb. bind_inv Hb.
  injection Hb as <- <-. rewrite <- Hm. eapply store_length; eauto.
Qed.

Lemma row_block_length (D P current_row : Z) (matrix : list Z)
    (b : Z * list Z) :
  Oetsort.row_block D P current_row matrix = Done b ->
  length (snd b) = length matrix.
Proof.
  unfold Oetsort.row_block. intros H. bind_inv H.
  destruct a as [[destination row] mail].
  bind_inv H. bind_inv H. bind_inv H. injection H as <-. simpl.
  apply pair_pass_length in Ha0, Ha1.
  apply (while_preserves (fun s => length (snd s) = length matrix)) in Ha2;
    [exact Ha2 | | simpl; congruence].
  intros [[k r] m] [[k' r'] m'] Hm _ Hb. simpl in *. bind_inv Hb. bind_inv Hb.
  injection Hb as <- <- <-. rewrite <- Hm. eapply scatter_length; eauto.
Qed.

Lemma row_phase_length (D P : Z) (matrix matrix' : list Z) :
  Oetsort.row_phase D P matrix = Done matrix' ->
  length matrix' = length matrix.
Proof.
  unfold Oetsort.row_phase. intros H. bind_inv H. injection H as <-.
  apply (while_preserves (fun s => length (snd s) = length matrix)) in Ha;
    [exact Ha | | reflexivity].
  intros [[i r] m] [[i' r'] m'] Hm _ Hb. simpl in *. bind_inv Hb.
  injection Hb as <- <- <-. rewrite <- Hm. eapply row_block_length; eauto.
Qed.

Lemma column_block_length (D P current_column : Z) (matrix numbers : list Z)
    (b : Z * list Z * list Z) :
  Oetsort.column_block D P current_column matrix numbers = Done b ->
  length (snd (fst b)) = length matrix.
Proof.
  unfold Oetsort.column_block. intros H. bind_inv H.
  destruct a as [[destination column] mail].
  do 5 bind_inv H. injection H as <-. simpl.
  apply numbers_to_column_length in Ha3.
  apply (while_preserves (fun s => length (snd s) = length matrix)) in Ha4;
    [exact Ha4 | | simpl; congruence].
  intros [[k r] m] [[k' r'] m'] Hm _ Hb. simpl in *. bind_inv Hb. bind_inv Hb.
  injection Hb as <- <- <-. rewrite <- Hm. eapply scatter_length; eauto.
Qed.

Lemma column_phase_length (D P : Z) (matrix numbers : list Z)
    (s : list Z * list Z) :
  Oetsort.column_phase D P matrix numbers = Done s ->
  length (fst s) = length matrix.
Proof.
  unfold Oetsort.column_phase. intros H. bind_inv H.
  destruct a as [[[j column] m] n]. injection H as <-. simpl.
  apply (while_preserves
           (fun s => length (snd (fst s)) = length matrix)) in Ha;
    [exact Ha | | reflexivity].
  intros [[[j1 c1] m1] n1] [[[j2 c2] m2] n2] Hm _ Hb. simpl in *. bind_inv Hb.
  destruct a as [[c3 m3] n3]. injection Hb as <- <- <- <-.
  rewrite <- Hm. apply (column_block_length _ _ _ _ _ _ Ha0).
Qed.

Lemma super_step_length (D P : Z) (matrix numbers : list Z)
    (s : list Z * list Z) :
  Oetsort.super_step D P matrix numbers = Done s ->
  length (fst s) = length matrix.
Proof.
  unfold Oetsort.super_step. intros H. bind_inv H.
  rewrite (column_phase_length _ _ _ _ _ H). eapply row_phase_length; eauto.
Qed.

Lemma sort_loop_sorted (D P : Z) (passes : nat) :
  forall (matrix numbers : list Z) (s : list Z * list Z),
    Oetsort.sort_loop passes D P matrix numbers = Done s ->
    length (fst s) = length matrix /\ check_sorted (fst s) D = Done true.
Proof.
  induction passes as [|passes IH]; intros matrix numbers s H; [discriminate|].
  simpl in H. bind_inv H. bind_inv H.
  pose proof (super_step_length _ _ _ _ _ Ha) as Hlen.
  destruct a0.
  - injection H as <-. auto.
  - destruct (IH _ _ _ H) as [H1 H2]. split; [congruence | exact H2].
Qed.

(** C8.  The transposition sort leaves its loop only after a check that
    returned true: a run that reaches [return 0] ends with a matrix in
    snake order.  The shear sort leaves with exit code 1 exactly when its
    one check returns false, and a matrix that lets it reach [return 0] is
    in snake order. *)
Theorem runs_end_in_snake_order (DIMENSION NUMBER_OF_PROCESSES : Z)
    (matrix numbers : list Z) :
  Z.of_nat (length matrix) = DIMENSION * DIMENSION ->
  (forall passes code final,
     Oetsort.master passes DIMENSION NUMBER_OF_PROCESSES matrix numbers
       = Done (code, final) ->
     code = 0 /\ check_sorted final DIMENSION = Done true /\
     snake_order final DIMENSION) /\
  (exists code,
     Shearsort.finish matrix DIMENSION = Done code /\
     (code = 1 <-> check_sorted matrix DIMENSION = Done false) /\
     (code = 0 <-> check_sorted matrix DIMENSION = Done true) /\
     (code = 0 -> snake_order matrix DIMENSION)).
Proof.
  intros Hlen. split.
  - intros passes code final H. unfold Oetsort.master in H. bind_inv H.
    injection H as <- <-.
    destruct (sort_loop_sorted _ _ _ _ _ _ Ha) as [Hl Hc].
    split; [reflexivity|]. split; [exact Hc|].
    destruct (check_sorted_spec (fst a) DIMENSION) as (b & Hb & Hiff); [lia|].
    apply Hiff. congruence.
  - unfold Shearsort.finish.
    destruct (check_sorted_spec matrix DIMENSION Hlen) as (b & -> & Hiff).
    destruct b; simpl; eexists; (split; [reflexivity|]).
    + repeat split; try discriminate; try reflexivity. intros _. tauto.
    + repeat split; try discriminate; try reflexivity; intros [=].
Qed.

Lemma runs_end_in_snake_order_witness :
  (forall passes code final,
     Oetsort.master passes 2 2 [4; 3; 2; 1] [0; 0] = Done (code, final) ->
     code = 0 /\ check_sorted final 2 = Done true /\ snake_order final 2) /\
  (exists code,
     Shearsort.finish [4; 3; 2; 1] 2 = Done code /\
     (code = 1 <-> check_sorted [4; 3; 2; 1] 2 = Done false) /\
     (code = 0 <-> check_sorted [4; 3; 2; 1] 2 = Done true) /\
     (code = 0 -> snake_order [4; 3; 2; 1] 2)).
Proof. apply (runs_end_in_snake_order 2 2 [4; 3; 2; 1] [0; 0]). reflexivity. Defined.

(** ** Bands of a memory *)

Lemma band_at_lookup (mem : list Z) (row len : Z) (i : nat) :
  band_at mem row len !! i =
  if decide (Z.of_nat i < len) then mem !! (Z.to_nat row + i)%nat else None.
Proof.
  unfold band_at. rewrite lookup_take. repeat case_decide; try lia.
  - apply lookup_drop.
  - reflexivity.
Qed.

Lemma band_at_length (mem : list Z) (row len : Z) :
  0 <= row -> 0 <= len -> row + len <= Z.of_nat (length mem) ->
  Z.of_nat (length (band_at mem row len)) = len.
Proof.
  intros. unfold band_at. rewrite length_take, length_drop. lia.
Qed.

Lemma set_band_lookup (mem : list Z) (row : Z) (band : list Z) (j : nat) :
  0 <= row -> row + Z.of_nat (length band) <= Z.of_nat (length mem) ->
  set_band mem row band !! j =
  if decide (Z.to_nat row <= j < Z.to_nat row + length band)%nat
  then band !! (j - Z.to_nat row)%nat else mem !! j.
Proof.
  intros Hrow Hlen. unfold set_band.
  assert (length (take (Z.to_nat row) mem) = Z.to_nat row) as Htake
      by (rewrite length_take; lia).
  rewrite lookup_app, Htake.
  destruct (decide (j < Z.to_nat row)%nat).
  - rewrite lookup_take_lt by lia. case_decide; [lia|].
    destruct (mem !! j) eqn:Hj; [reflexivity|].
    apply lookup_ge_None in Hj. lia.
  - rewrite lookup_take_ge by lia. rewrite lookup_app.
    case_decide.
    + destruct (band !! (j - Z.to_nat row)%nat) eqn:Hj; [reflexivity|].
      apply lookup_ge_None in Hj. lia.
    + rewrite (lookup_ge_None_2 band) by lia. rewrite lookup_drop.
      f_equal. lia.
Qed.

Lemma set_band_length (mem : list Z) (row : Z) (band : list Z) :
  0 <= row -> row + Z.of_nat (length band) <= Z.of_nat (length mem) ->
  length (set_band mem row band) = length mem.
Proof.
  intros. unfold set_band. rewrite !length_app, length_take, length_drop. lia.
Qed.

Lemma band_at_set_band (mem : list Z) (row : Z) (band : list Z) :
  0 <= row -> row + Z.of_nat (length band) <= Z.of_nat (length mem) ->
  band_at (set_band mem row band) row (Z.of_nat (length band)) = band.
Proof.
  intros Hrow Hlen. apply list_eq. intros i.
  rewrite band_at_lookup, set_band_lookup by assumption.
  repeat case_decide; try lia.
  - f_equal. lia.
  - symmetry. apply lookup_ge_None. lia.
Qed.

Lemma band_at_set_band_other (mem : list Z) (row : Z) (band : list Z)
    (row' len' : Z) :
  0 <= row -> row + Z.of_nat (length band) <= Z.of_nat (length mem) ->
  0 <= row' -> 0 <= len' ->
  row' + len' <= row \/ row + Z.of_nat (length band) <= row' ->
  band_at (set_band mem row band) row' len' = band_at mem row' len'.
Proof.
  intros Hrow Hlen Hrow' Hlen' Hdisj. apply list_eq. intros i.
  rewrite !band_at_lookup. case_decide; [|reflexivity].
  rewrite set_band_lookup by assumption. case_decide; [lia | reflexivity].
Qed.

Lemma pair_pass_even_band swap_if (mem : list Z) (row len : Z) :
  0 <= row -> 0 <= len -> row + len <= Z.of_nat (length mem) ->
  Oetsort.pair_pass swap_if 0 mem row len =
  Done (set_band mem row (pairs swap_if (band_at mem row len))).
Proof.
  intros Hrow Hlen Hmem.
  destruct (band_frame mem row len Hrow Hlen Hmem) as (Hsplit & Hpre & Hband).
  rewrite Hsplit at 1. rewrite pair_pass_even by assumption.
  unfold set_band. rewrite pairs_length. do 4 f_equal.
  rewrite Z2Nat.inj_add by lia. lia.
Qed.

Lemma pair_pass_odd_band swap_if (mem : list Z) (row len : Z) :
  0 <= row -> 0 <= len -> row + len <= Z.of_nat (length mem) ->
  Oetsort.pair_pass swap_if 1 mem row len =
  Done (set_band mem row (odd_pairs swap_if (band_at mem row len))).
Proof.
  intros Hrow Hlen Hmem.
  destruct (band_frame mem row len Hrow Hlen Hmem) as (Hsplit & Hpre & Hband).
  rewrite Hsplit at 1. rewrite pair_pass_odd by assumption.
  unfold set_band. rewrite odd_pairs_length. do 4 f_equal.
  rewrite Z2Nat.inj_add by lia. lia.
Qed.

(** Transfers of consecutive cells. *)
Lemma gather_band (mem : list Z) (count : nat) :
  forall ptr, 0 <= ptr -> ptr + Z.of_nat count <= Z.of_nat (length mem) ->
    gather mem ptr 1 count = Done (band_at mem ptr (Z.of_nat count)).
Proof.
  induction count as [|count IH]; intros ptr Hptr Hlen; simpl gather.
  - unfold band_at. reflexivity.
  - destruct (load_in_bounds mem ptr) as [v Hv]; [lia|]. rewrite Hv. cbn [bind].
    rewrite IH by lia. cbn [bind]. f_equal.
    apply load_inv in Hv as [_ Hv].
    apply list_eq. intros [|i].
    + rewrite band_at_lookup. case_decide; [|lia]. simpl.
      rewrite Nat.add_0_r. symmetry. exact Hv.
    + simpl. rewrite !band_at_lookup. repeat case_decide; try lia; [|reflexivity].
      f_equal. lia.
Qed.

Lemma store_insert (mem : list Z) (i v : Z) :
  0 <= i < Z.of_nat (length mem) ->
  store mem i v = Done (<[Z.to_nat i := v]> mem).
Proof.
  intros Hi. unfold store.
  destruct (Z.leb_spec 0 i); [|lia].
  destruct (Z.ltb_spec i (Z.of_nat (length mem))); [|lia]. reflexivity.
Qed.

Lemma scatter_band (data : list Z) :
  forall mem ptr,
    0 <= ptr -> ptr + Z.of_nat (length data) <= Z.of_nat (length mem) ->
    scatter mem ptr 1 data = Done (set_band mem ptr data).
Proof.
  induction data as [|v data IH]; intros mem ptr Hptr Hlen; simpl scatter.
  - f_equal. unfold set_band. simpl. rewrite Nat.add_0_r, take_drop. reflexivity.
  - simpl length in Hlen. rewrite store_insert by lia. cbn [bind].
    rewrite IH by (rewrite ?length_insert; lia). f_equal.
    apply list_eq. intros j.
    rewrite !set_band_lookup by (rewrite ?length_insert; simpl length; lia).
    simpl length. repeat case_decide; try lia.
    + replace (j - Z.to_nat ptr)%nat with (S (j - Z.to_nat (ptr + 1)))%nat by lia.
      reflexivity.
    + replace (j - Z.to_nat ptr)%nat with 0%nat by lia. simpl.
      assert (j = Z.to_nat ptr) as -> by lia.
      apply list_lookup_insert_eq. lia.
    + apply list_lookup_insert_ne. lia.
Qed.

(** ** The row phase of the transposition sort permutes every row *)

Lemma same_rows_refl (D : Z) (matrix : list Z) : same_rows D matrix matrix.
Proof. split; [reflexivity | intros; reflexivity]. Qed.

Lemma same_rows_trans (D : Z) (m1 m2 m3 : list Z) :
  same_rows D m1 m2 -> same_rows D m2 m3 -> same_rows D m1 m3.
Proof.
  intros [Hl1 H1] [Hl2 H2]. split; [congruence|].
  intros r Hr. rewrite (H2 r Hr). apply H1, Hr.
Qed.

Lemma set_band_same_rows (D r : Z) (matrix band : list Z) :
  Z.of_nat (length matrix) = D * D -> 0 <= r < D ->
  band ≡ₚ band_at matrix (r * D) D ->
  same_rows D matrix (set_band matrix (r * D) band).
Proof.
  intros Hlen Hr Hband.
  assert (Z.of_nat (length band) = D) as Hb.
  { rewrite Hband. apply band_at_length; nia. }
  split; [apply set_band_length; nia|].
  intros r' Hr'. destruct (Z.eq_dec r' r) as [->|Hne].
  - rewrite <- Hb at 3. rewrite band_at_set_band by nia. exact Hband.
  - rewrite band_at_set_band_other by nia. reflexivity.
Qed.

Lemma worker_row_spec (PROCESS_ID D : Z) (numbers : list Z) :
  Z.of_nat (length numbers) = D ->
  exists band,
    Oetsort.worker_row PROCESS_ID D numbers = Done band /\ band ≡ₚ numbers.
Proof.
  intros <-. unfold Oetsort.worker_row, Oetsort.osort, Oetsort.esort,
    Oetsort.orsort, Oetsort.ersort.
  destruct (Z.rem PROCESS_ID 2 =? 0).
  - rewrite pair_pass_odd_whole. cbn [bind].
    rewrite <- (odd_pairs_length Z.ltb numbers), pair_pass_even_whole.
    eexists. split; [reflexivity|]. rewrite pairs_perm, odd_pairs_perm. reflexivity.
  - rewrite pair_pass_odd_whole. cbn [bind].
    rewrite <- (odd_pairs_length Z.gtb numbers), pair_pass_even_whole.
    eexists. split; [reflexivity|]. rewrite pairs_perm, odd_pairs_perm. reflexivity.
Qed.

Lemma extract_row_band (matrix : list Z) (D r : Z) :
  Z.of_nat (length matrix) = D * D -> 0 <= r < D ->
  extract_row matrix D r = Done (band_at matrix (r * D) D).
Proof.
  intros Hlen Hr. unfold extract_row.
  rewrite gather_band by nia. rewrite Z2Nat.id by lia. reflexivity.
Qed.

Lemma deposit_row_band (matrix : list Z) (D r : Z) (band : list Z) :
  Z.of_nat (length matrix) = D * D -> 0 <= r < D ->
  Z.of_nat (length band) = D ->
  deposit_row matrix D r band = Done (set_band matrix (r * D) band).
Proof. intros Hlen Hr Hband. unfold deposit_row. apply scatter_band; nia. Qed.

Lemma row_block_spec (D P current_row : Z) (matrix : list Z) :
  1 <= P -> Z.of_nat (length matrix) = D * D ->
  0 <= current_row -> current_row + P <= D ->
  exists matrix',
    Oetsort.row_block D P current_row matrix = Done (current_row + P, matrix') /\
    same_rows D matrix matrix'.
Proof.
  intros HP Hlen Hcr Hfit. unfold Oetsort.row_block.
  (* the rows sent to the workers *)
  destruct (while_invariant
    (fun '(destination, row, mail) =>
       1 <= destination <= P /\ row = current_row + destination - 1 /\
       forall d, 1 <= d < destination ->
         mail d = band_at matrix ((current_row + d - 1) * D) D)
    (fun '(destination, _, _) => Z.to_nat (P - destination))
    (fun '(destination, _, _) => destination <? P)
    (fun '(destination, current_row, mail) =>
       band <- extract_row matrix D current_row ;;
       Done (destination + 1, current_row + 1, <[destination := band]> mail)))
    with (fuel := S (Z.to_nat P)) (s := (1, current_row, Oetsort.no_mail))
    as ([[destination row] mail] & -> & (Hd & -> & Hmail) & Hexit).
  { intros [[d row] mail] (Hd & -> & Hmail) Hc. apply Z.ltb_lt in Hc.
    rewrite extract_row_band by (try assumption; lia). cbn [bind].
    eexists. split; [reflexivity|]. split; [|lia].
    split; [lia|]. split; [lia|]. intros d' Hd'.
    destruct (Z.eq_dec d' d) as [->|Hne].
    - rewrite fn_lookup_insert. reflexivity.
    - rewrite fn_lookup_insert_ne by congruence. apply Hmail. lia. }
  { split; [lia|]. split; [lia|]. intros d Hd. lia. }
  { lia. }
  apply Z.ltb_ge in Hexit. assert (destination = P) as -> by lia.
  cbn [bind]. unfold Oetsort.osort, Oetsort.esort.
  (* the row of the master *)
  set (own := current_row + P - 1).
  rewrite pair_pass_odd_band by nia. cbn [bind].
  set (band1 := odd_pairs Z.ltb (band_at matrix (own * D) D)).
  assert (same_rows D matrix (set_band matrix (own * D) band1)) as Hs1.
  { apply set_band_same_rows; [assumption | lia | apply odd_pairs_perm]. }
  set (matrix1 := set_band matrix (own * D) band1) in *.
  assert (Z.of_nat (length matrix1) = D * D) as Hlen1
      by (destruct Hs1 as [-> _]; exact Hlen).
  rewrite pair_pass_even_band by nia. cbn [bind].
  set (band2 := pairs Z.ltb (band_at matrix1 (own * D) D)).
  assert (same_rows D matrix1 (set_band matrix1 (own * D) band2)) as Hs2.
  { apply set_band_same_rows; [assumption | lia | apply pairs_perm]. }
  set (matrix2 := set_band matrix1 (own * D) band2) in *.
  pose proof (same_rows_trans _ _ _ _ Hs1 Hs2) as Hs12.
  (* the rows received from the workers *)
  destruct (while_invariant
    (fun '(source, row, m) =>
       1 <= source <= P /\ row = current_row + source - 1 /\
       same_rows D matrix m)
    (fun '(source, _, _) => Z.to_nat (P - source))
    (fun '(source, _, _) => source <? P)
    (fun '(source, previous_row, matrix) =>
       band <- Oetsort.worker_row source D (mail source) ;;
       matrix' <- deposit_row matrix D previous_row band ;;
       Done (source + 1, previous_row + 1, matrix')))
    with (fuel := S (Z.to_nat P)) (s := (1, current_row, matrix2))
    as ([[source row] m] & -> & (Hsrc & -> & Hm) & _).
  { intros [[src row] m] (Hsrc & -> & Hm) Hc. apply Z.ltb_lt in Hc.
    assert (Z.of_nat (length m) = D * D) as Hlenm
        by (destruct Hm as [-> _]; exact Hlen).
    rewrite (Hmail src) by lia.
    destruct (worker_row_spec src D
                (band_at matrix ((current_row + src - 1) * D) D))
      as (band & -> & Hband); [apply band_at_length; nia|].
    cbn [bind].
    assert (Z.of_nat (length band) = D) as Hb
        by (rewrite Hband; apply band_at_length; nia).
    rewrite deposit_row_band by (try assumption; lia). cbn [bind].
    eexists. split; [reflexivity|]. split; [|lia].
    split; [lia|]. split; [lia|].
    eapply same_rows_trans; [exact Hm|].
    apply set_band_same_rows; [assumption | lia |].
    rewrite Hband. symmetry. apply Hm. lia. }
  { split; [lia|]. split; [lia | exact Hs12]. }
  { lia. }
  cbn [bind snd]. exists m. split; [|exact Hm].
  do 2 f_equal. unfold own. lia.
Qed.

Lemma row_phase_spec (D P : Z) (matrix : list Z) :
  1 <= P -> 0 <= D -> Z.rem D P = 0 -> Z.of_nat (length matrix) = D * D ->
  exists matrix',
    Oetsort.row_phase D P matrix = Done matrix' /\ same_rows D matrix matrix'.
Proof.
  intros HP HD Hrem Hlen. unfold Oetsort.row_phase.
  assert (D = P * Z.quot D P) as HR
      by (pose proof (Z.quot_rem' D P); lia).
  assert (0 <= Z.quot D P) as HR0 by (apply Z.quot_pos; lia).
  set (R := Z.quot D P) in *.
  destruct (while_invariant
    (fun '(i, row, m) => 0 <= i <= R /\ row = i * P /\ same_rows D matrix m)
    (fun '(i, _, _) => Z.to_nat (R - i))
    (fun '(i, _, _) => i <? R)
    (fun '(i, current_row, matrix) =>
       b <- Oetsort.row_block D P current_row matrix ;;
       Done (i + 1, fst b, snd b)))
    with (fuel := S (Z.to_nat R)) (s := (0, 0, matrix))
    as ([[i row] m] & -> & (Hi & -> & Hm) & _).
  - intros [[i row] m] (Hi & -> & Hm) Hc. apply Z.ltb_lt in Hc.
    destruct (row_block_spec D P (i * P) m) as (m' & -> & Hm');
      [lia | destruct Hm as [-> _]; exact Hlen | nia | nia |].
    cbn [bind fst snd]. eexists. split; [reflexivity|]. split; [|lia].
    split; [lia|]. split; [lia|]. eapply same_rows_trans; eauto.
  - split; [lia|]. split; [lia | apply same_rows_refl].
  - lia.
  - cbn [bind snd]. eauto.
Qed.

(** ** The column phase leaves ascending columns alone *)

Lemma ascending_tail (x : Z) (band : list Z) :
  ascending (x :: band) -> ascending band.
Proof. intros H i a b Ha Hb. apply (H (S i) a b); assumption. Qed.

Lemma pairs_ascending (band : list Z) :
  ascending band -> pairs Z.ltb band = band.
Proof.
  induction band as [| a | a b l IH] using pair_ind; intros H; try reflexivity.
  simpl. pose proof (H 0%nat a b eq_refl eq_refl) as Hab.
  destruct (Z.ltb_spec b a); [lia|].
  rewrite IH; [reflexivity|]. eapply ascending_tail, ascending_tail, H.
Qed.

Lemma odd_pairs_ascending (band : list Z) :
  ascending band -> odd_pairs Z.ltb band = band.
Proof.
  destruct band as [|a l]; intros H; [reflexivity|]. simpl.
  rewrite pairs_ascending; [reflexivity|]. eapply ascending_tail, H.
Qed.

Lemma osort_ascending (D : Z) (numbers : list Z) :
  Z.of_nat (length numbers) = D -> ascending numbers ->
  Oetsort.osort numbers 0 D = Done numbers.
Proof.
  intros <- H. unfold Oetsort.osort.
  rewrite pair_pass_odd_whole, odd_pairs_ascending by exact H. reflexivity.
Qed.

Lemma esort_ascending (D : Z) (numbers : list Z) :
  Z.of_nat (length numbers) = D -> ascending numbers ->
  Oetsort.esort numbers 0 D = Done numbers.
Proof.
  intros <- H. unfold Oetsort.esort.
  rewrite pair_pass_even_whole, pairs_ascending by exact H. reflexivity.
Qed.

Lemma worker_column_ascending (D : Z) (numbers : list Z) :
  Z.of_nat (length numbers) = D -> ascending numbers ->
  Oetsort.worker_column D numbers = Done numbers.
Proof.
  intros HD H. unfold Oetsort.worker_column.
  rewrite osort_ascending by assumption. cbn [bind].
  apply esort_ascending; assumption.
Qed.

Lemma gather_lookup (mem : list Z) (stride : Z) (count : nat) :
  forall ptr band (i : nat) v,
    gather mem ptr stride count = Done band -> band !! i = Some v ->
    load mem (ptr + Z.of_nat i * stride) = Done v.
Proof.
  induction count as [|count IH]; intros ptr band i v H Hi; simpl in H.
  - injection H as <-. discriminate.
  - destruct (load mem ptr) as [x| |] eqn:Hx; try discriminate. simpl in H.
    destruct (gather mem (ptr + stride) stride count) as [rest| |] eqn:Hrest;
      try discriminate.
    injection H as <-. destruct i as [|i]; simpl in Hi.
    + injection Hi as <-. rewrite <- Hx. f_equal. lia.
    + rewrite <- (IH _ _ _ _ Hrest Hi). f_equal. lia.
Qed.

Lemma column_ascending (matrix : list Z) (D c : Z) (band : list Z) :
  block_ordered matrix D -> 0 <= c < D ->
  extract_column matrix D c = Done band -> ascending band.
Proof.
  intros Hblock Hc Hband i a b Ha Hb.
  destruct (gather_scatter _ _ _ _ _ Hband) as [Hlen _].
  pose proof (lookup_lt_Some _ _ _ Hb) as Hi.
  pose proof (gather_lookup _ _ _ _ _ _ _ Hband Ha) as Hca.
  pose proof (gather_lookup _ _ _ _ _ _ _ Hband Hb) as Hcb.
  apply (Hblock (Z.of_nat i) c (Z.of_nat (S i)) c a b); try lia.
  - unfold cell. rewrite <- Hca. f_equal. lia.
  - unfold cell. rewrite <- Hcb. f_equal. lia.
Qed.

Lemma column_block_spec (D P current_column : Z) (matrix numbers : list Z) :
  1 <= P -> Z.of_nat (length matrix) = D * D ->
  Z.of_nat (length numbers) = D -> block_ordered matrix D ->
  0 <= current_column -> current_column + P <= D ->
  exists numbers',
    Oetsort.column_block D P current_column matrix numbers
    = Done (current_column + P, matrix, numbers') /\
    Z.of_nat (length numbers') = D.
Proof.
  intros HP Hlen Hnumbers Hblock Hcc Hfit. unfold Oetsort.column_block.
  (* the columns sent to the workers *)
  destruct (while_invariant
    (fun '(destination, column, mail) =>
       1 <= destination <= P /\ column = current_column + destination - 1 /\
       forall d, 1 <= d < destination ->
         extract_column matrix D (current_column + d - 1) = Done (mail d))
    (fun '(destination, _, _) => Z.to_nat (P - destination))
    (fun '(destination, _, _) => destination <? P)
    (fun '(destination, current_column, mail) =>
       band <- extract_column matrix D current_column ;;
       Done (destination + 1, current_column + 1, <[destination := band]> mail)))
    with (fuel := S (Z.to_nat P)) (s := (1, current_column, Oetsort.no_mail))
    as ([[destination column] mail] & -> & (Hd & -> & Hmail) & Hexit).
  { intros [[d column] mail] (Hd & -> & Hmail) Hc. apply Z.ltb_lt in Hc.
    destruct (extract_column_in_bounds matrix D (current_column + d - 1))
      as [band Hband]; [assumption | lia |].
    rewrite Hband. cbn [bind].
    eexists. split; [reflexivity|]. split; [|lia].
    split; [lia|]. split; [lia|]. intros d' Hd'.
    destruct (Z.eq_dec d' d) as [->|Hne].
    - rewrite fn_lookup_insert. exact Hband.
    - rewrite fn_lookup_insert_ne by congruence. apply Hmail. lia. }
  { split; [lia|]. split; [lia|]. intros d Hd. lia. }
  { lia. }
  apply Z.ltb_ge in Hexit. assert (destination = P) as -> by lia.
  cbn [bind].
  (* the column of the master *)
  set (own := current_column + P - 1).
  destruct (extract_column_in_bounds matrix D own) as [band Hband];
    [assumption | lia |].
  destruct (gather_scatter _ _ _ _ _ Hband) as [Hlenb Hback].
  assert (ascending band) as Hasc by (eapply (column_ascending _ D own); eauto; lia).
  rewrite column_to_numbers_spec, Hband by exact Hnumbers. cbn [bind].
  rewrite osort_ascending by (try assumption; lia). cbn [bind].
  rewrite esort_ascending by (try assumption; lia). cbn [bind].
  rewrite numbers_to_column_spec by lia.
  unfold deposit_column, extract_column in *. rewrite Hback. cbn [bind].
  (* the columns received from the workers *)
  destruct (while_invariant
    (fun '(source, column, m) =>
       1 <= source <= P /\ column = current_column + source - 1 /\ m = matrix)
    (fun '(source, _, _) => Z.to_nat (P - source))
    (fun '(source, _, _) => source <? P)
    (fun '(source, previous_column, matrix) =>
       band <- Oetsort.worker_column D (mail source) ;;
       matrix' <- scatter matrix previous_column D band ;;
       Done (source + 1, previous_column + 1, matrix')))
    with (fuel := S (Z.to_nat P)) (s := (1, current_column, matrix))
    as ([[source column] m] & -> & (Hsrc & -> & ->) & _).
  { intros [[src column] m] (Hsrc & -> & ->) Hc. apply Z.ltb_lt in Hc.
    pose proof (Hmail src ltac:(lia)) as Hsent.
    destruct (gather_scatter _ _ _ _ _ Hsent) as [Hl Hb].
    rewrite worker_column_ascending;
      [| lia | eapply (column_ascending _ D (current_column + src - 1)); eauto; lia].
    cbn [bind]. rewrite Hb. cbn [bind].
    eexists. split; [reflexivity|]. split; [|lia].
    split; [lia|]. split; [lia | reflexivity]. }
  { split; [lia|]. split; [lia | reflexivity]. }
  { lia. }
  cbn [bind snd]. exists band. split; [|lia].
  do 3 f_equal. unfold own. lia.
Qed.

Lemma column_phase_spec (D P : Z) (matrix numbers : list Z) :
  1 <= P -> 0 <= D -> Z.rem D P = 0 -> Z.of_nat (length matrix) = D * D ->
  Z.of_nat (length numbers) = D -> block_ordered matrix D ->
  exists numbers',
    Oetsort.column_phase D P matrix numbers = Done (matrix, numbers').
Proof.
  intros HP HD Hrem Hlen Hnumbers Hblock. unfold Oetsort.column_phase.
  assert (D = P * Z.quot D P) as HR
      by (pose proof (Z.quot_rem' D P); lia).
  assert (0 <= Z.quot D P) as HR0 by (apply Z.quot_pos; lia).
  set (R := Z.quot D P) in *.
  destruct (while_invariant
    (fun '(j, column, m, n) =>
       0 <= j <= R /\ column = j * P /\ m = matrix /\ Z.of_nat (length n) = D)
    (fun '(j, _, _, _) => Z.to_nat (R - j))
    (fun '(j, _, _, _) => j <? R)
    (fun '(j, current_column, matrix, numbers) =>
       b <- Oetsort.column_block D P current_column matrix numbers ;;
       let '(current_column, matrix, numbers) := b in
       Done (j + 1, current_column, matrix, numbers)))
    with (fuel := S (Z.to_nat R)) (s := (0, 0, matrix, numbers))
    as ([[[j column] m] n] & -> & (Hj & -> & -> & Hn) & _).
  - intros [[[j column] m] n] (Hj & -> & -> & Hn) Hc. apply Z.ltb_lt in Hc.
    destruct (column_block_spec D P (j * P) matrix n) as (n' & -> & Hn');
      [lia | assumption | assumption | assumption | nia | nia |].
    cbn [bind]. eexists. split; [reflexivity|]. split; [|lia].
    split; [lia|]. split; [lia|]. split; [reflexivity | exact Hn'].
  - split; [lia|]. split; [lia|]. split; [reflexivity | exact Hnumbers].
  - lia.
  - cbn [bind]. eauto.
Qed.

(** ** Matrices whose rows lie in order as blocks *)

Lemma cell_band (matrix : list Z) (D r c a : Z) :
  0 <= r -> 0 <= c < D ->
  cell matrix D r c = Done a <->
  band_at matrix (r * D) D !! Z.to_nat c = Some a.
Proof.
  intros Hr Hc. unfold cell. rewrite load_inv, band_at_lookup.
  case_decide; [|lia].
  replace (Z.to_nat (r * D) + Z.to_nat c)%nat with (Z.to_nat (r * D + c)) by nia.
  split; [tauto | split; [nia | assumption]].
Qed.

Lemma same_rows_cell (D : Z) (m m' : list Z) (r c a : Z) :
  same_rows D m m' -> 0 <= r < D -> 0 <= c < D ->
  cell m' D r c = Done a ->
  exists c', 0 <= c' < D /\ cell m D r c' = Done a.
Proof.
  intros [_ Hrows] Hr Hc Ha.
  apply cell_band in Ha; [|lia ..].
  apply list_elem_of_lookup_2 in Ha. rewrite (Hrows r Hr) in Ha.
  apply list_elem_of_lookup_1 in Ha as [i Hi].
  assert (Z.of_nat i < D) as Hlt.
  { rewrite band_at_lookup in Hi. case_decide; [assumption | discriminate]. }
  exists (Z.of_nat i). split; [lia|].
  apply cell_band; [lia ..|]. rewrite Nat2Z.id. exact Hi.
Qed.

Lemma same_rows_block_ordered (D : Z) (m m' : list Z) :
  same_rows D m m' -> block_ordered m D -> block_ordered m' D.
Proof.
  intros Hs Hblock r1 c1 r2 c2 a b Hr1 Hr12 Hr2 Hc1 Hc2 Ha Hb.
  destruct (same_rows_cell D m m' r1 c1 a Hs) as (c1' & Hc1' & Ha');
    [lia | lia | exact Ha |].
  destruct (same_rows_cell D m m' r2 c2 b Hs) as (c2' & Hc2' & Hb');
    [lia | lia | exact Hb |].
  exact (Hblock r1 c1' r2 c2' a b Hr1 Hr12 Hr2 Hc1' Hc2' Ha' Hb').
Qed.

Lemma block_ordered_snake (matrix : list Z) (D : Z) :
  block_ordered matrix D -> snake_order matrix D.
Proof.
  intros Hblock r c a b Hr Hr' Hc Hc' Ha Hb.
  apply (Hblock r c (r + 1) (c + 1) a b); try lia; assumption.
Qed.

Lemma block_ordered_checked (matrix : list Z) (D : Z) :
  Z.of_nat (length matrix) = D * D -> block_ordered matrix D ->
  check_sorted matrix D = Done true.
Proof.
  intros Hlen Hblock.
  destruct (check_sorted_spec matrix D Hlen) as (b & -> & Hb).
  f_equal. apply Hb, block_ordered_snake, Hblock.
Qed.

(** C7 fails: this matrix passes the check, and after one more super-step
    of three processes its cell (1,0) holds 3 above a 2 in cell (2,1). *)
Lemma super_step_breaks_snake_order :
  check_sorted [1; 0; 3; 0; 1; 2; 2; 3; 1] 3 = Done true /\
  exists matrix' numbers',
    Oetsort.super_step 3 3 [1; 0; 3; 0; 1; 2; 2; 3; 1] [0; 0; 0]
    = Done (matrix', numbers') /\
    check_sorted matrix' 3 = Done false.
Proof.
  split; [reflexivity|].
  exists [0; 1; 0; 3; 1; 2; 1; 2; 3], [0; 2; 3]. split; reflexivity.
Qed.

(** C7, as the code has it.  A matrix whose rows lie in order as blocks
    passes the check, and one more super-step (the row phase with its
    directions, then the column phase) runs to its end and leaves a
    matrix whose rows lie in order as blocks, which passes the check. *)
Theorem super_step_keeps_block_order (DIMENSION NUMBER_OF_PROCESSES : Z)
    (matrix numbers : list Z) :
  1 <= NUMBER_OF_PROCESSES -> 0 <= DIMENSION ->
  Z.rem DIMENSION NUMBER_OF_PROCESSES = 0 ->
  Z.of_nat (length matrix) = DIMENSION * DIMENSION ->
  Z.of_nat (length numbers) = DIMENSION ->
  block_ordered matrix DIMENSION ->
  check_sorted matrix DIMENSION = Done true /\
  exists matrix' numbers',
    Oetsort.super_step DIMENSION NUMBER_OF_PROCESSES matrix numbers
    = Done (matrix', numbers') /\
    block_ordered matrix' DIMENSION /\
    check_sorted matrix' DIMENSION = Done true.
Proof.
  intros HP HD Hrem Hlen Hnumbers Hblock.
  split; [apply block_ordered_checked; assumption|].
  unfold Oetsort.super_step.
  destruct (row_phase_spec DIMENSION NUMBER_OF_PROCESSES matrix)
    as (matrix1 & -> & Hrows); try assumption.
  cbn [bind].
  assert (Z.of_nat (length matrix1) = DIMENSION * DIMENSION) as Hlen1
      by (destruct Hrows as [-> _]; exact Hlen).
  pose proof (same_rows_block_ordered _ _ _ Hrows Hblock) as Hblock1.
  destruct (column_phase_spec DIMENSION NUMBER_OF_PROCESSES matrix1 numbers)
    as (numbers' & ->); try assumption.
  exists matrix1, numbers'. split; [reflexivity|].
  split; [exact Hblock1 | apply block_ordered_checked; assumption].
Qed.

Lemma super_step_keeps_block_order_witness :
  check_sorted [2; 1; 3; 4] 2 = Done true /\
  exists matrix' numbers',
    Oetsort.super_step 2 2 [2; 1; 3; 4] [0; 0] = Done (matrix', numbers') /\
    block_ordered matrix' 2 /\
    check_sorted matrix' 2 = Done true.
Proof.
  apply (super_step_keeps_block_order 2 2 [2; 1; 3; 4] [0; 0]);
    try reflexivity; try lia.
  intros r1 c1 r2 c2 a b H1 H2 H3 H4 H5 Ha Hb.
  assert (r1 = 0) as -> by lia. assert (r2 = 1) as -> by lia.
  assert (c1 = 0 \/ c1 = 1) as [-> | ->] by lia;
    assert (c2 = 0 \/ c2 = 1) as [-> | ->] by lia;
    compute in Ha, Hb; injection Ha as <-; injection Hb as <-; lia.
Defined.

(** ** Start of the programs *)

(** The transposition sort turns away a dimension of zero, whatever else
    it is given. *)
Lemma oetsort_start_rejects_zero (argc error_code P : Z) (allocated : bool)
    (type_error_code : Z) :
  Oetsort.start argc 0 error_code P allocated type_error_code = Exit 1.
Proof. unfold Oetsort.start. destruct (argc =? 2); reflexivity. Qed.

(** The shear sort turns away every dimension that is not positive. *)
Lemma shearsort_start_rejects_nonpositive (argc D error_code P : Z)
    (type_error_code : Z) :
  D <= 0 -> Shearsort.start argc D error_code P type_error_code = Exit 1.
Proof.
  intros HD. unfold Shearsort.start. destruct (argc =? 2); [|reflexivity].
  simpl. destruct (Z.leb_spec D 0); [reflexivity | lia].
Qed.



(** A run of the transposition sort with one process that reaches
    [return 0]. *)
Example master_run :
  Oetsort.master 5 4 1 [9; 1; 5; 2; 3; 8; 4; 6; 7; 0; 2; 9; 1; 5; 3; 0]
    [0; 0; 0; 0]
  = Done (0, [0; 1; 3; 5; 0; 2; 4; 5; 1; 2; 7; 9; 3; 6; 8; 9]).
Proof. reflexivity. Qed.

(** ** The loops have fuel to spare

    [OutOfFuel] comes from [Oetsort.sort_loop] alone, whose loop has no
    bound in the source. *)

Lemma load_fuel (mem : list Z) (i : Z) : load mem i <> OutOfFuel.
Proof.
  unfold load. destruct (i <? 0); [discriminate|].
  destruct (mem !! Z.to_nat i); discriminate.
Qed.

Lemma store_fuel (mem : list Z) (i v : Z) : store mem i v <> OutOfFuel.
Proof.
  unfold store. destruct ((0 <=? i) && (i <? Z.of_nat (length mem)));
    discriminate.
Qed.

Lemma gather_fuel (mem : list Z) (stride : Z) (count : nat) :
  forall ptr, gather mem ptr stride count <> OutOfFuel.
Proof.
  induction count as [|count IH]; intros ptr; simpl; [discriminate|].
  apply bind_fuel; [apply load_fuel|]. intros v _.
  apply bind_fuel; [apply IH|]. discriminate.
Qed.

Lemma scatter_fuel (stride : Z) (data : list Z) :
  forall mem ptr, scatter mem ptr stride data <> OutOfFuel.
Proof.
  induction data as [|v data IH]; intros mem ptr; simpl; [discriminate|].
  apply bind_fuel; [apply store_fuel|]. intros mem' _. apply IH.
Qed.

Lemma oet_exchange_fuel swap_if (mem : list Z) (row i : Z) :
  Oetsort.exchange swap_if mem row i <> OutOfFuel.
Proof.
  unfold Oetsort.exchange.
  apply bind_fuel; [apply load_fuel|]. intros hi _.
  apply bind_fuel; [apply load_fuel|]. intros lo _.
  destruct (swap_if hi lo); [|discriminate].
  apply bind_fuel; [apply load_fuel|]. intros temp _.
  apply bind_fuel; [apply load_fuel|]. intros v _.
  apply bind_fuel; [apply store_fuel|]. intros mem1 _. apply store_fuel.
Qed.

Lemma pair_pass_fuel swap_if (start : Z) (mem : list Z) (row len : Z) :
  0 <= start -> Oetsort.pair_pass swap_if start mem row len <> OutOfFuel.
Proof.
  intros Hstart. unfold Oetsort.pair_pass.
  apply bind_fuel; [|discriminate].
  apply (while_fuel (fun '(i, _) => Z.to_nat (len - 1 - i))).
  - intros [i m] _. apply bind_fuel; [apply oet_exchange_fuel | discriminate].
  - intros [i m] [i' m'] Hc Hb. apply Z.ltb_lt in Hc.
    apply bind_done in Hb as (m'' & _ & [= <- <-]). lia.
  - lia.
Qed.

Lemma shear_exchange_fuel swap_if (mem : list Z) (row j : Z) :
  Shearsort.exchange swap_if mem row j <> OutOfFuel.
Proof.
  unfold Shearsort.exchange.
  apply bind_fuel; [apply load_fuel|]. intros lo _.
  apply bind_fuel; [apply load_fuel|]. intros hi _.
  destruct (swap_if lo hi); [|discriminate].
  apply bind_fuel; [apply load_fuel|]. intros temp _.
  apply bind_fuel; [apply load_fuel|]. intros v _.
  apply bind_fuel; [apply store_fuel|]. intros mem1 _. apply store_fuel.
Qed.

Lemma exchange_sort_fuel swap_if (mem : list Z) (row len : Z) :
  Shearsort.exchange_sort swap_if mem row len <> OutOfFuel.
Proof.
  unfold Shearsort.exchange_sort.
  apply bind_fuel; [|discriminate].
  apply (while_fuel (fun '(i, _) => Z.to_nat (len - i))).
  - intros [i m] Hc. apply Z.ltb_lt in Hc.
    apply bind_fuel; [|discriminate].
    apply (while_fuel (fun '(j, _) => Z.to_nat (j + 1))).
    + intros [j m'] _.
      apply bind_fuel; [apply shear_exchange_fuel | discriminate].
    + intros [j m1] [j' m2] Hj Hb. apply Z.geb_le in Hj.
      apply bind_done in Hb as (m'' & _ & [= <- <-]). lia.
    + lia.
  - intros [i m] [i' m'] Hc Hb. apply Z.ltb_lt in Hc.
    apply bind_done in Hb as (t & _ & [= <- <-]). lia.
  - lia.
Qed.

Lemma compare_diagonal_fuel (matrix : list Z) (D r c : Z) (s : bool) :
  compare_diagonal matrix D r c s <> OutOfFuel.
Proof.
  unfold compare_diagonal, cell.
  apply bind_fuel; [apply load_fuel|]. intros a _.
  apply bind_fuel; [apply load_fuel|]. discriminate.
Qed.

Lemma check_sorted_fuel (matrix : list Z) (D : Z) :
  check_sorted matrix D <> OutOfFuel.
Proof.
  unfold check_sorted, check_below, check_above.
  apply bind_fuel.
  - apply bind_fuel; [|discriminate].
    apply (while_fuel_invariant (fun '(i, _) => 0 <= i)
             (fun '(i, _) => Z.to_nat (D - 1 - i))).
    + intros [i s] Hi Hc. apply andb_prop in Hc as [Hc _]. apply Z.ltb_lt in Hc.
      apply bind_fuel; [|discriminate].
      apply (while_fuel (fun '(cr, _, _) => Z.to_nat (D - 1 - cr))).
      * intros [[cr cc] s'] _.
        apply bind_fuel; [apply compare_diagonal_fuel | discriminate].
      * intros [[cr cc] s1] [[cr' cc'] s2] Hc' Hb.
        apply andb_prop in Hc' as [Hc' _]. apply Z.ltb_lt in Hc'.
        apply bind_done in Hb as (s'' & _ & [= <- <- <-]). lia.
      * lia.
    + intros [i s] [i' s'] Hi Hc Hb.
      apply andb_prop in Hc as [Hc _]. apply Z.ltb_lt in Hc.
      apply bind_done in Hb as (t & _ & [= <- <-]). lia.
    + lia.
    + lia.
  - intros s1 _. apply bind_fuel; [|discriminate].
    apply (while_fuel_invariant (fun '(j, _) => 0 <= j)
             (fun '(j, _) => Z.to_nat (D - 1 - j))).
    + intros [j s] Hj Hc. apply andb_prop in Hc as [Hc _]. apply Z.ltb_lt in Hc.
      apply bind_fuel; [|discriminate].
      apply (while_fuel (fun '(_, cc, _) => Z.to_nat (D - 1 - cc))).
      * intros [[cr cc] s'] _.
        apply bind_fuel; [apply compare_diagonal_fuel | discriminate].
      * intros [[cr cc] s2] [[cr' cc'] s3] Hc' Hb.
        apply andb_prop in Hc' as [Hc' _]. apply Z.ltb_lt in Hc'.
        apply bind_done in Hb as (s'' & _ & [= <- <- <-]). lia.
      * lia.
    + intros [j s] [j' s'] Hj Hc Hb.
      apply andb_prop in Hc as [Hc _]. apply Z.ltb_lt in Hc.
      apply bind_done in Hb as (t & _ & [= <- <-]). lia.
    + lia.
    + lia.
Qed.

Lemma column_to_numbers_fuel (matrix numbers : list Z) (D c : Z) :
  column_to_numbers matrix numbers D c <> OutOfFuel.
Proof.
  unfold column_to_numbers. apply bind_fuel; [|discriminate].
  apply (while_fuel (fun '(k, _) => Z.to_nat (D - k))).
  - intros [k n] _. unfold cell.
    apply bind_fuel; [apply load_fuel|]. intros v _.
    apply bind_fuel; [apply store_fuel | discriminate].
  - intros [k n] [k' n'] Hc Hb. apply Z.ltb_lt in Hc.
    apply bind_done in Hb as (v & _ & Hb).
    apply bind_done in Hb as (n'' & _ & [= <- <-]). lia.
  - lia.
Qed.

Lemma numbers_to_column_fuel (matrix numbers : list Z) (D c : Z) :
  numbers_to_column matrix numbers D c <> OutOfFuel.
Proof.
  unfold numbers_to_column. apply bind_fuel; [|discriminate].
  apply (while_fuel (fun '(k, _) => Z.to_nat (D - k))).
  - intros [k m] _.
    apply bind_fuel; [apply load_fuel|]. intros v _.
    apply bind_fuel; [apply store_fuel | discriminate].
  - intros [k m] [k' m'] Hc Hb. apply Z.ltb_lt in Hc.
    apply bind_done in Hb as (v & _ & Hb).
    apply bind_done in Hb as (m'' & _ & [= <- <-]). lia.
  - lia.
Qed.

Lemma oet_worker_row_fuel (PROCESS_ID D : Z) (numbers : list Z) :
  Oetsort.worker_row PROCESS_ID D numbers <> OutOfFuel.
Proof.
  unfold Oetsort.worker_row, Oetsort.osort, Oetsort.esort, Oetsort.orsort,
    Oetsort.ersort.
  destruct (Z.rem PROCESS_ID 2 =? 0);
    (apply bind_fuel; [apply pair_pass_fuel; lia|]); intros;
    apply pair_pass_fuel; lia.
Qed.

Lemma oet_worker_column_fuel (D : Z) (numbers : list Z) :
  Oetsort.worker_column D numbers <> OutOfFuel.
Proof.
  unfold Oetsort.worker_column, Oetsort.osort, Oetsort.esort.
  apply bind_fuel; [apply pair_pass_fuel; lia|]. intros.
  apply pair_pass_fuel; lia.
Qed.

Lemma row_block_fuel (D P current_row : Z) (matrix : list Z) :
  Oetsort.row_block D P current_row matrix <> OutOfFuel.
Proof.
  unfold Oetsort.row_block. apply bind_fuel.
  - apply (while_fuel (fun '(d, _, _) => Z.to_nat (P - d))).
    + intros [[d r] mail] _.
      apply bind_fuel; [apply gather_fuel | discriminate].
    + intros [[d r] mail] [[d' r'] mail'] Hc Hb. apply Z.ltb_lt in Hc.
      apply bind_done in Hb as (b & _ & [= <- <- <-]). lia.
    + lia.
  - intros [[d r] mail] _. unfold Oetsort.osort, Oetsort.esort.
    apply bind_fuel; [apply pair_pass_fuel; lia|]. intros m1 _.
    apply bind_fuel; [apply pair_pass_fuel; lia|]. intros m2 _.
    apply bind_fuel; [|discriminate].
    apply (while_fuel (fun '(s, _, _) => Z.to_nat (P - s))).
    + intros [[s pr] m] _.
      apply bind_fuel; [apply oet_worker_row_fuel|]. intros band _.
      apply bind_fuel; [apply scatter_fuel | discriminate].
    + intros [[s pr] m] [[s' pr'] m'] Hc Hb. apply Z.ltb_lt in Hc.
      apply bind_done in Hb as (b & _ & Hb).
      apply bind_done in Hb as (m'' & _ & [= <- <- <-]). lia.
    + lia.
Qed.

Lemma column_block_fuel (D P current_column : Z) (matrix numbers : list Z) :
  Oetsort.column_block D P current_column matrix numbers <> OutOfFuel.
Proof.
  unfold Oetsort.column_block. apply bind_fuel.
  - apply (while_fuel (fun '(d, _, _) => Z.to_nat (P - d))).
    + intros [[d c] mail] _.
      apply bind_fuel; [apply gather_fuel | discriminate].
    + intros [[d c] mail] [[d' c'] mail'] Hc Hb. apply Z.ltb_lt in Hc.
      apply bind_done in Hb as (b & _ & [= <- <- <-]). lia.
    + lia.
  - intros [[d c] mail] _. unfold Oetsort.osort, Oetsort.esort.
    apply bind_fuel; [apply column_to_numbers_fuel|]. intros n1 _.
    apply bind_fuel; [apply pair_pass_fuel; lia|]. intros n2 _.
    apply bind_fuel; [apply pair_pass_fuel; lia|]. intros n3 _.
    apply bind_fuel; [apply numbers_to_column_fuel|]. intros m1 _.
    apply bind_fuel; [|discriminate].
    apply (while_fuel (fun '(s, _, _) => Z.to_nat (P - s))).
    + intros [[s pc] m] _.
      apply bind_fuel; [apply oet_worker_column_fuel|]. intros band _.
      apply bind_fuel; [apply scatter_fuel | discriminate].
    + intros [[s pc] m] [[s' pc'] m'] Hc Hb. apply Z.ltb_lt in Hc.
      apply bind_done in Hb as (b & _ & Hb).
      apply bind_done in Hb as (m'' & _ & [= <- <- <-]). lia.
    + lia.
Qed.

Lemma super_step_fuel (D P : Z) (matrix numbers : list Z) :
  Oetsort.super_step D P matrix numbers <> OutOfFuel.
Proof.
  unfold Oetsort.super_step, Oetsort.row_phase, Oetsort.column_phase.
  apply bind_fuel.
  - apply bind_fuel; [|discriminate].
    apply (while_fuel (fun '(i, _, _) => Z.to_nat (Z.quot D P - i))).
    + intros [[i r] m] _.
      apply bind_fuel; [apply row_block_fuel | discriminate].
    + intros [[i r] m] [[i' r'] m'] Hc Hb. apply Z.ltb_lt in Hc.
      apply bind_done in Hb as (b & _ & [= <- <- <-]). lia.
    + lia.
  - intros m1 _. apply bind_fuel.
    + apply (while_fuel (fun '(j, _, _, _) => Z.to_nat (Z.quot D P - j))).
      * intros [[[j c] m] n] _.
        apply bind_fuel; [apply column_block_fuel|].
        intros [[c' m'] n'] _. discriminate.
      * intros [[[j c] m] n] [[[j' c'] m'] n'] Hc Hb. apply Z.ltb_lt in Hc.
        apply bind_done in Hb as ([[c2 m2] n2] & _ & [= <- <- <- <-]). lia.
      * lia.
    + intros [[[j c] m] n] _. discriminate.
Qed.

(** ** Strided transfers, cell by cell *)

Lemma store_lookup (mem : list Z) (i v : Z) (mem' : list Z) (j : nat) :
  store mem i v = Done mem' ->
  mem' !! j = if decide (j = Z.to_nat i) then Some v else mem !! j.
Proof.
  unfold store.
  destruct (Z.leb_spec 0 i); [|discriminate].
  destruct (Z.ltb_spec i (Z.of_nat (length mem))); [|discriminate].
  intros [= <-]. case_decide as Hj.
  - subst j. apply list_lookup_insert_eq. lia.
  - apply list_lookup_insert_ne. congruence.
Qed.

Lemma scatter_done (stride : Z) (data : list Z) :
  forall mem ptr,
    (forall k, 0 <= k < Z.of_nat (length data) ->
       0 <= ptr + k * stride < Z.of_nat (length mem)) ->
    exists mem', scatter mem ptr stride data = Done mem'.
Proof.
  induction data as [|v data IH]; intros mem ptr H; simpl; [eauto|].
  simpl length in H.
  rewrite store_insert by (specialize (H 0); lia). cbn [bind].
  apply IH. intros k Hk. rewrite length_insert. specialize (H (k + 1)). lia.
Qed.

Lemma scatter_lookup_miss (stride : Z) (data : list Z) :
  forall mem ptr mem' (j : nat),
    scatter mem ptr stride data = Done mem' ->
    (forall k, 0 <= k < Z.of_nat (length data) ->
       Z.of_nat j <> ptr + k * stride) ->
    mem' !! j = mem !! j.
Proof.
  induction data as [|v data IH]; intros mem ptr mem' j H Hj; simpl in H.
  - injection H as <-. reflexivity.
  - apply bind_done in H as (m1 & Hm1 & H). simpl length in Hj.
    rewrite (IH _ _ _ j H).
    + rewrite (store_lookup _ _ _ _ j Hm1). case_decide; [|reflexivity].
      specialize (Hj 0).
      unfold store in Hm1. destruct (Z.leb_spec 0 ptr); [lia | discriminate].
    + intros k Hk. specialize (Hj (k + 1)). lia.
Qed.

Lemma scatter_lookup_hit (stride : Z) (data : list Z) :
  forall mem ptr mem' (k : nat),
    1 <= stride ->
    scatter mem ptr stride data = Done mem' ->
    (k < length data)%nat ->
    mem' !! Z.to_nat (ptr + Z.of_nat k * stride) = data !! k.
Proof.
  induction data as [|v data IH]; intros mem ptr mem' k Hs H Hk; simpl in H, Hk;
    [lia|].
  apply bind_done in H as (m1 & Hm1 & H).
  assert (0 <= ptr) as Hptr.
  { unfold store in Hm1. destruct (Z.leb_spec 0 ptr); [lia | discriminate]. }
  destruct k as [|k]; simpl.
  - rewrite (scatter_lookup_miss _ _ _ _ _ _ H) by nia.
    replace (ptr + 0) with ptr by lia.
    rewrite (store_lookup _ _ _ _ _ Hm1). case_decide; [reflexivity | lia].
  - rewrite <- (IH _ _ _ k Hs H) by lia. f_equal. lia.
Qed.

Lemma gather_intro (mem : list Z) (stride : Z) (count : nat) :
  forall ptr band,
    length band = count ->
    (forall (i : nat) v, band !! i = Some v ->
       load mem (ptr + Z.of_nat i * stride) = Done v) ->
    gather mem ptr stride count = Done band.
Proof.
  induction count as [|count IH]; intros ptr band Hlen H.
  - apply length_zero_iff_nil in Hlen as ->. reflexivity.
  - destruct band as [|v band]; [discriminate|]. simpl in Hlen. simpl.
    pose proof (H 0%nat v eq_refl) as Hv.
    replace (ptr + Z.of_nat 0 * stride) with ptr in Hv by lia. rewrite Hv.
    cbn [bind].
    rewrite (IH (ptr + stride) band); [reflexivity | lia |].
    intros i w Hw. rewrite <- (H (S i) w Hw). f_equal. lia.
Qed.

(** ** Strided transfers keep the cells of the memory *)

Lemma load_shift (pre l : list Z) (q v : Z) :
  0 <= q ->
  load (pre ++ l) (Z.of_nat (length pre) + q) = Done v <-> load l q = Done v.
Proof.
  intros Hq. rewrite !load_inv, lookup_app_r by lia.
  replace (Z.to_nat (Z.of_nat (length pre) + q) - length pre)%nat
    with (Z.to_nat q) by lia.
  split; intros [_ H]; (split; [lia | exact H]).
Qed.

Lemma gather_shift (pre l : list Z) (stride : Z) (count : nat) :
  forall q band,
    0 <= q -> 0 <= stride ->
    gather (pre ++ l) (Z.of_nat (length pre) + q) stride count = Done band ->
    gather l q stride count = Done band.
Proof.
  induction count as [|count IH]; intros q band Hq Hs H; simpl in *; [exact H|].
  apply bind_done in H as (v & Hv & H). apply bind_done in H as (rest & Hrest & H).
  apply load_shift in Hv; [|exact Hq]. rewrite Hv. cbn [bind].
  rewrite (IH (q + stride) rest); [exact H | lia | lia |].
  rewrite <- Hrest. f_equal. lia.
Qed.

Lemma store_shift (pre l : list Z) (q v : Z) (l' : list Z) :
  0 <= q -> store l q v = Done l' ->
  store (pre ++ l) (Z.of_nat (length pre) + q) v = Done (pre ++ l').
Proof.
  intros Hq. unfold store. rewrite length_app.
  destruct (Z.leb_spec 0 q); [|lia].
  destruct (Z.ltb_spec q (Z.of_nat (length l))); [|discriminate].
  intros [= <-].
  destruct (Z.leb_spec 0 (Z.of_nat (length pre) + q)); [|lia].
  destruct (Z.ltb_spec (Z.of_nat (length pre) + q)
              (Z.of_nat (length pre + length l))); [|lia].
  simpl. f_equal. rewrite insert_app_r_alt by lia. do 2 f_equal. lia.
Qed.

Lemma scatter_shift (pre : list Z) (stride : Z) (data : list Z) :
  forall l q l',
    0 <= q -> 0 <= stride ->
    scatter l q stride data = Done l' ->
    scatter (pre ++ l) (Z.of_nat (length pre) + q) stride data = Done (pre ++ l').
Proof.
  induction data as [|v data IH]; intros l q l' Hq Hs H; simpl in *.
  - injection H as <-. reflexivity.
  - apply bind_done in H as (l1 & Hl1 & H).
    rewrite (store_shift pre l q v l1 Hq Hl1). cbn [bind].
    rewrite <- (IH l1 (q + stride) l'); [| lia | lia | exact H].
    f_equal. lia.
Qed.

(** What a strided transfer writes stands where what it would read stood:
    the memory is the cells read and a rest, and becomes the cells written
    and the same rest. *)
Lemma scatter_split (stride : Z) (count : nat) :
  forall l q vs ws,
    1 <= stride -> 0 <= q ->
    gather l q stride count = Done vs -> length ws = count ->
    exists l' rest,
      scatter l q stride ws = Done l' /\ l ≡ₚ vs ++ rest /\ l' ≡ₚ ws ++ rest.
Proof.
  induction count as [|count IH]; intros l q vs ws Hs Hq Hvs Hws.
  - apply length_zero_iff_nil in Hws as ->. simpl in Hvs. injection Hvs as <-.
    exists l, l. split; [reflexivity | split; reflexivity].
  - destruct ws as [|w ws]; [discriminate|]. simpl in Hws.
    simpl in Hvs. apply bind_done in Hvs as (v & Hv & Hvs).
    apply bind_done in Hvs as (vs' & Hvs' & [= <-]).
    apply load_inv in Hv as [_ Hv].
    pose proof (take_drop_middle l (Z.to_nat q) v Hv) as Hl.
    pose proof (lookup_lt_Some _ _ _ Hv) as Hlt.
    set (pre := take (Z.to_nat q) l) in *.
    set (post := drop (S (Z.to_nat q)) l) in *.
    assert (length pre = Z.to_nat q) as Hpre
        by (unfold pre; rewrite length_take; lia).
    assert (gather post (stride - 1) stride count = Done vs') as Hpost.
    { apply (gather_shift (pre ++ [v])); [lia | lia |].
      rewrite <- app_assoc. cbn [app]. rewrite Hl, <- Hvs'. f_equal.
      rewrite length_app. simpl. lia. }
    destruct (IH post (stride - 1) vs' ws) as (post' & rest & Hsc & Hp1 & Hp2);
      [lia | lia | exact Hpost | lia |].
    exists (pre ++ w :: post'), (pre ++ rest). split; [|split].
    + simpl. rewrite <- Hl. rewrite store_app by lia. cbn [bind].
      pose proof (scatter_shift (pre ++ [w]) stride ws post (stride - 1) post')
        as Hsh.
      rewrite <- !app_assoc in Hsh. cbn [app] in Hsh.
      rewrite <- Hsh; [| lia | lia | exact Hsc]. f_equal.
      rewrite length_app. simpl. lia.
    + rewrite <- Hl, Hp1. simpl.
      rewrite <- Permutation_middle. constructor.
      rewrite !app_assoc. apply Permutation_app_tail, Permutation_app_comm.
    + rewrite Hp2. simpl.
      rewrite <- Permutation_middle. constructor.
      rewrite !app_assoc. apply Permutation_app_tail, Permutation_app_comm.
Qed.

Lemma scatter_perm (stride : Z) (count : nat) (l : list Z) (q : Z)
    (vs ws : list Z) :
  1 <= stride -> 0 <= q ->
  gather l q stride count = Done vs -> ws ≡ₚ vs ->
  exists l', scatter l q stride ws = Done l' /\ l' ≡ₚ l.
Proof.
  intros Hs Hq Hvs Hperm.
  destruct (gather_scatter _ _ _ _ _ Hvs) as [Hlen _].
  destruct (scatter_split stride count l q vs ws) as (l' & rest & H1 & H2 & H3);
    [assumption | assumption | assumption | rewrite Hperm; exact Hlen |].
  exists l'. split; [exact H1|]. rewrite H3, H2, Hperm. reflexivity.
Qed.

(** ** The row phase of the transposition sort, row by row *)

Lemma ascending_pass_perm (band : list Z) : ascending_pass band ≡ₚ band.
Proof. unfold ascending_pass. rewrite pairs_perm, odd_pairs_perm. reflexivity. Qed.

Lemma descending_pass_perm (band : list Z) : descending_pass band ≡ₚ band.
Proof. unfold descending_pass. rewrite pairs_perm, odd_pairs_perm. reflexivity. Qed.

Lemma rank_pass_perm (PROCESS_ID : Z) (band : list Z) :
  rank_pass PROCESS_ID band ≡ₚ band.
Proof.
  unfold rank_pass. destruct (Z.rem PROCESS_ID 2 =? 0);
    [apply ascending_pass_perm | apply descending_pass_perm].
Qed.

Lemma rank_pass_length (PROCESS_ID : Z) (band : list Z) :
  length (rank_pass PROCESS_ID band) = length band.
Proof. rewrite rank_pass_perm. reflexivity. Qed.

Lemma worker_row_exact (PROCESS_ID D : Z) (numbers : list Z) :
  Z.of_nat (length numbers) = D ->
  Oetsort.worker_row PROCESS_ID D numbers = Done (rank_pass PROCESS_ID numbers).
Proof.
  intros <-. unfold Oetsort.worker_row, Oetsort.osort, Oetsort.esort,
    Oetsort.orsort, Oetsort.ersort, rank_pass, ascending_pass, descending_pass.
  destruct (Z.rem PROCESS_ID 2 =? 0).
  - rewrite pair_pass_odd_whole. cbn [bind].
    rewrite <- (odd_pairs_length Z.ltb numbers). apply pair_pass_even_whole.
  - rewrite pair_pass_odd_whole. cbn [bind].
    rewrite <- (odd_pairs_length Z.gtb numbers). apply pair_pass_even_whole.
Qed.

Lemma worker_column_exact (D : Z) (numbers : list Z) :
  Z.of_nat (length numbers) = D ->
  Oetsort.worker_column D numbers = Done (ascending_pass numbers).
Proof.
  intros <-. unfold Oetsort.worker_column, Oetsort.osort, Oetsort.esort,
    ascending_pass.
  rewrite pair_pass_odd_whole. cbn [bind].
  rewrite <- (odd_pairs_length Z.ltb numbers). apply pair_pass_even_whole.
Qed.

Lemma set_band_perm (mem : list Z) (row : Z) (band : list Z) :
  0 <= row -> row + Z.of_nat (length band) <= Z.of_nat (length mem) ->
  band ≡ₚ band_at mem row (Z.of_nat (length band)) ->
  set_band mem row band ≡ₚ mem.
Proof.
  intros Hrow Hlen Hband.
  destruct (band_frame mem row (Z.of_nat (length band))) as (Hsplit & _ & _);
    [lia | lia | lia |].
  rewrite Hsplit at 2. unfold set_band. rewrite <- Hband.
  replace (Z.to_nat (row + Z.of_nat (length band)))
    with (Z.to_nat row + length band)%nat by lia.
  reflexivity.
Qed.

Lemma band_at_set_band_len (mem : list Z) (row len : Z) (band : list Z) :
  Z.of_nat (length band) = len ->
  0 <= row -> row + len <= Z.of_nat (length mem) ->
  band_at (set_band mem row band) row len = band.
Proof. intros <- Hrow Hlen. apply band_at_set_band; assumption. Qed.

Lemma set_band_twice (mem : list Z) (row : Z) (band band' : list Z) :
  length band = length band' ->
  0 <= row -> row + Z.of_nat (length band) <= Z.of_nat (length mem) ->
  set_band (set_band mem row band) row band' = set_band mem row band'.
Proof.
  intros Hsame Hrow Hlen. apply list_eq. intros j.
  rewrite !set_band_lookup by (rewrite ?set_band_length; lia).
  repeat case_decide; try lia; reflexivity.
Qed.

(** The master's own row: [osort], then [esort], in place. *)
Lemma own_row_exact (D r : Z) (matrix : list Z) :
  Z.of_nat (length matrix) = D * D -> 0 <= r < D ->
  (matrix1 <- Oetsort.osort matrix (r * D) D ;; Oetsort.esort matrix1 (r * D) D)
  = Done (set_band matrix (r * D) (ascending_pass (band_at matrix (r * D) D))).
Proof.
  intros Hlen Hr. unfold Oetsort.osort, Oetsort.esort, ascending_pass.
  rewrite pair_pass_odd_band by nia. cbn [bind].
  set (band := band_at matrix (r * D) D).
  assert (Z.of_nat (length band) = D) as Hband by (apply band_at_length; nia).
  assert (Z.of_nat (length (odd_pairs Z.ltb band)) = D) as Hband1
      by (rewrite odd_pairs_length; exact Hband).
  rewrite pair_pass_even_band
    by (rewrite ?set_band_length; rewrite ?odd_pairs_length; nia).
  f_equal. rewrite band_at_set_band_len by (try assumption; nia).
  apply set_band_twice; [rewrite pairs_length; reflexivity | nia | nia].
Qed.

Lemma row_block_exact (D P current_row : Z) (matrix : list Z) :
  1 <= P -> Z.of_nat (length matrix) = D * D ->
  0 <= current_row -> current_row + P <= D ->
  exists matrix',
    Oetsort.row_block D P current_row matrix = Done (current_row + P, matrix') /\
    length matrix' = length matrix /\ matrix' ≡ₚ matrix /\
    forall r, 0 <= r < D ->
      band_at matrix' (r * D) D =
      if decide (current_row <= r < current_row + P)
      then rank_pass (if decide (r = current_row + P - 1) then 0
                      else r - current_row + 1)
             (band_at matrix (r * D) D)
      else band_at matrix (r * D) D.
Proof.
  intros HP Hlen Hcr Hfit. unfold Oetsort.row_block.
  destruct (while_invariant
    (fun '(destination, row, mail) =>
       1 <= destination <= P /\ row = current_row + destination - 1 /\
       forall d, 1 <= d < destination ->
         mail d = band_at matrix ((current_row + d - 1) * D) D)
    (fun '(destination, _, _) => Z.to_nat (P - destination))
    (fun '(destination, _, _) => destination <? P)
    (fun '(destination, current_row, mail) =>
       band <- extract_row matrix D current_row ;;
       Done (destination + 1, current_row + 1, <[destination := band]> mail)))
    with (fuel := S (Z.to_nat P)) (s := (1, current_row, Oetsort.no_mail))
    as ([[destination row] mail] & -> & (Hd & -> & Hmail) & Hexit).
  { intros [[d row] mail] (Hd & -> & Hmail) Hc. apply Z.ltb_lt in Hc.
    rewrite extract_row_band by (try assumption; lia). cbn [bind].
    eexists. split; [reflexivity|]. split; [|lia].
    split; [lia|]. split; [lia|]. intros d' Hd'.
    destruct (Z.eq_dec d' d) as [->|Hne].
    - rewrite fn_lookup_insert. reflexivity.
    - rewrite fn_lookup_insert_ne by congruence. apply Hmail. lia. }
  { split; [lia|]. split; [lia|]. intros d Hd. lia. }
  { lia. }
  apply Z.ltb_ge in Hexit. assert (destination = P) as -> by lia.
  cbn [bind].
  set (own := current_row + P - 1).
  pose proof (own_row_exact D own matrix Hlen ltac:(unfold own; lia)) as Hown.
  destruct (Oetsort.osort matrix (own * D) D) as [matrix1| |] eqn:H1;
    try discriminate.
  cbn [bind] in Hown |- *. rewrite Hown. cbn [bind]. clear H1 Hown matrix1.
  set (band0 := ascending_pass (band_at matrix (own * D) D)).
  assert (Z.of_nat (length (band_at matrix (own * D) D)) = D) as Hl0
      by (apply band_at_length; unfold own; nia).
  assert (Z.of_nat (length band0) = D) as Hb0
      by (unfold band0; rewrite ascending_pass_perm; exact Hl0).
  set (matrix2 := set_band matrix (own * D) band0).
  destruct (while_invariant
    (fun '(source, row, m) =>
       1 <= source <= P /\ row = current_row + source - 1 /\
       length m = length matrix /\ m ≡ₚ matrix /\
       forall r, 0 <= r < D ->
         band_at m (r * D) D =
         if decide (current_row <= r < current_row + source - 1)
         then rank_pass (r - current_row + 1) (band_at matrix (r * D) D)
         else if decide (r = own) then band0
              else band_at matrix (r * D) D)
    (fun '(source, _, _) => Z.to_nat (P - source))
    (fun '(source, _, _) => source <? P)
    (fun '(source, previous_row, matrix) =>
       band <- Oetsort.worker_row source D (mail source) ;;
       matrix' <- deposit_row matrix D previous_row band ;;
       Done (source + 1, previous_row + 1, matrix')))
    with (fuel := S (Z.to_nat P)) (s := (1, current_row, matrix2))
    as ([[source row] m] & -> & (Hsrc & -> & Hlm & Hpm & Hrows) & Hexit2).
  { intros [[src row] m] (Hsrc & -> & Hlm & Hpm & Hrows) Hc.
    apply Z.ltb_lt in Hc.
    set (prow := current_row + src - 1).
    assert (0 <= prow < D) as Hprow by (unfold prow; lia).
    rewrite (Hmail src) by lia. fold prow.
    assert (Z.of_nat (length (band_at matrix (prow * D) D)) = D) as Hlo
        by (apply band_at_length; nia).
    rewrite worker_row_exact by exact Hlo. cbn [bind].
    set (band := rank_pass src (band_at matrix (prow * D) D)).
    assert (Z.of_nat (length band) = D) as Hb
        by (unfold band; rewrite rank_pass_length; exact Hlo).
    rewrite deposit_row_band by (try assumption; lia). cbn [bind].
    eexists. split; [reflexivity|]. split; [|lia].
    split; [lia|]. split; [unfold prow; lia|].
    assert (band_at m (prow * D) D = band_at matrix (prow * D) D) as Hsame.
    { rewrite (Hrows prow Hprow). unfold prow, own.
      repeat case_decide; try lia; reflexivity. }
    split; [rewrite set_band_length by nia; exact Hlm|].
    split.
    { rewrite set_band_perm; [exact Hpm | nia | nia |].
      rewrite Hb, Hsame. apply rank_pass_perm. }
    intros r Hr. destruct (Z.eq_dec r prow) as [->|Hne].
    - rewrite band_at_set_band_len by (try assumption; nia).
      unfold band, prow. repeat case_decide; try lia.
      f_equal. lia.
    - rewrite band_at_set_band_other by nia. rewrite (Hrows r Hr).
      unfold prow in Hne. repeat case_decide; try lia; reflexivity. }
  { split; [lia|]. split; [lia|].
    split; [apply set_band_length; unfold own; nia|].
    split; [apply set_band_perm; [unfold own; nia | unfold own; nia |];
            rewrite Hb0; apply ascending_pass_perm|].
    intros r Hr. case_decide; [lia|]. case_decide as Hown.
    - subst r. unfold matrix2.
      apply band_at_set_band_len; [exact Hb0 | unfold own; nia..].
    - unfold matrix2. apply band_at_set_band_other; unfold own in *; nia. }
  { lia. }
  apply Z.ltb_ge in Hexit2. assert (source = P) as -> by lia.
  cbn [bind snd]. exists m. split; [do 2 f_equal; unfold own; lia|].
  split; [exact Hlm|]. split; [exact Hpm|].
  intros r Hr. rewrite (Hrows r Hr). unfold own.
  repeat case_decide; try lia; try reflexivity.
  subst r. reflexivity.
Qed.

Lemma row_rank_block (P i r : Z) :
  1 <= P -> i * P <= r < i * P + P ->
  row_rank P r = if decide (r = i * P + P - 1) then 0 else r - i * P + 1.
Proof.
  intros HP Hr. unfold row_rank.
  assert (r mod P = r - i * P) as ->
      by (symmetry; apply (Z.mod_unique_pos r P i); lia).
  destruct (Z.eqb_spec (r - i * P) (P - 1)); case_decide; lia.
Qed.

Lemma row_phase_exact (D P : Z) (matrix : list Z) :
  1 <= P -> 0 <= D -> Z.rem D P = 0 -> Z.of_nat (length matrix) = D * D ->
  exists matrix',
    Oetsort.row_phase D P matrix = Done matrix' /\
    length matrix' = length matrix /\ matrix' ≡ₚ matrix /\
    forall r, 0 <= r < D ->
      band_at matrix' (r * D) D =
      rank_pass (row_rank P r) (band_at matrix (r * D) D).
Proof.
  intros HP HD Hrem Hlen. unfold Oetsort.row_phase.
  assert (D = P * Z.quot D P) as HR
      by (pose proof (Z.quot_rem' D P); lia).
  assert (0 <= Z.quot D P) as HR0 by (apply Z.quot_pos; lia).
  set (R := Z.quot D P) in *.
  destruct (while_invariant
    (fun '(i, row, m) =>
       0 <= i <= R /\ row = i * P /\
       length m = length matrix /\ m ≡ₚ matrix /\
       forall r, 0 <= r < D ->
         band_at m (r * D) D =
         if decide (r < i * P)
         then rank_pass (row_rank P r) (band_at matrix (r * D) D)
         else band_at matrix (r * D) D)
    (fun '(i, _, _) => Z.to_nat (R - i))
    (fun '(i, _, _) => i <? R)
    (fun '(i, current_row, matrix) =>
       b <- Oetsort.row_block D P current_row matrix ;;
       Done (i + 1, fst b, snd b)))
    with (fuel := S (Z.to_nat R)) (s := (0, 0, matrix))
    as ([[i row] m] & -> & (Hi & -> & Hlm & Hpm & Hrows) & Hexit).
  - intros [[i row] m] (Hi & -> & Hlm & Hpm & Hrows) Hc. apply Z.ltb_lt in Hc.
    destruct (row_block_exact D P (i * P) m) as (m' & -> & Hl' & Hp' & Hr');
      [lia | lia | nia | nia |].
    cbn [bind fst snd]. eexists. split; [reflexivity|]. split; [|lia].
    split; [lia|]. split; [lia|]. split; [congruence|].
    split; [rewrite Hp'; exact Hpm|].
    intros r Hr. rewrite (Hr' r Hr), (Hrows r Hr).
    destruct (decide (i * P <= r < i * P + P)) as [Hin|Hout].
    + rewrite (row_rank_block P i r HP Hin).
      repeat case_decide; try lia; reflexivity.
    + repeat case_decide; try lia; reflexivity.
  - split; [lia|]. split; [lia|]. split; [reflexivity|].
    split; [reflexivity|]. intros r Hr. case_decide; [lia | reflexivity].
  - lia.
  - cbn [bind snd]. exists m. split; [reflexivity|].
    split; [exact Hlm|]. split; [exact Hpm|].
    intros r Hr. rewrite (Hrows r Hr).
    assert (i = R) as -> by lia. case_decide; [reflexivity | nia].
Qed.

(** ** The column phase of the transposition sort, column by column *)

Lemma column_cells_apart (D c c' i k : Z) :
  0 <= c < D -> 0 <= c' < D -> c <> c' -> c' + i * D <> c + k * D.
Proof.
  intros Hc Hc' Hne Heq.
  assert ((i - k) * D = c - c') as H by lia.
  destruct (Z.lt_trichotomy i k) as [Hlt|[->|Hgt]]; [nia | lia | nia].
Qed.

Lemma deposit_column_length (matrix : list Z) (D c : Z) (band matrix' : list Z) :
  deposit_column matrix D c band = Done matrix' ->
  length matrix' = length matrix.
Proof. unfold deposit_column. apply scatter_length. Qed.

Lemma deposit_column_same (matrix : list Z) (D c : Z) (band matrix' : list Z) :
  Z.of_nat (length matrix) = D * D -> 0 <= c < D ->
  Z.of_nat (length band) = D ->
  deposit_column matrix D c band = Done matrix' ->
  extract_column matrix' D c = Done band.
Proof.
  intros Hlen Hc Hband Hdep. unfold extract_column, deposit_column in *.
  apply gather_intro; [lia|]. intros i v Hi.
  apply load_inv. split; [apply lookup_lt_Some in Hi; nia|].
  rewrite (scatter_lookup_hit D band matrix c matrix' i ltac:(lia) Hdep);
    [exact Hi|].
  eapply lookup_lt_Some; eauto.
Qed.

Lemma deposit_column_other (matrix : list Z) (D c : Z) (band matrix' : list Z)
    (c' : Z) (column : list Z) :
  0 <= c < D -> 0 <= c' < D -> c' <> c ->
  deposit_column matrix D c band = Done matrix' ->
  extract_column matrix D c' = Done column ->
  extract_column matrix' D c' = Done column.
Proof.
  intros Hc Hc' Hne Hdep Hcol. unfold extract_column, deposit_column in *.
  destruct (gather_scatter _ _ _ _ _ Hcol) as [Hl _].
  apply gather_intro; [exact Hl|]. intros i v Hi.
  pose proof (gather_lookup _ _ _ _ _ _ _ Hcol Hi) as Hv.
  apply load_inv in Hv as [H0 Hv]. apply load_inv. split; [exact H0|].
  rewrite (scatter_lookup_miss _ _ _ _ _ _ Hdep); [exact Hv|].
  intros k Hk. rewrite Z2Nat.id by lia.
  apply column_cells_apart; lia.
Qed.

Lemma deposit_column_perm (matrix : list Z) (D c : Z) (column band : list Z) :
  0 <= c < D -> extract_column matrix D c = Done column -> band ≡ₚ column ->
  exists matrix',
    deposit_column matrix D c band = Done matrix' /\ matrix' ≡ₚ matrix.
Proof.
  intros Hc Hcol Hperm. unfold extract_column, deposit_column in *.
  eapply scatter_perm; eauto; lia.
Qed.

Lemma extract_column_length (matrix : list Z) (D c : Z) (column : list Z) :
  0 <= D -> extract_column matrix D c = Done column ->
  Z.of_nat (length column) = D.
Proof.
  intros HD Hcol. unfold extract_column in Hcol.
  destruct (gather_scatter _ _ _ _ _ Hcol) as [Hl _]. lia.
Qed.

Lemma column_block_exact (D P current_column : Z) (matrix numbers : list Z) :
  1 <= P -> Z.of_nat (length matrix) = D * D ->
  Z.of_nat (length numbers) = D ->
  0 <= current_column -> current_column + P <= D ->
  exists matrix' numbers',
    Oetsort.column_block D P current_column matrix numbers
    = Done (current_column + P, matrix', numbers') /\
    Z.of_nat (length numbers') = D /\
    length matrix' = length matrix /\ matrix' ≡ₚ matrix /\
    forall c column, 0 <= c < D ->
      extract_column matrix D c = Done column ->
      extract_column matrix' D c =
      Done (if decide (current_column <= c < current_column + P)
            then ascending_pass column else column).
Proof.
  intros HP Hlen Hnumbers Hcc Hfit. unfold Oetsort.column_block.
  destruct (while_invariant
    (fun '(destination, column, mail) =>
       1 <= destination <= P /\ column = current_column + destination - 1 /\
       forall d, 1 <= d < destination ->
         extract_column matrix D (current_column + d - 1) = Done (mail d))
    (fun '(destination, _, _) => Z.to_nat (P - destination))
    (fun '(destination, _, _) => destination <? P)
    (fun '(destination, current_column, mail) =>
       band <- extract_column matrix D current_column ;;
       Done (destination + 1, current_column + 1, <[destination := band]> mail)))
    with (fuel := S (Z.to_nat P)) (s := (1, current_column, Oetsort.no_mail))
    as ([[destination column] mail] & -> & (Hd & -> & Hmail) & Hexit).
  { intros [[d column] mail] (Hd & -> & Hmail) Hc. apply Z.ltb_lt in Hc.
    destruct (extract_column_in_bounds matrix D (current_column + d - 1))
      as [band Hband]; [assumption | lia |].
    rewrite Hband. cbn [bind].
    eexists. split; [reflexivity|]. split; [|lia].
    split; [lia|]. split; [lia|]. intros d' Hd'.
    destruct (Z.eq_dec d' d) as [->|Hne].
    - rewrite fn_lookup_insert. exact Hband.
    - rewrite fn_lookup_insert_ne by congruence. apply Hmail. lia. }
  { split; [lia|]. split; [lia|]. intros d Hd. lia. }
  { lia. }
  apply Z.ltb_ge in Hexit. assert (destination = P) as -> by lia.
  cbn [bind].
  set (own := current_column + P - 1).
  assert (0 <= own < D) as Hown by (unfold own; lia).
  destruct (extract_column_in_bounds matrix D own) as [band Hband];
    [assumption | lia |].
  assert (Z.of_nat (length band) = D) as Hlenb
      by (eapply extract_column_length; [lia | exact Hband]).
  rewrite column_to_numbers_spec, Hband by exact Hnumbers. cbn [bind].
  pose proof (worker_column_exact D band Hlenb) as Hw.
  unfold Oetsort.worker_column in Hw.
  destruct (Oetsort.osort band 0 D) as [numbers2| |]; try discriminate.
  cbn [bind] in Hw |- *. rewrite Hw. cbn [bind]. clear Hw numbers2.
  set (band0 := ascending_pass band).
  assert (Z.of_nat (length band0) = D) as Hb0
      by (unfold band0; rewrite ascending_pass_perm; exact Hlenb).
  rewrite numbers_to_column_spec by exact Hb0.
  destruct (deposit_column_perm matrix D own band band0 Hown Hband
              (ascending_pass_perm band)) as (matrix1 & Hdep1 & Hperm1).
  rewrite Hdep1. cbn [bind].
  pose proof (deposit_column_length _ _ _ _ _ Hdep1) as Hlen1.
  destruct (while_invariant
    (fun '(source, column, m) =>
       1 <= source <= P /\ column = current_column + source - 1 /\
       length m = length matrix /\ m ≡ₚ matrix /\
       forall c col, 0 <= c < D ->
         extract_column matrix D c = Done col ->
         extract_column m D c =
         Done (if decide (current_column <= c < current_column + source - 1
                          \/ c = own)
               then ascending_pass col else col))
    (fun '(source, _, _) => Z.to_nat (P - source))
    (fun '(source, _, _) => source <? P)
    (fun '(source, previous_column, matrix) =>
       band <- Oetsort.worker_column D (mail source) ;;
       matrix' <- deposit_column matrix D previous_column band ;;
       Done (source + 1, previous_column + 1, matrix')))
    with (fuel := S (Z.to_nat P)) (s := (1, current_column, matrix1))
    as ([[source column] m] & -> & (Hsrc & -> & Hlm & Hpm & Hcols) & Hexit2).
  { intros [[src column] m] (Hsrc & -> & Hlm & Hpm & Hcols) Hc.
    apply Z.ltb_lt in Hc.
    set (pcol := current_column + src - 1).
    assert (0 <= pcol < D) as Hpcol by (unfold pcol; lia).
    pose proof (Hmail src ltac:(lia)) as Hsent. fold pcol in Hsent.
    assert (Z.of_nat (length (mail src)) = D) as Hls
        by (eapply extract_column_length; [lia | exact Hsent]).
    rewrite worker_column_exact by exact Hls. cbn [bind].
    pose proof (Hcols pcol _ Hpcol Hsent) as Hnow.
    rewrite decide_False in Hnow by (unfold pcol, own; lia).
    destruct (deposit_column_perm m D pcol (mail src)
                (ascending_pass (mail src)) Hpcol Hnow
                (ascending_pass_perm _)) as (m' & Hdep & Hperm).
    rewrite Hdep. cbn [bind].
    eexists. split; [reflexivity|]. split; [|lia].
    split; [lia|]. split; [unfold pcol; lia|].
    split; [rewrite (deposit_column_length _ _ _ _ _ Hdep); exact Hlm|].
    split; [rewrite Hperm; exact Hpm|].
    intros c col Hc' Hcol. destruct (Z.eq_dec c pcol) as [->|Hne].
    - assert (col = mail src) as -> by congruence.
      rewrite decide_True by (unfold pcol; lia).
      eapply deposit_column_same; [| exact Hpcol | | exact Hdep].
      + lia.
      + rewrite ascending_pass_perm. exact Hls.
    - rewrite (deposit_column_other _ _ _ _ _ c _ Hpcol Hc' Hne Hdep
                 (Hcols c col Hc' Hcol)).
      unfold pcol in Hne. repeat case_decide; try lia; reflexivity. }
  { split; [lia|]. split; [lia|]. split; [exact Hlen1|].
    split; [exact Hperm1|].
    intros c col Hc Hcol. destruct (Z.eq_dec c own) as [->|Hne].
    - assert (col = band) as -> by congruence.
      rewrite decide_True by lia.
      eapply deposit_column_same; [exact Hlen | exact Hown | exact Hb0 | exact Hdep1].
    - rewrite decide_False by lia.
      eapply deposit_column_other; [exact Hown | exact Hc | exact Hne
                                   | exact Hdep1 | exact Hcol]. }
  { lia. }
  apply Z.ltb_ge in Hexit2. assert (source = P) as -> by lia.
  cbn [bind snd]. exists m, band0.
  split; [do 3 f_equal; unfold own; lia|].
  split; [exact Hb0|]. split; [exact Hlm|]. split; [exact Hpm|].
  intros c col Hc Hcol. rewrite (Hcols c col Hc Hcol). unfold own.
  repeat case_decide; try lia; reflexivity.
Qed.

Lemma column_phase_exact (D P : Z) (matrix numbers : list Z) :
  1 <= P -> 0 <= D -> Z.rem D P = 0 -> Z.of_nat (length matrix) = D * D ->
  Z.of_nat (length numbers) = D ->
  exists matrix' numbers',
    Oetsort.column_phase D P matrix numbers = Done (matrix', numbers') /\
    Z.of_nat (length numbers') = D /\
    length matrix' = length matrix /\ matrix' ≡ₚ matrix /\
    forall c column, 0 <= c < D ->
      extract_column matrix D c = Done column ->
      extract_column matrix' D c = Done (ascending_pass column).
Proof.
  intros HP HD Hrem Hlen Hnumbers. unfold Oetsort.column_phase.
  assert (D = P * Z.quot D P) as HR
      by (pose proof (Z.quot_rem' D P); lia).
  assert (0 <= Z.quot D P) as HR0 by (apply Z.quot_pos; lia).
  set (R := Z.quot D P) in *.
  destruct (while_invariant
    (fun '(j, column, m, n) =>
       0 <= j <= R /\ column = j * P /\ Z.of_nat (length n) = D /\
       length m = length matrix /\ m ≡ₚ matrix /\
       forall c col, 0 <= c < D ->
         extract_column matrix D c = Done col ->
         extract_column m D c =
         Done (if decide (c < j * P) then ascending_pass col else col))
    (fun '(j, _, _, _) => Z.to_nat (R - j))
    (fun '(j, _, _, _) => j <? R)
    (fun '(j, current_column, matrix, numbers) =>
       b <- Oetsort.column_block D P current_column matrix numbers ;;
       let '(current_column, matrix, numbers) := b in
       Done (j + 1, current_column, matrix, numbers)))
    with (fuel := S (Z.to_nat R)) (s := (0, 0, matrix, numbers))
    as ([[[j column] m] n] & -> & (Hj & -> & Hn & Hlm & Hpm & Hcols) & Hexit).
  - intros [[[j column] m] n] (Hj & -> & Hn & Hlm & Hpm & Hcols) Hc.
    apply Z.ltb_lt in Hc.
    destruct (column_block_exact D P (j * P) m n)
      as (m' & n' & -> & Hn' & Hl' & Hp' & Hc');
      [lia | lia | assumption | nia | nia |].
    cbn [bind]. eexists. split; [reflexivity|]. split; [|lia].
    split; [lia|]. split; [lia|]. split; [exact Hn'|].
    split; [congruence|]. split; [rewrite Hp'; exact Hpm|].
    intros c col Hc0 Hcol.
    rewrite (Hc' c _ Hc0 (Hcols c col Hc0 Hcol)).
    repeat case_decide; try lia; reflexivity.
  - split; [lia|]. split; [lia|]. split; [exact Hnumbers|].
    split; [reflexivity|]. split; [reflexivity|].
    intros c col Hc Hcol. rewrite decide_False by lia. exact Hcol.
  - lia.
  - cbn [bind]. exists m, n. split; [reflexivity|].
    split; [exact Hn|]. split; [exact Hlm|]. split; [exact Hpm|].
    intros c col Hc Hcol. rewrite (Hcols c col Hc Hcol).
    assert (j = R) as -> by lia. rewrite decide_True by nia. reflexivity.
Qed.

(** ** The transposition sort on any matrix *)

Lemma super_step_exact (D P : Z) (matrix numbers : list Z) :
  1 <= P -> 0 <= D -> Z.rem D P = 0 -> Z.of_nat (length matrix) = D * D ->
  Z.of_nat (length numbers) = D ->
  exists matrix' numbers',
    Oetsort.super_step D P matrix numbers = Done (matrix', numbers') /\
    Z.of_nat (length numbers') = D /\
    length matrix' = length matrix /\ matrix' ≡ₚ matrix.
Proof.
  intros HP HD Hrem Hlen Hnumbers. unfold Oetsort.super_step.
  destruct (row_phase_exact D P matrix HP HD Hrem Hlen)
    as (matrix1 & -> & Hl1 & Hp1 & _).
  cbn [bind].
  destruct (column_phase_exact D P matrix1 numbers HP HD Hrem
              ltac:(lia) Hnumbers)
    as (matrix2 & numbers' & -> & Hn' & Hl2 & Hp2 & _).
  exists matrix2, numbers'. split; [reflexivity|].
  split; [exact Hn'|]. split; [congruence|].
  rewrite Hp2. exact Hp1.
Qed.

Lemma sort_loop_rearranges (D P : Z) (passes : nat) :
  1 <= P -> 0 <= D -> Z.rem D P = 0 ->
  forall matrix numbers : list Z,
    Z.of_nat (length matrix) = D * D -> Z.of_nat (length numbers) = D ->
    Oetsort.sort_loop passes D P matrix numbers = OutOfFuel \/
    exists s,
      Oetsort.sort_loop passes D P matrix numbers = Done s /\
      length (fst s) = length matrix /\ fst s ≡ₚ matrix /\
      check_sorted (fst s) D = Done true.
Proof.
  intros HP HD Hrem.
  induction passes as [|passes IH]; intros matrix numbers Hlen Hnumbers;
    [left; reflexivity|].
  simpl.
  destruct (super_step_exact D P matrix numbers HP HD Hrem Hlen Hnumbers)
    as (matrix' & numbers' & -> & Hn' & Hl' & Hp').
  cbn [bind fst snd].
  destruct (check_sorted_spec matrix' D ltac:(lia)) as ([|] & Hcheck & _);
    rewrite Hcheck; cbn [bind].
  - right. exists (matrix', numbers'). auto.
  - destruct (IH matrix' numbers' ltac:(lia) Hn') as [Hfuel|(s & Hs & Hl & Hp & Hc)].
    + left. exact Hfuel.
    + right. exists s. split; [exact Hs|]. split; [congruence|].
      split; [rewrite Hp; exact Hp' | exact Hc].
Qed.

(** X1.  The row phase of the first super-step of the transposition sort
    ([oetsort.c] lines 284-300 with the workers' lines 386-402), where
    every worker still holds in [PROCESS_ID] the rank that
    [MPI_Comm_rank] gave it and has received no flag yet.  On any matrix
    of [DIMENSION * DIMENSION] cells with [DIMENSION] a multiple of the
    number of processes, the phase runs to its end without an access
    outside the matrix, and it replaces every row [r] by one odd pass
    followed by one even pass over that row, ascending if the rank that
    receives the row is even and descending if it is odd.  Within each
    block of [NUMBER_OF_PROCESSES] rows the rows go to the ranks 1, 2, ...
    in turn and the last row of the block stays with the master, rank 0. *)
Theorem first_row_phase_by_rank (DIMENSION NUMBER_OF_PROCESSES : Z)
    (matrix : list Z) :
  1 <= NUMBER_OF_PROCESSES -> 0 <= DIMENSION ->
  Z.rem DIMENSION NUMBER_OF_PROCESSES = 0 ->
  Z.of_nat (length matrix) = DIMENSION * DIMENSION ->
  exists matrix',
    Oetsort.row_phase DIMENSION NUMBER_OF_PROCESSES matrix = Done matrix' /\
    forall r, 0 <= r < DIMENSION ->
      exists band,
        extract_row matrix DIMENSION r = Done band /\
        extract_row matrix' DIMENSION r
        = Done (rank_pass (row_rank NUMBER_OF_PROCESSES r) band).
Proof.
  intros HP HD Hrem Hlen.
  destruct (row_phase_exact DIMENSION NUMBER_OF_PROCESSES matrix
              HP HD Hrem Hlen) as (matrix' & Hrun & Hl & _ & Hrows).
  exists matrix'. split; [exact Hrun|]. intros r Hr.
  exists (band_at matrix (r * DIMENSION) DIMENSION).
  rewrite !extract_row_band by (try assumption; lia).
  rewrite (Hrows r Hr). split; reflexivity.
Qed.

Lemma first_row_phase_by_rank_witness :
  exists matrix',
    Oetsort.row_phase 2 2 [4; 3; 1; 2] = Done matrix' /\
    forall r, 0 <= r < 2 ->
      exists band,
        extract_row [4; 3; 1; 2] 2 r = Done band /\
        extract_row matrix' 2 r = Done (rank_pass (row_rank 2 r) band).
Proof.
  apply (first_row_phase_by_rank 2 2 [4; 3; 1; 2]); [lia | lia | reflexivity..].
Defined.

(** X2.  The column phase of a super-step of the transposition sort
    ([oetsort.c] lines 311-334 with the workers' lines 407-412), on any
    such matrix: the phase runs to its end without an access outside the
    matrix or the buffer [numbers], and it replaces every column by one
    ascending odd pass followed by one ascending even pass over that
    column, whichever rank receives it. *)
Theorem column_phase_by_column (DIMENSION NUMBER_OF_PROCESSES : Z)
    (matrix numbers : list Z) :
  1 <= NUMBER_OF_PROCESSES -> 0 <= DIMENSION ->
  Z.rem DIMENSION NUMBER_OF_PROCESSES = 0 ->
  Z.of_nat (length matrix) = DIMENSION * DIMENSION ->
  Z.of_nat (length numbers) = DIMENSION ->
  exists matrix' numbers',
    Oetsort.column_phase DIMENSION NUMBER_OF_PROCESSES matrix numbers
    = Done (matrix', numbers') /\
    forall c, 0 <= c < DIMENSION ->
      exists column,
        extract_column matrix DIMENSION c = Done column /\
        extract_column matrix' DIMENSION c = Done (ascending_pass column).
Proof.
  intros HP HD Hrem Hlen Hnumbers.
  destruct (column_phase_exact DIMENSION NUMBER_OF_PROCESSES matrix numbers
              HP HD Hrem Hlen Hnumbers)
    as (matrix' & numbers' & Hrun & _ & _ & _ & Hcols).
  exists matrix', numbers'. split; [exact Hrun|]. intros c Hc.
  destruct (extract_column_in_bounds matrix DIMENSION c Hlen Hc)
    as [column Hcolumn].
  exists column. split; [exact Hcolumn | exact (Hcols c column Hc Hcolumn)].
Qed.

Lemma column_phase_by_column_witness :
  exists matrix' numbers',
    Oetsort.column_phase 2 2 [4; 3; 1; 2] [0; 0] = Done (matrix', numbers') /\
    forall c, 0 <= c < 2 ->
      exists column,
        extract_column [4; 3; 1; 2] 2 c = Done column /\
        extract_column matrix' 2 c = Done (ascending_pass column).
Proof.
  apply (column_phase_by_column 2 2 [4; 3; 1; 2] [0; 0]);
    [lia | lia | reflexivity..].
Defined.

(** X3.  One super-step of the transposition sort, on any such matrix,
    runs to its end without an access outside the matrix or the buffer,
    and the matrix it leaves is a rearrangement of the matrix it was
    given: no value is lost or duplicated by the transfers. *)
Theorem super_step_rearranges (DIMENSION NUMBER_OF_PROCESSES : Z)
    (matrix numbers : list Z) :
  1 <= NUMBER_OF_PROCESSES -> 0 <= DIMENSION ->
  Z.rem DIMENSION NUMBER_OF_PROCESSES = 0 ->
  Z.of_nat (length matrix) = DIMENSION * DIMENSION ->
  Z.of_nat (length numbers) = DIMENSION ->
  exists matrix' numbers',
    Oetsort.super_step DIMENSION NUMBER_OF_PROCESSES matrix numbers
    = Done (matrix', numbers') /\
    length matrix' = length matrix /\
    Z.of_nat (length numbers') = DIMENSION /\
    matrix' ≡ₚ matrix.
Proof.
  intros HP HD Hrem Hlen Hnumbers.
  destruct (super_step_exact DIMENSION NUMBER_OF_PROCESSES matrix numbers
              HP HD Hrem Hlen Hnumbers)
    as (matrix' & numbers' & Hrun & Hn & Hl & Hp).
  exists matrix', numbers'. auto.
Qed.

Lemma super_step_rearranges_witness :
  exists matrix' numbers',
    Oetsort.super_step 2 2 [4; 3; 1; 2] [0; 0] = Done (matrix', numbers') /\
    length matrix' = length [4; 3; 1; 2] /\
    Z.of_nat (length numbers') = 2 /\
    matrix' ≡ₚ [4; 3; 1; 2].
Proof.
  apply (super_step_rearranges 2 2 [4; 3; 1; 2] [0; 0]);
    [lia | lia | reflexivity..].
Defined.

(** X4.  A run of the transposition sort with one process, from the loop
    to [return 0].  With [NUMBER_OF_PROCESSES = 1] the master sorts every
    row and every column itself and sends no message, the flag of lines
    364-366 included.  On any matrix of [DIMENSION * DIMENSION] cells, and
    whatever the number of super-steps the run is given time for: either
    the loop is still running, or the program returns 0 with a matrix
    that is a rearrangement of the matrix it started with and is in snake
    order.  No such run reads or writes outside the matrix and the
    buffer. *)
Theorem single_process_runs_return_a_sorted_rearrangement
    (DIMENSION : Z) (matrix numbers : list Z) (passes : nat) :
  0 <= DIMENSION ->
  Z.of_nat (length matrix) = DIMENSION * DIMENSION ->
  Z.of_nat (length numbers) = DIMENSION ->
  Oetsort.master passes DIMENSION 1 matrix numbers = OutOfFuel \/
  exists final,
    Oetsort.master passes DIMENSION 1 matrix numbers = Done (0, final) /\
    length final = length matrix /\ final ≡ₚ matrix /\
    snake_order final DIMENSION.
Proof.
  intros HD Hlen Hnumbers. unfold Oetsort.master.
  destruct (sort_loop_rearranges DIMENSION 1 passes
              ltac:(lia) HD (Z.rem_1_r DIMENSION) matrix numbers Hlen Hnumbers)
    as [-> | (s & -> & Hl & Hp & Hc)]; [left; reflexivity | right].
  cbn [bind]. exists (fst s). split; [reflexivity|].
  split; [exact Hl|]. split; [exact Hp|].
  destruct (check_sorted_spec (fst s) DIMENSION ltac:(lia))
    as (b & Hb & Hiff).
  apply Hiff. congruence.
Qed.

Lemma single_process_runs_return_a_sorted_rearrangement_witness :
  Oetsort.master 3 2 1 [4; 3; 1; 2] [0; 0] = OutOfFuel \/
  exists final,
    Oetsort.master 3 2 1 [4; 3; 1; 2] [0; 0] = Done (0, final) /\
    length final = length [4; 3; 1; 2] /\ final ≡ₚ [4; 3; 1; 2] /\
    snake_order final 2.
Proof.
  apply (single_process_runs_return_a_sorted_rearrangement 2 [4; 3; 1; 2]
           [0; 0] 3); [lia | reflexivity..].
Defined.

(** X5.  On a matrix whose rows already lie in order as blocks the master
    of the transposition sort leaves its [do ... while] loop after the
    first super-step and returns 0.  The loop body runs before the first
    check, so the matrix the program ends with is not the input but the
    input after one row phase: the column phase of that super-step changes
    nothing. *)
Theorem master_stops_after_one_super_step
    (DIMENSION NUMBER_OF_PROCESSES : Z) (matrix numbers : list Z)
    (passes : nat) :
  1 <= NUMBER_OF_PROCESSES -> 0 <= DIMENSION ->
  Z.rem DIMENSION NUMBER_OF_PROCESSES = 0 ->
  Z.of_nat (length matrix) = DIMENSION * DIMENSION ->
  Z.of_nat (length numbers) = DIMENSION ->
  block_ordered matrix DIMENSION ->
  exists final,
    Oetsort.master (S passes) DIMENSION NUMBER_OF_PROCESSES matrix numbers
    = Done (0, final) /\
    Oetsort.row_phase DIMENSION NUMBER_OF_PROCESSES matrix = Done final.
Proof.
  intros HP HD Hrem Hlen Hnumbers Hblock.
  unfold Oetsort.master. simpl. unfold Oetsort.super_step.
  destruct (row_phase_spec DIMENSION NUMBER_OF_PROCESSES matrix)
    as (matrix1 & -> & Hrows); try assumption.
  cbn [bind].
  assert (Z.of_nat (length matrix1) = DIMENSION * DIMENSION) as Hlen1
      by (destruct Hrows as [-> _]; exact Hlen).
  pose proof (same_rows_block_ordered _ _ _ Hrows Hblock) as Hblock1.
  destruct (column_phase_spec DIMENSION NUMBER_OF_PROCESSES matrix1 numbers)
    as (numbers' & ->); try assumption.
  cbn [bind fst snd].
  rewrite (block_ordered_checked matrix1 DIMENSION Hlen1 Hblock1).
  cbn [bind fst]. exists matrix1. split; reflexivity.
Qed.

Lemma master_stops_after_one_super_step_witness :
  exists final,
    Oetsort.master 1 2 2 [1; 2; 3; 4] [0; 0] = Done (0, final) /\
    Oetsort.row_phase 2 2 [1; 2; 3; 4] = Done final.
Proof.
  apply (master_stops_after_one_super_step 2 2 [1; 2; 3; 4] [0; 0] 0);
    try reflexivity; try lia.
  intros r1 c1 r2 c2 a b H1 H2 H3 H4 H5 Ha Hb.
  assert (r1 = 0) as -> by lia. assert (r2 = 1) as -> by lia.
  assert (c1 = 0 \/ c1 = 1) as [-> | ->] by lia;
    assert (c2 = 0 \/ c2 = 1) as [-> | ->] by lia;
    compute in Ha, Hb; injection Ha as <-; injection Hb as <-; lia.
Defined.

(** ** The pair passes inside a memory *)

Lemma pair_pass_short swap_if (start : Z) (mem : list Z) (row len : Z) :
  len - 1 <= start -> Oetsort.pair_pass swap_if start mem row len = Done mem.
Proof.
  intros Hshort. unfold Oetsort.pair_pass. rewrite while_step.
  destruct (Z.ltb_spec start (len - 1)); [lia | reflexivity].
Qed.

(** X6.  Bands too short to hold a pair: [esort] and [ersort] on a band of
    at most one cell, and [osort] and [orsort] on a band of at most two
    cells, return at once; they read no cell, so the memory is returned as
    it is wherever [row] points.  The same holds of a length of zero and
    of every negative length above [INT_MIN], for which [length - 1] does
    not overflow. *)
Theorem short_bands_are_not_read (mem : list Z) (row one two : Z) :
  INT_MIN < one <= 1 -> INT_MIN < two <= 2 ->
  Oetsort.esort mem row one = Done mem /\
  Oetsort.ersort mem row one = Done mem /\
  Oetsort.osort mem row two = Done mem /\
  Oetsort.orsort mem row two = Done mem.
Proof.
  intros H1 H2.
  unfold Oetsort.esort, Oetsort.ersort, Oetsort.osort, Oetsort.orsort.
  rewrite !pair_pass_short by lia. auto.
Qed.

Lemma short_bands_are_not_read_witness :
  Oetsort.esort [] 7 1 = Done [] /\
  Oetsort.ersort [] 7 1 = Done [] /\
  Oetsort.osort [] 7 2 = Done [] /\
  Oetsort.orsort [] 7 2 = Done [].
Proof.
  apply (short_bands_are_not_read [] 7 1 2); unfold INT_MIN; lia.
Defined.

Lemma set_band_in_place (mem : list Z) (row len : Z) (band : list Z) :
  0 <= row -> 0 <= len -> row + len <= Z.of_nat (length mem) ->
  band ≡ₚ band_at mem row len ->
  length (set_band mem row band) = length mem /\
  band_at (set_band mem row band) row len ≡ₚ band_at mem row len /\
  forall j : nat,
    (j < Z.to_nat row \/ Z.to_nat (row + len) <= j)%nat ->
    set_band mem row band !! j = mem !! j.
Proof.
  intros Hrow Hlen Hmem Hband.
  assert (Z.of_nat (length band) = len) as Hl
      by (rewrite Hband; apply band_at_length; assumption).
  split; [apply set_band_length; lia|]. split.
  - rewrite band_at_set_band_len by (try assumption; lia). exact Hband.
  - intros j Hj. rewrite set_band_lookup by lia. case_decide; [lia | reflexivity].
Qed.

(** X7.  The four pair passes on a band that lies inside a larger memory,
    as the master runs them on a row of the matrix: each runs to its end,
    leaves a permutation of the band in the place of the band, and changes
    no cell outside it. *)
Theorem pair_passes_in_place (mem : list Z) (row len : Z) :
  0 <= row -> 0 <= len -> row + len <= Z.of_nat (length mem) ->
  in_place Oetsort.esort mem row len /\ in_place Oetsort.ersort mem row len /\
  in_place Oetsort.osort mem row len /\ in_place Oetsort.orsort mem row len.
Proof.
  intros Hrow Hlen Hmem.
  unfold in_place, Oetsort.esort, Oetsort.ersort, Oetsort.osort, Oetsort.orsort.
  rewrite !pair_pass_even_band, !pair_pass_odd_band by assumption.
  repeat split; eexists; (split; [reflexivity|]);
    apply set_band_in_place; try assumption;
    first [apply pairs_perm | apply odd_pairs_perm].
Qed.

Lemma pair_passes_in_place_witness :
  in_place Oetsort.esort [9; 2; 1; 4; 3; 0] 1 4 /\
  in_place Oetsort.ersort [9; 2; 1; 4; 3; 0] 1 4 /\
  in_place Oetsort.osort [9; 2; 1; 4; 3; 0] 1 4 /\
  in_place Oetsort.orsort [9; 2; 1; 4; 3; 0] 1 4.
Proof. apply (pair_passes_in_place [9; 2; 1; 4; 3; 0] 1 4); simpl; lia. Defined.

(** ** Bands that are in order already *)

Lemma descending_tail (x : Z) (band : list Z) :
  descending (x :: band) -> descending band.
Proof. intros H i a b Ha Hb. apply (H (S i) a b); assumption. Qed.

Lemma pairs_descending (band : list Z) :
  descending band -> pairs Z.gtb band = band.
Proof.
  induction band as [| a | a b l IH] using pair_ind; intros H; try reflexivity.
  simpl. pose proof (H 0%nat a b eq_refl eq_refl) as Hab.
  rewrite Z.gtb_ltb. destruct (Z.ltb_spec a b); [lia|].
  rewrite IH; [reflexivity|]. eapply descending_tail, descending_tail, H.
Qed.

Lemma odd_pairs_descending (band : list Z) :
  descending band -> odd_pairs Z.gtb band = band.
Proof.
  destruct band as [|a l]; intros H; [reflexivity|]. simpl.
  rewrite pairs_descending; [reflexivity|]. eapply descending_tail, H.
Qed.

(** X8.  A worker of the transposition sort that receives a row already in
    the order of its rank (ascending for an even rank, descending for an
    odd one) sends it back unchanged, and a worker that receives an
    ascending column sends it back unchanged. *)
Theorem workers_keep_ordered_bands (PROCESS_ID DIMENSION : Z)
    (row column : list Z) :
  Z.of_nat (length row) = DIMENSION -> Z.of_nat (length column) = DIMENSION ->
  (if Z.rem PROCESS_ID 2 =? 0 then ascending row else descending row) ->
  ascending column ->
  Oetsort.worker_row PROCESS_ID DIMENSION row = Done row /\
  Oetsort.worker_column DIMENSION column = Done column.
Proof.
  intros Hrow Hcolumn Hord Hasc. split.
  - rewrite worker_row_exact by exact Hrow. f_equal.
    unfold rank_pass, ascending_pass, descending_pass.
    destruct (Z.rem PROCESS_ID 2 =? 0).
    + rewrite odd_pairs_ascending, pairs_ascending by exact Hord. reflexivity.
    + rewrite odd_pairs_descending, pairs_descending by exact Hord. reflexivity.
  - rewrite worker_column_exact by exact Hcolumn. f_equal.
    unfold ascending_pass.
    rewrite odd_pairs_ascending, pairs_ascending by exact Hasc. reflexivity.
Qed.

Lemma workers_keep_ordered_bands_witness :
  Oetsort.worker_row 1 3 [3; 2; 1] = Done [3; 2; 1] /\
  Oetsort.worker_column 3 [1; 2; 3] = Done [1; 2; 3].
Proof.
  apply (workers_keep_ordered_bands 1 3 [3; 2; 1] [1; 2; 3]);
    try reflexivity.
  - intros [|[|[|i]]] a b Ha Hb; simpl in *; try discriminate;
      injection Ha as <-; injection Hb as <-; lia.
  - intros [|[|[|i]]] a b Ha Hb; simpl in *; try discriminate;
      injection Ha as <-; injection Hb as <-; lia.
Defined.

(** ** Deposit, then extract *)

Lemma deposit_column_done (matrix : list Z) (D c : Z) (band : list Z) :
  Z.of_nat (length matrix) = D * D -> 0 <= c < D ->
  Z.of_nat (length band) = D ->
  exists matrix', deposit_column matrix D c band = Done matrix'.
Proof.
  intros Hlen Hc Hband. unfold deposit_column.
  apply scatter_done. intros k Hk. nia.
Qed.

(** X9.  What is deposited is what is extracted.  In a matrix of
    [DIMENSION * DIMENSION] cells, a band of [DIMENSION] cells deposited as
    row [k] is the row [k] that is extracted afterwards, and every other
    row is extracted as before; the same holds for a band deposited as
    column [k] and the columns. *)
Theorem deposit_then_extract (matrix : list Z) (DIMENSION k : Z)
    (band : list Z) :
  Z.of_nat (length matrix) = DIMENSION * DIMENSION -> 0 <= k < DIMENSION ->
  Z.of_nat (length band) = DIMENSION ->
  (exists matrix',
     deposit_row matrix DIMENSION k band = Done matrix' /\
     extract_row matrix' DIMENSION k = Done band /\
     forall k', 0 <= k' < DIMENSION -> k' <> k ->
       extract_row matrix' DIMENSION k' = extract_row matrix DIMENSION k') /\
  (exists matrix',
     deposit_column matrix DIMENSION k band = Done matrix' /\
     extract_column matrix' DIMENSION k = Done band /\
     forall k', 0 <= k' < DIMENSION -> k' <> k ->
       extract_column matrix' DIMENSION k' = extract_column matrix DIMENSION k').
Proof.
  intros Hlen Hk Hband. split.
  - exists (set_band matrix (k * DIMENSION) band).
    assert (Z.of_nat (length (set_band matrix (k * DIMENSION) band))
            = DIMENSION * DIMENSION) as Hlen'
        by (rewrite set_band_length; nia).
    split; [apply deposit_row_band; assumption|]. split.
    + rewrite extract_row_band by assumption. f_equal.
      apply band_at_set_band_len; [exact Hband | nia | nia].
    + intros k' Hk' Hne. rewrite !extract_row_band by assumption. f_equal.
      apply band_at_set_band_other; nia.
  - destruct (deposit_column_done matrix DIMENSION k band Hlen Hk Hband)
      as [matrix' Hdep].
    exists matrix'. split; [exact Hdep|]. split.
    + exact (deposit_column_same matrix DIMENSION k band matrix'
               Hlen Hk Hband Hdep).
    + intros k' Hk' Hne.
      destruct (extract_column_in_bounds matrix DIMENSION k' Hlen Hk')
        as [column Hcolumn].
      rewrite Hcolumn.
      exact (deposit_column_other matrix DIMENSION k band matrix' k' column
               Hk Hk' Hne Hdep Hcolumn).
Qed.

Lemma deposit_then_extract_witness :
  (exists matrix',
     deposit_row [1; 2; 3; 4] 2 1 [8; 9] = Done matrix' /\
     extract_row matrix' 2 1 = Done [8; 9] /\
     forall k', 0 <= k' < 2 -> k' <> 1 ->
       extract_row matrix' 2 k' = extract_row [1; 2; 3; 4] 2 k') /\
  (exists matrix',
     deposit_column [1; 2; 3; 4] 2 1 [8; 9] = Done matrix' /\
     extract_column matrix' 2 1 = Done [8; 9] /\
     forall k', 0 <= k' < 2 -> k' <> 1 ->
       extract_column matrix' 2 k' = extract_column [1; 2; 3; 4] 2 k').
Proof.
  apply (deposit_then_extract [1; 2; 3; 4] 2 1 [8; 9]); [reflexivity | lia | reflexivity].
Defined.

(** ** Filling the matrix *)

Lemma scatter_app (stride : Z) (front back : list Z) :
  forall mem ptr,
    scatter mem ptr stride (front ++ back) =
    (mem' <- scatter mem ptr stride front ;;
     scatter mem' (ptr + Z.of_nat (length front) * stride) stride back).
Proof.
  induction front as [|v front IH]; intros mem ptr; simpl.
  - replace (ptr + Z.of_nat 0 * stride) with ptr by lia. reflexivity.
  - destruct (store mem ptr v) as [mem1| |]; simpl; try reflexivity.
    rewrite IH.
    replace (ptr + stride + Z.of_nat (length front) * stride)
      with (ptr + Z.of_nat (S (length front)) * stride) by lia.
    reflexivity.
Qed.

Ltac tuple_eq :=
  f_equal; repeat (apply (f_equal2 pair)); try reflexivity; lia.

(** One row of [initialize]: the inner loop stores the next draws in
    consecutive cells. *)
Lemma initialize_row (DEBUG : bool) (rand : nat -> Z) (width : Z) :
  forall (n : nat) (j matrix : Z) (drawn : nat) (mem : list Z) (fuel : nat),
    n = Z.to_nat (width - j) -> (n < fuel)%nat ->
    exists j',
      while fuel
        (fun '(j, _, _, _) => j <? width)
        (fun '(j, matrix, drawn, mem) =>
           mem' <- store mem matrix
                     (if DEBUG then Z.rem (rand drawn) 10 + 1
                      else rand drawn) ;;
           Done (j + 1, matrix + 1, S drawn, mem'))
        (j, matrix, drawn, mem)
      = (mem' <- scatter mem matrix 1
                   (map (drawn_value DEBUG rand) (seq drawn n)) ;;
         Done (j', matrix + Z.of_nat n, (drawn + n)%nat, mem')).
Proof.
  induction n as [|n IH]; intros j matrix drawn mem fuel Hn Hfuel;
    (destruct fuel as [|fuel]; [lia|]); rewrite while_step.
  - destruct (Z.ltb_spec j width); [lia|]. exists j. simpl.
    tuple_eq.
  - destruct (Z.ltb_spec j width); [|lia].
    cbn [seq map scatter]. unfold drawn_value at 1.
    destruct (store mem matrix _) as [mem1| |]; cbn [bind];
      [|exists 0; reflexivity..].
    destruct (IH (j + 1) (matrix + 1) (S drawn) mem1 fuel
                ltac:(lia) ltac:(lia)) as [j' ->].
    exists j'. destruct (scatter mem1 (matrix + 1) 1 _); cbn [bind];
      [|reflexivity..].
    tuple_eq.
Qed.

Lemma initialize_rows (DEBUG : bool) (rand : nat -> Z) (height width : Z) :
  forall (n : nat) (i matrix : Z) (drawn : nat) (mem : list Z) (fuel : nat),
    n = Z.to_nat (height - i) -> (n < fuel)%nat ->
    exists i',
      while fuel
        (fun '(i, _, _, _) => i <? height)
        (fun '(i, matrix, drawn, mem) =>
           t <- while (S (Z.to_nat width))
                  (fun '(j, _, _, _) => j <? width)
                  (fun '(j, matrix, drawn, mem) =>
                     mem' <- store mem matrix
                               (if DEBUG then Z.rem (rand drawn) 10 + 1
                                else rand drawn) ;;
                     Done (j + 1, matrix + 1, S drawn, mem'))
                  (0, matrix, drawn, mem) ;;
           let '(_, matrix, drawn, mem) := t in
           Done (i + 1, matrix, drawn, mem))
        (i, matrix, drawn, mem)
      = (mem' <- scatter mem matrix 1
                   (map (drawn_value DEBUG rand)
                      (seq drawn (n * Z.to_nat width))) ;;
         Done (i', matrix + Z.of_nat (n * Z.to_nat width),
               (drawn + n * Z.to_nat width)%nat, mem')).
Proof.
  induction n as [|n IH]; intros i matrix drawn mem fuel Hn Hfuel;
    (destruct fuel as [|fuel]; [lia|]); rewrite while_step.
  - destruct (Z.ltb_spec i height); [lia|]. exists i. simpl.
    tuple_eq.
  - destruct (Z.ltb_spec i height); [|lia].
    destruct (initialize_row DEBUG rand width (Z.to_nat width) 0 matrix drawn
                mem (S (Z.to_nat width)) ltac:(f_equal; lia) ltac:(lia))
      as [j' ->].
    replace (S n * Z.to_nat width)%nat
      with (Z.to_nat width + n * Z.to_nat width)%nat by lia.
    rewrite seq_app, map_app, scatter_app, length_map, length_seq.
    destruct (scatter mem matrix 1 _) as [mem1| |]; cbn [bind];
      [|exists 0; reflexivity..].
    destruct (IH (i + 1) (matrix + Z.of_nat (Z.to_nat width))
                (drawn + Z.to_nat width)%nat mem1 fuel
                ltac:(lia) ltac:(lia)) as [i' ->].
    exists i'.
    replace (matrix + Z.of_nat (Z.to_nat width) * 1)
      with (matrix + Z.of_nat (Z.to_nat width)) by lia.
    destruct (scatter mem1 _ 1 _); cbn [bind]; [|reflexivity..].
    tuple_eq.
Qed.

(** [initialize] is the transfer of the first [height * width] draws to
    consecutive cells, also where it leaves the memory. *)
Lemma initialize_scatter (DEBUG : bool) (rand : nat -> Z) (mem : list Z)
    (matrix height width : Z) :
  initialize DEBUG rand mem matrix height width =
  scatter mem matrix 1
    (map (drawn_value DEBUG rand)
       (seq 0 (Z.to_nat height * Z.to_nat width))).
Proof.
  unfold initialize. cbv zeta.
  destruct (initialize_rows DEBUG rand height width (Z.to_nat height) 0 matrix
              0%nat mem (S (Z.to_nat height)) ltac:(f_equal; lia) ltac:(lia))
    as [i' ->].
  destruct (scatter mem matrix 1 _); reflexivity.
Qed.

Lemma drawn_value_debug (rand : nat -> Z) (k : nat) :
  0 <= rand k -> 1 <= drawn_value true rand k <= 10.
Proof.
  intros H. unfold drawn_value.
  pose proof (Z.rem_bound_pos (rand k) 10 H ltac:(lia)). lia.
Qed.

(** X10.  [initialize] on an area of [height * width] cells that lies
    inside the memory: it runs to its end, stores the values of the
    successive calls of [rand()] in the cells of the area in the order of
    the addresses (call [k] goes to cell [k] of the area; in a build with
    [DEBUG] the value stored is [rand() % 10 + 1]), and changes no cell
    outside the area. *)
Theorem initialize_fills_the_area (DEBUG : bool) (rand : nat -> Z)
    (mem : list Z) (matrix height width : Z) :
  0 <= matrix -> 0 <= height -> 0 <= width ->
  matrix + height * width <= Z.of_nat (length mem) ->
  exists mem',
    initialize DEBUG rand mem matrix height width = Done mem' /\
    length mem' = length mem /\
    (forall k : nat, Z.of_nat k < height * width ->
       mem' !! (Z.to_nat matrix + k)%nat
       = Some (if DEBUG then Z.rem (rand k) 10 + 1 else rand k)) /\
    (forall j : nat,
       (j < Z.to_nat matrix \/ Z.to_nat (matrix + height * width) <= j)%nat ->
       mem' !! j = mem !! j).
Proof.
  intros Hm Hh Hw Hfit. rewrite initialize_scatter.
  set (area := map (drawn_value DEBUG rand)
                 (seq 0 (Z.to_nat height * Z.to_nat width))).
  assert (Z.of_nat (length area) = height * width) as Harea
      by (unfold area; rewrite length_map, length_seq; nia).
  rewrite scatter_band by lia.
  exists (set_band mem matrix area). split; [reflexivity|].
  split; [apply set_band_length; lia|].
  assert (forall k : nat, Z.of_nat k < height * width ->
            area !! k = Some (drawn_value DEBUG rand k)) as Hcell.
  { intros k Hk. unfold area. rewrite list_lookup_fmap.
    rewrite lookup_seq_lt by nia. reflexivity. }
  split.
  - intros k Hk. rewrite set_band_lookup by lia.
    case_decide; [|lia].
    replace (Z.to_nat matrix + k - Z.to_nat matrix)%nat with k by lia.
    apply Hcell, Hk.
  - intros j Hj. rewrite set_band_lookup by lia. case_decide; [lia | reflexivity].
Qed.

Lemma initialize_fills_the_area_witness :
  exists mem',
    initialize false (fun k => Z.of_nat k + 40) [0; 0; 0; 0; 0; 0] 1 2 2
    = Done mem' /\
    length mem' = length [0; 0; 0; 0; 0; 0] /\
    (forall k : nat, Z.of_nat k < 2 * 2 ->
       mem' !! (Z.to_nat 1 + k)%nat
       = Some (if false then Z.rem ((fun k => Z.of_nat k + 40) k) 10 + 1
               else (fun k => Z.of_nat k + 40) k)) /\
    (forall j : nat,
       (j < Z.to_nat 1 \/ Z.to_nat (1 + 2 * 2) <= j)%nat ->
       mem' !! j = [0; 0; 0; 0; 0; 0] !! j).
Proof.
  apply (initialize_fills_the_area false (fun k => Z.of_nat k + 40)
           [0; 0; 0; 0; 0; 0] 1 2 2); simpl; lia.
Defined.

(** X11.  In a build with [DEBUG], where [initialize] stores
    [rand() % 10 + 1], and with a [rand()] that is never negative, every
    cell of the area holds a value from 1 to 10 after the call. *)
Theorem initialize_debug_range (rand : nat -> Z) (mem : list Z)
    (matrix height width : Z) :
  0 <= matrix -> 0 <= height -> 0 <= width ->
  matrix + height * width <= Z.of_nat (length mem) ->
  (forall k, 0 <= rand k) ->
  exists mem',
    initialize true rand mem matrix height width = Done mem' /\
    Forall (fun v => 1 <= v <= 10) (band_at mem' matrix (height * width)).
Proof.
  intros Hm Hh Hw Hfit Hrand. rewrite initialize_scatter.
  set (area := map (drawn_value true rand)
                 (seq 0 (Z.to_nat height * Z.to_nat width))).
  assert (Z.of_nat (length area) = height * width) as Harea
      by (unfold area; rewrite length_map, length_seq; nia).
  rewrite scatter_band by lia.
  exists (set_band mem matrix area). split; [reflexivity|].
  rewrite band_at_set_band_len by (try assumption; lia).
  unfold area. apply Forall_forall. intros v Hv.
  apply in_map_iff in Hv as (k & <- & _).
  apply drawn_value_debug, Hrand.
Qed.

Lemma initialize_debug_range_witness :
  exists mem',
    initialize true (fun k => Z.of_nat k + 40) [0; 0; 0; 0; 0; 0] 1 2 2
    = Done mem' /\
    Forall (fun v => 1 <= v <= 10) (band_at mem' 1 (2 * 2)).
Proof.
  apply (initialize_debug_range (fun k => Z.of_nat k + 40)
           [0; 0; 0; 0; 0; 0] 1 2 2); simpl; lia.
Defined.

(** ** The exchange sort and the cell below the band *)

(** Where the cell below the band belongs to the memory, the routine is
    [length] inner loops over that cell and the band. *)
Lemma exchange_sort_set_band swap_if (mem : list Z) (row len : Z) :
  1 <= row -> 0 <= len -> row + len <= Z.of_nat (length mem) ->
  Shearsort.exchange_sort swap_if mem row len =
  Done (set_band mem (row - 1)
          (Nat.iter (Z.to_nat len) (bubble swap_if)
             (band_at mem (row - 1) (len + 1)))).
Proof.
  intros Hrow Hlen Hmem.
  destruct (band_frame mem (row - 1) (len + 1)) as (Hsplit & Hpre & Hext);
    [lia | lia | lia |].
  rewrite Hsplit at 1.
  rewrite exchange_sort_spec by lia.
  unfold set_band. rewrite iter_bubble_length. do 4 f_equal. lia.
Qed.

Lemma band_at_cons (mem : list Z) (row len below : Z) :
  1 <= row -> 0 <= len -> mem !! Z.to_nat (row - 1) = Some below ->
  band_at mem (row - 1) (len + 1) = below :: band_at mem row len.
Proof.
  intros Hrow Hlen Hbelow. apply list_eq. intros [|i].
  - rewrite band_at_lookup. case_decide; [|lia].
    rewrite Nat.add_0_r. exact Hbelow.
  - simpl. rewrite !band_at_lookup. repeat case_decide; try lia; [|reflexivity].
    f_equal. lia.
Qed.

(** With a cell below the band that may stand before every cell of the
    band, the routine sorts the band and nothing else. *)
Lemma exchange_sort_above_a_bound swap_if (mem : list Z) (row len below : Z) :
  (forall x y, swap_if x y = true -> swap_if y x = false) ->
  (forall x y z, swap_if x y = false -> swap_if y z = false -> swap_if x z = false) ->
  1 <= row -> 0 <= len -> row + len <= Z.of_nat (length mem) ->
  mem !! Z.to_nat (row - 1) = Some below ->
  Forall (before swap_if below) (band_at mem row len) ->
  exists band,
    Shearsort.exchange_sort swap_if mem row len = Done (set_band mem row band) /\
    ordered swap_if band /\ band ≡ₚ band_at mem row len.
Proof.
  intros Htotal Htrans Hrow Hlen Hmem Hbelow Hbound.
  assert (Z.of_nat (length (band_at mem row len)) = len) as Hl
      by (apply band_at_length; lia).
  exists (Nat.iter (Z.to_nat len) (bubble swap_if) (band_at mem row len)).
  split; [|split].
  - rewrite exchange_sort_set_band by assumption. f_equal.
    rewrite (band_at_cons mem row len below) by assumption.
    rewrite (iter_bubble_low swap_if) by exact Hbound.
    apply list_eq. intros j.
    rewrite !set_band_lookup
      by (simpl length; rewrite ?iter_bubble_length; lia).
    simpl length. rewrite iter_bubble_length.
    destruct (decide (j = Z.to_nat (row - 1))) as [->|Hne];
      repeat case_decide; try lia; try reflexivity.
    + rewrite Nat.sub_diag. simpl. symmetry. exact Hbelow.
    + replace (j - Z.to_nat (row - 1))%nat with (S (j - Z.to_nat row)) by lia.
      reflexivity.
  - apply (iter_bubble_ordered swap_if Htotal Htrans). lia.
  - apply iter_bubble_perm.
Qed.

Lemma gtb_total (x y : Z) : (x >? y) = true -> (y >? x) = false.
Proof. rewrite !Z.gtb_ltb, Z.ltb_lt, Z.ltb_ge. lia. Qed.

Lemma gtb_trans (x y z : Z) :
  (x >? y) = false -> (y >? z) = false -> (x >? z) = false.
Proof. rewrite !Z.gtb_ltb, !Z.ltb_ge. lia. Qed.

Lemma ltb_total (x y : Z) : (x <? y) = true -> (y <? x) = false.
Proof. rewrite Z.ltb_lt, Z.ltb_ge. lia. Qed.

Lemma ltb_trans (x y z : Z) :
  (x <? y) = false -> (y <? z) = false -> (x <? z) = false.
Proof. rewrite !Z.ltb_ge. lia. Qed.

Lemma ordered_gtb (band : list Z) : ordered Z.gtb band <-> ascending band.
Proof.
  split; intros H i a b Ha Hb; specialize (H i a b Ha Hb);
    unfold before in *; rewrite Z.gtb_ltb, Z.ltb_ge in *; exact H.
Qed.

Lemma ordered_ltb (band : list Z) : ordered Z.ltb band <-> descending band.
Proof.
  split; intros H i a b Ha Hb; specialize (H i a b Ha Hb);
    unfold before in *; rewrite Z.ltb_ge in *; exact H.
Qed.

(** X12.  What [sort] and [rsort] do where the cell below the band can be
    addressed ([1 <= row]): they run to their end and sort the [length + 1]
    cells that start one cell below the band, [sort] into ascending and
    [rsort] into descending order; those cells come back as a permutation
    of themselves, the memory keeps its size, and no cell outside them is
    changed.  The cell below the band takes part in the exchanges. *)
Theorem exchange_sorts_take_in_the_cell_below (mem : list Z) (row len : Z) :
  1 <= row -> 0 <= len -> row + len <= Z.of_nat (length mem) ->
  (exists mem',
     Shearsort.sort mem row len = Done mem' /\
     length mem' = length mem /\
     ascending (band_at mem' (row - 1) (len + 1)) /\
     band_at mem' (row - 1) (len + 1) ≡ₚ band_at mem (row - 1) (len + 1) /\
     forall j : nat,
       (j < Z.to_nat (row - 1) \/ Z.to_nat (row + len) <= j)%nat ->
       mem' !! j = mem !! j) /\
  (exists mem',
     Shearsort.rsort mem row len = Done mem' /\
     length mem' = length mem /\
     descending (band_at mem' (row - 1) (len + 1)) /\
     band_at mem' (row - 1) (len + 1) ≡ₚ band_at mem (row - 1) (len + 1) /\
     forall j : nat,
       (j < Z.to_nat (row - 1) \/ Z.to_nat (row + len) <= j)%nat ->
       mem' !! j = mem !! j).
Proof.
  intros Hrow Hlen Hmem.
  assert (Z.of_nat (length (band_at mem (row - 1) (len + 1))) = len + 1) as Hl
      by (apply band_at_length; lia).
  unfold Shearsort.sort, Shearsort.rsort.
  rewrite !exchange_sort_set_band by assumption.
  split; eexists; (split; [reflexivity|]).
  - destruct (set_band_in_place mem (row - 1) (len + 1)
                (Nat.iter (Z.to_nat len) (bubble Z.gtb)
                   (band_at mem (row - 1) (len + 1))))
      as (H1 & H2 & H3); [lia | lia | lia | apply iter_bubble_perm |].
    split; [exact H1|]. split; [|split; [exact H2|]].
    + rewrite band_at_set_band_len by (rewrite ?iter_bubble_length; lia).
      apply ordered_gtb, (iter_bubble_ordered Z.gtb gtb_total gtb_trans). lia.
    + intros j Hj. apply H3. lia.
  - destruct (set_band_in_place mem (row - 1) (len + 1)
                (Nat.iter (Z.to_nat len) (bubble Z.ltb)
                   (band_at mem (row - 1) (len + 1))))
      as (H1 & H2 & H3); [lia | lia | lia | apply iter_bubble_perm |].
    split; [exact H1|]. split; [|split; [exact H2|]].
    + rewrite band_at_set_band_len by (rewrite ?iter_bubble_length; lia).
      apply ordered_ltb, (iter_bubble_ordered Z.ltb ltb_total ltb_trans). lia.
    + intros j Hj. apply H3. lia.
Qed.

Lemma exchange_sorts_take_in_the_cell_below_witness :
  (exists mem',
     Shearsort.sort [7; 4; 5; 3; 9] 1 3 = Done mem' /\
     length mem' = length [7; 4; 5; 3; 9] /\
     ascending (band_at mem' (1 - 1) (3 + 1)) /\
     band_at mem' (1 - 1) (3 + 1) ≡ₚ band_at [7; 4; 5; 3; 9] (1 - 1) (3 + 1) /\
     forall j : nat,
       (j < Z.to_nat (1 - 1) \/ Z.to_nat (1 + 3) <= j)%nat ->
       mem' !! j = [7; 4; 5; 3; 9] !! j) /\
  (exists mem',
     Shearsort.rsort [7; 4; 5; 3; 9] 1 3 = Done mem' /\
     length mem' = length [7; 4; 5; 3; 9] /\
     descending (band_at mem' (1 - 1) (3 + 1)) /\
     band_at mem' (1 - 1) (3 + 1) ≡ₚ band_at [7; 4; 5; 3; 9] (1 - 1) (3 + 1) /\
     forall j : nat,
       (j < Z.to_nat (1 - 1) \/ Z.to_nat (1 + 3) <= j)%nat ->
       mem' !! j = [7; 4; 5; 3; 9] !! j).
Proof.
  apply (exchange_sorts_take_in_the_cell_below [7; 4; 5; 3; 9] 1 3);
    simpl; lia.
Defined.

(** X13.  When [sort] and [rsort] are right.  If the cell below the band
    holds a value that is at most every cell of the band, [sort] returns
    the band in ascending order, as a permutation of itself, and changes no
    other cell; [rsort] ([reverse] true) does the same, in descending
    order, if that value is at least every cell of the band. *)
Theorem exchange_sorts_are_right_above_a_bound (reverse : bool)
    (mem : list Z) (row len below : Z) :
  1 <= row -> 0 <= len -> row + len <= Z.of_nat (length mem) ->
  mem !! Z.to_nat (row - 1) = Some below ->
  Forall (fun v => if reverse then v <= below else below <= v)
    (band_at mem row len) ->
  exists mem',
    (if reverse then Shearsort.rsort else Shearsort.sort) mem row len
    = Done mem' /\
    length mem' = length mem /\
    (if reverse then descending (band_at mem' row len)
     else ascending (band_at mem' row len)) /\
    band_at mem' row len ≡ₚ band_at mem row len /\
    forall j : nat,
      (j < Z.to_nat row \/ Z.to_nat (row + len) <= j)%nat ->
      mem' !! j = mem !! j.
Proof.
  intros Hrow Hlen Hmem Hbelow Hbound.
  assert (Z.of_nat (length (band_at mem row len)) = len) as Hl
      by (apply band_at_length; lia).
  destruct reverse.
  - destruct (exchange_sort_above_a_bound Z.ltb mem row len below
                ltb_total ltb_trans Hrow Hlen Hmem Hbelow)
      as (band & Hrun & Hord & Hperm).
    { eapply Forall_impl; [|exact Hbound]. intros v Hv.
      unfold before. apply Z.ltb_ge. exact Hv. }
    exists (set_band mem row band). split; [exact Hrun|].
    destruct (set_band_in_place mem row len band) as (H1 & H2 & H3);
      [lia | lia | lia | exact Hperm |].
    split; [exact H1|]. split; [|split; [exact H2 | exact H3]].
    rewrite band_at_set_band_len by (rewrite ?Hperm; lia).
    apply ordered_ltb, Hord.
  - destruct (exchange_sort_above_a_bound Z.gtb mem row len below
                gtb_total gtb_trans Hrow Hlen Hmem Hbelow)
      as (band & Hrun & Hord & Hperm).
    { eapply Forall_impl; [|exact Hbound]. intros v Hv.
      unfold before. rewrite Z.gtb_ltb. apply Z.ltb_ge. exact Hv. }
    exists (set_band mem row band). split; [exact Hrun|].
    destruct (set_band_in_place mem row len band) as (H1 & H2 & H3);
      [lia | lia | lia | exact Hperm |].
    split; [exact H1|]. split; [|split; [exact H2 | exact H3]].
    rewrite band_at_set_band_len by (rewrite ?Hperm; lia).
    apply ordered_gtb, Hord.
Qed.

Lemma exchange_sorts_are_right_above_a_bound_witness :
  exists mem',
    (if false then Shearsort.rsort else Shearsort.sort) [4; 6; 5; 4; 9] 1 3
    = Done mem' /\
    length mem' = length [4; 6; 5; 4; 9] /\
    (if false then descending (band_at mem' 1 3)
     else ascending (band_at mem' 1 3)) /\
    band_at mem' 1 3 ≡ₚ band_at [4; 6; 5; 4; 9] 1 3 /\
    forall j : nat,
      (j < Z.to_nat 1 \/ Z.to_nat (1 + 3) <= j)%nat ->
      mem' !! j = [4; 6; 5; 4; 9] !! j.
Proof.
  apply (exchange_sorts_are_right_above_a_bound false [4; 6; 5; 4; 9] 1 3 4);
    [lia | lia | simpl; lia | reflexivity |].
  repeat constructor; lia.
Defined.

(** X14.  [sort] and [rsort] on a band of no cell, or of a negative
    length: the outer loop does not run, no cell is read, and the memory
    is returned as it is, wherever [row] points. *)
Theorem exchange_sorts_of_nothing (mem : list Z) (row len : Z) :
  len <= 0 ->
  Shearsort.sort mem row len = Done mem /\
  Shearsort.rsort mem row len = Done mem.
Proof.
  intros Hlen. unfold Shearsort.sort, Shearsort.rsort, Shearsort.exchange_sort.
  rewrite !while_step. destruct (Z.ltb_spec 0 len); [lia|]. split; reflexivity.
Qed.

Lemma exchange_sorts_of_nothing_witness :
  Shearsort.sort [3; 1] 5 0 = Done [3; 1] /\
  Shearsort.rsort [3; 1] 5 0 = Done [3; 1].
Proof. apply (exchange_sorts_of_nothing [3; 1] 5 0). lia. Defined.

(** X15.  Every run of the shear sort that passes the tests of its start
    has as many processes as the matrix has rows, and at least one.  With
    these values the sorting steps of a super-step end with an access out
    of bounds: the master's [sort(&matrix[0][0], DIMENSION)] reads the cell
    below the matrix, [matrix[0][-1]], and a worker's [sort] or [rsort] of
    the row it received at the start of its buffer reads [numbers[-1]]. *)
Theorem accepted_runs_read_below_their_bands
    (argc DIMENSION error_code NUMBER_OF_PROCESSES type_error_code : Z)
    (D P PROCESS_ID : Z) (matrix numbers : list Z) :
  Shearsort.start argc DIMENSION error_code NUMBER_OF_PROCESSES type_error_code
  = Enter D P ->
  Z.of_nat (length matrix) = D * D ->
  Z.of_nat (length numbers) = D ->
  D = DIMENSION /\ P = D /\ 1 <= D /\
  Shearsort.master_row matrix 0 D = OutOfBounds (-1) /\
  Shearsort.worker_row PROCESS_ID numbers 0 D = OutOfBounds (-1).
Proof.
  unfold Shearsort.start. intros Hstart Hmatrix Hnumbers.
  destruct (argc =? 2); [|discriminate]. cbn [negb] in Hstart.
  destruct (Z.leb_spec DIMENSION 0); [discriminate|].
  destruct (error_code =? 0); [|discriminate]. cbn [negb] in Hstart.
  destruct (Z.eqb_spec DIMENSION NUMBER_OF_PROCESSES); [|discriminate].
  cbn [negb] in Hstart.
  destruct (type_error_code =? 0); [|discriminate]. cbn [negb] in Hstart.
  injection Hstart as <- <-.
  split; [reflexivity|]. split; [congruence|]. split; [lia|].
  unfold Shearsort.master_row, Shearsort.worker_row,
    Shearsort.sort, Shearsort.rsort.
  replace (0 + 0 * DIMENSION + 0) with 0 by lia.
  split; [apply exchange_sort_fault_in_front; nia|].
  destruct (Z.rem PROCESS_ID 2 =? 0); apply exchange_sort_fault_in_front; lia.
Qed.

Lemma accepted_runs_read_below_their_bands_witness :
  2 = 2 /\ 2 = 2 /\ 1 <= 2 /\
  Shearsort.master_row [4; 3; 2; 1] 0 2 = OutOfBounds (-1) /\
  Shearsort.worker_row 1 [2; 1] 0 2 = OutOfBounds (-1).
Proof.
  apply (accepted_runs_read_below_their_bands 2 2 0 2 0 2 2 1
           [4; 3; 2; 1] [2; 1]); reflexivity.
Defined.

(** ** The check on the smallest matrices *)

(** X16.  With a dimension of at most 1 no cell has a lower right
    neighbour: the check returns true without reading a cell, whatever the
    memory it is given, and then the shear sort ends with exit code 0. *)
Theorem check_of_a_single_cell (matrix : list Z) (DIMENSION : Z) :
  DIMENSION <= 1 ->
  check_sorted matrix DIMENSION = Done true /\
  Shearsort.finish matrix DIMENSION = Done 0.
Proof.
  intros HD.
  assert (check_sorted matrix DIMENSION = Done true) as Hcheck.
  { unfold check_sorted, check_below, check_above.
    rewrite while_step. destruct (Z.ltb_spec 0 (DIMENSION - 1)); [lia|].
    cbn [andb bind snd]. rewrite while_step.
    destruct (Z.ltb_spec 0 (DIMENSION - 1)); [lia|]. reflexivity. }
  split; [exact Hcheck|]. unfold Shearsort.finish. rewrite Hcheck. reflexivity.
Qed.

Lemma check_of_a_single_cell_witness :
  check_sorted [] 1 = Done true /\ Shearsort.finish [] 1 = Done 0.
Proof. apply (check_of_a_single_cell [] 1). lia. Defined.

(** ** From [initialize] to [return 0] *)

Lemma set_band_whole (mem band : list Z) :
  length band = length mem -> set_band mem 0 band = band.
Proof.
  intros Hlen. unfold set_band. simpl. rewrite drop_ge by lia.
  apply app_nil_r.
Qed.

(** X17.  A run of the transposition sort with one process, from
    [initialize] to [return 0], on a matrix of [DIMENSION * DIMENSION]
    cells.  [initialize] overwrites every cell of the matrix, so the
    matrix the loop starts with is the sequence of the first
    [DIMENSION * DIMENSION] draws, whatever the memory held before; and a
    run that returns ends with a rearrangement of those draws that is in
    snake order.  With one process no message is sent. *)
Theorem single_process_runs_rearrange_the_draws (DEBUG : bool)
    (rand : nat -> Z) (DIMENSION : Z) (memory numbers : list Z)
    (passes : nat) :
  0 <= DIMENSION ->
  Z.of_nat (length memory) = DIMENSION * DIMENSION ->
  Z.of_nat (length numbers) = DIMENSION ->
  exists matrix,
    initialize DEBUG rand memory 0 DIMENSION DIMENSION = Done matrix /\
    matrix = map (fun k => if DEBUG then Z.rem (rand k) 10 + 1 else rand k)
               (seq 0 (Z.to_nat (DIMENSION * DIMENSION))) /\
    (Oetsort.master passes DIMENSION 1 matrix numbers = OutOfFuel \/
     exists final,
       Oetsort.master passes DIMENSION 1 matrix numbers = Done (0, final) /\
       final ≡ₚ matrix /\ snake_order final DIMENSION).
Proof.
  intros HD Hlen Hnumbers. rewrite initialize_scatter.
  set (area := map (drawn_value DEBUG rand)
                 (seq 0 (Z.to_nat DIMENSION * Z.to_nat DIMENSION))).
  assert (Z.of_nat (length area) = DIMENSION * DIMENSION) as Harea
      by (unfold area; rewrite length_map, length_seq; nia).
  rewrite scatter_band by lia.
  rewrite set_band_whole by lia.
  exists area. split; [reflexivity|]. split.
  { unfold area. rewrite Z2Nat.inj_mul by lia. reflexivity. }
  unfold Oetsort.master.
  destruct (sort_loop_rearranges DIMENSION 1 passes
              ltac:(lia) HD (Z.rem_1_r DIMENSION) area numbers Harea Hnumbers)
    as [-> | (s & -> & Hl & Hp & Hc)]; [left; reflexivity | right].
  cbn [bind]. exists (fst s). split; [reflexivity|]. split; [exact Hp|].
  destruct (check_sorted_spec (fst s) DIMENSION ltac:(lia))
    as (b & Hb & Hiff).
  apply Hiff. congruence.
Qed.

Lemma single_process_runs_rearrange_the_draws_witness :
  exists matrix,
    initialize false (fun k => 9 - Z.of_nat k) [0; 0; 0; 0] 0 2 2
    = Done matrix /\
    matrix = map (fun k => if false
                           then Z.rem ((fun k => 9 - Z.of_nat k) k) 10 + 1
                           else (fun k => 9 - Z.of_nat k) k)
               (seq 0 (Z.to_nat (2 * 2))) /\
    (Oetsort.master 3 2 1 matrix [0; 0] = OutOfFuel \/
     exists final,
       Oetsort.master 3 2 1 matrix [0; 0] = Done (0, final) /\
       final ≡ₚ matrix /\ snake_order final 2).
Proof.
  apply (single_process_runs_rearrange_the_draws false
           (fun k => 9 - Z.of_nat k) 2 [0; 0; 0; 0] [0; 0] 3);
    [lia | reflexivity..].
Defined.

(** ** Allocating a matrix of rows *)

Lemma store_then_load (mem : list Z) (i v : Z) :
  0 <= i < Z.of_nat (length mem) ->
  (mem' <- store mem i v ;; load mem' i) = Done v /\
  store mem i v = Done (<[Z.to_nat i := v]> mem).
Proof.
  intros Hi. rewrite store_insert by exact Hi. cbn [bind].
  split; [|reflexivity]. apply load_inv. split; [lia|].
  apply list_lookup_insert_eq. lia.
Qed.

Lemma store_out_of_bounds (mem : list Z) (i v : Z) :
  Z.of_nat (length mem) <= i -> store mem i v = OutOfBounds i.
Proof.
  intros Hi. unfold store.
  destruct (Z.ltb_spec i (Z.of_nat (length mem))); [lia|].
  rewrite andb_false_r. reflexivity.
Qed.

(** The loop of [create_matrix] when every allocation succeeds and the
    matrix has more rows than columns: row [width] is stored past the end
    of the array of row pointers. *)
Lemma create_matrix_loop_overruns (calloc : nat -> Z) (height width : Z) :
  (forall k, calloc k <> 0) -> width < height ->
  forall (n : nat) (i : Z) (calls : nat) (matrix : list Z) (fuel : nat),
    n = Z.to_nat (width - i) -> 0 <= i <= width ->
    Z.of_nat (length matrix) = width -> (n < fuel)%nat ->
    while fuel
      (fun '(i, _, _, returned) => negb returned && (i <? height))
      (fun '(i, calls, matrix, _) =>
         matrix' <- store matrix i (calloc calls) ;;
         row <- load matrix' i ;;
         if row =? 0 then Done (i, S calls, matrix', true)
         else Done (i + 1, S calls, matrix', false))
      (i, calls, matrix, false)
    = OutOfBounds width.
Proof.
  intros Hcalloc Hmore.
  induction n as [|n IH]; intros i calls matrix fuel Hn Hi Hlen Hfuel;
    (destruct fuel as [|fuel]; [lia|]); rewrite while_step;
    (destruct (Z.ltb_spec i height); [|lia]); cbn [negb andb].
  - assert (i = width) as -> by lia.
    rewrite store_out_of_bounds by lia. reflexivity.
  - destruct (store_then_load matrix i (calloc calls)) as [Hload Hstore];
      [lia|].
    rewrite Hstore in Hload |- *. cbn [bind] in Hload |- *.
    rewrite Hload. cbn [bind].
    destruct (Z.eqb_spec (calloc calls) 0) as [H0|_];
      [exfalso; exact (Hcalloc calls H0)|].
    apply IH; [lia | lia | rewrite length_insert; exact Hlen | lia].
Qed.

(** X18.  [create_matrix] when every allocation succeeds.  The array of
    row pointers has [width] cells and the loop stores [height] row
    pointers in it: with [height <= width] the routine returns the array,
    whose first [height] cells hold the rows in the order of their
    allocation and whose other cells are [NULL]; with [height > width] it
    stores the pointer of row [width] past the end of the array. *)
Theorem create_matrix_needs_no_more_rows_than_columns (calloc : nat -> Z)
    (height width : Z) :
  (forall k, calloc k <> 0) -> 0 <= height -> 0 <= width ->
  create_matrix calloc height width =
  if height <=? width
  then Done (Some (map calloc (seq 1 (Z.to_nat height))
                   ++ replicate (Z.to_nat (width - height)) 0))
  else OutOfBounds width.
Proof.
  intros Hcalloc Hheight Hwidth. unfold create_matrix.
  destruct (Z.eqb_spec (calloc 0%nat) 0) as [H0|_];
    [exfalso; exact (Hcalloc 0%nat H0)|].
  destruct (Z.leb_spec height width) as [Hfit|Hmore].
  - destruct (while_invariant
      (fun '(i, calls, matrix, returned) =>
         0 <= i <= height /\ calls = S (Z.to_nat i) /\ returned = false /\
         matrix = map calloc (seq 1 (Z.to_nat i))
                  ++ replicate (Z.to_nat (width - i)) 0)
      (fun '(i, _, _, _) => Z.to_nat (height - i))
      (fun '(i, _, _, returned) => negb returned && (i <? height))
      (fun '(i, calls, matrix, _) =>
         matrix' <- store matrix i (calloc calls) ;;
         row <- load matrix' i ;;
         if row =? 0 then Done (i, S calls, matrix', true)
         else Done (i + 1, S calls, matrix', false)))
      with (fuel := S (Z.to_nat height))
           (s := (0, 1%nat, replicate (Z.to_nat width) 0, false))
      as ([[[i calls] matrix] returned] & -> & (Hi & -> & -> & ->) & Hexit).
    + intros [[[i calls] matrix] returned] (Hi & -> & -> & ->) Hc.
      cbn [negb andb] in Hc. apply Z.ltb_lt in Hc.
      set (rows := map calloc (seq 1 (Z.to_nat i))).
      assert (length rows = Z.to_nat i) as Hrows
          by (unfold rows; rewrite length_map, length_seq; reflexivity).
      destruct (store_then_load (rows ++ replicate (Z.to_nat (width - i)) 0)
                  i (calloc (S (Z.to_nat i)))) as [Hload Hstore].
      { rewrite length_app, length_replicate. lia. }
      rewrite Hstore in Hload |- *. cbn [bind] in Hload |- *.
      rewrite Hload. cbn [bind].
      destruct (Z.eqb_spec (calloc (S (Z.to_nat i))) 0) as [H0|_];
        [exfalso; exact (Hcalloc _ H0)|].
      eexists. split; [reflexivity|]. split; [|lia].
      split; [lia|]. split; [f_equal; lia|]. split; [reflexivity|].
      rewrite insert_app_r_alt by lia.
      replace (Z.to_nat i - length rows)%nat with 0%nat by lia.
      replace (Z.to_nat (width - i)) with (S (Z.to_nat (width - (i + 1))))
        by lia.
      cbn [replicate]. rewrite list_insert_0 || simpl.
      replace (Z.to_nat (i + 1)) with (S (Z.to_nat i)) by lia.
      rewrite seq_S, map_app. simpl. rewrite <- app_assoc. reflexivity.
    + split; [lia|]. split; [reflexivity|]. split; [reflexivity|].
      simpl. rewrite Z.sub_0_r. reflexivity.
    + lia.
    + cbn [bind]. cbn [negb andb] in Hexit. apply Z.ltb_ge in Hexit.
      assert (i = height) as -> by lia. reflexivity.
  - rewrite (create_matrix_loop_overruns calloc height width Hcalloc Hmore
               (Z.to_nat width) 0 1%nat (replicate (Z.to_nat width) 0));
      [reflexivity | f_equal; lia | lia | rewrite length_replicate; lia | lia].
Qed.

Lemma create_matrix_needs_no_more_rows_than_columns_witness :
  create_matrix (fun k => Z.of_nat k + 100) 3 2 =
  if 3 <=? 2
  then Done (Some (map (fun k => Z.of_nat k + 100) (seq 1 (Z.to_nat 3))
                   ++ replicate (Z.to_nat (2 - 3)) 0))
  else OutOfBounds 2.
Proof.
  apply (create_matrix_needs_no_more_rows_than_columns
           (fun k => Z.of_nat k + 100) 3 2); lia.
Defined.

(** X19.  [create_matrix] when an allocation fails: if the array of row
    pointers cannot be allocated, or if row [k] is the first that cannot
    be allocated, for a [k] below [height] and below [width], the routine
    returns [NULL]. *)
Theorem create_matrix_returns_null (calloc : nat -> Z) (height width : Z)
    (failing : nat) :
  calloc failing = 0 ->
  (forall k, (k < failing)%nat -> calloc k <> 0) ->
  Z.of_nat failing <= height -> Z.of_nat failing <= width ->
  create_matrix calloc height width = Done None.
Proof.
  intros Hfail Hbefore Hheight Hwidth. unfold create_matrix.
  destruct (Z.eqb_spec (calloc 0%nat) 0) as [|H0]; [reflexivity|].
  destruct failing as [|row]; [congruence|].
  assert (forall (n : nat) (i : Z) (matrix : list Z) (fuel : nat),
            n = (row - Z.to_nat i)%nat -> 0 <= i <= Z.of_nat row ->
            Z.of_nat (length matrix) = width -> (S n < fuel)%nat ->
            exists i' calls' matrix',
              while fuel
                (fun '(i, _, _, returned) => negb returned && (i <? height))
                (fun '(i, calls, matrix, _) =>
                   matrix' <- store matrix i (calloc calls) ;;
                   row <- load matrix' i ;;
                   if row =? 0 then Done (i, S calls, matrix', true)
                   else Done (i + 1, S calls, matrix', false))
                (i, S (Z.to_nat i), matrix, false)
              = Done (i', calls', matrix', true)) as Hloop.
  { induction n as [|n IH]; intros i matrix fuel Hn Hi Hlen Hfuel;
      (destruct fuel as [|fuel]; [lia|]); rewrite while_step;
      (destruct (Z.ltb_spec i height); [|lia]); cbn [negb andb];
      (destruct (store_then_load matrix i (calloc (S (Z.to_nat i))))
         as [Hload Hstore]; [lia|]);
      rewrite Hstore in Hload |- *; cbn [bind] in Hload |- *;
      rewrite Hload; cbn [bind].
    - assert (Z.to_nat i = row) as -> by lia.
      rewrite Hfail. cbn [Z.eqb]. destruct fuel as [|fuel]; [lia|].
      cbn [bind]. rewrite while_step. cbn [negb andb]. eauto.
    - destruct (Z.eqb_spec (calloc (S (Z.to_nat i))) 0) as [H1|_];
        [exfalso; apply (Hbefore (S (Z.to_nat i))); [lia | exact H1]|].
      replace (S (S (Z.to_nat i))) with (S (Z.to_nat (i + 1))) by lia.
      apply IH; [lia | lia | rewrite length_insert; exact Hlen | lia]. }
  destruct (Hloop row 0 (replicate (Z.to_nat width) 0) (S (Z.to_nat height)))
    as (i' & calls' & matrix' & Hrun);
    [simpl; lia | lia | rewrite length_replicate; lia | lia |].
  change (S (Z.to_nat 0)) with 1%nat in Hrun. rewrite Hrun. reflexivity.
Qed.

Lemma create_matrix_returns_null_witness :
  create_matrix (fun k => if (k =? 2)%nat then 0 else 7) 3 3 = Done None.
Proof.
  apply (create_matrix_returns_null (fun k => if (k =? 2)%nat then 0 else 7)
           3 3 2); [reflexivity | | lia | lia].
  intros [|[|k]] Hk; simpl; lia.
Defined.
